(** * Lensfun calibration store and parameter interpolation

    A shallow embedding of the calibration part of Lensfun
    ([libs/lensfun/auxfun.cpp] and [libs/lensfun/lens.cpp]): the generic
    NULL-terminated pointer-array helpers, the Hermite interpolation kernel,
    the parameter-axis scaling, the five [Interpolate*] methods,
    [GuessParameters] and [Check]; further the assignment of a lens, the
    ordering of lenses by their parameters, the multi-language strings of
    [auxfun.cpp] and the naming of a mount ([lensfun/mount.cpp]).

    C [float] is IEEE-754 binary32 and C [double] is binary64, both taken
    from the Standard Library's executable specification [SpecFloat]
    (round to nearest, ties to even).  Every place where C++ promotes a
    [float] operand to [double] and rounds back on assignment is written
    out with [to_double] and [to_float].  Functions of the C library that
    the code calls ([pow], [regexec], [atof]) are parameters of the
    definitions that call them.

    Where a call of the C code has no defined behaviour (a write past a
    buffer, a read of a released block, a [memcpy] between overlapping
    regions) the embedded function returns [None].  [operator =] works on
    a heap of lens objects, by address, so that a lens assigned to itself
    is one object. *)

From Stdlib Require Import ZArith Bool Lia.
From Stdlib Require Import Strings.String Strings.Ascii.
From Stdlib Require Import Floats.SpecFloat.
From stdpp Require Import base option list gmap.

Local Open Scope Z_scope.

(** ** Binary32 and binary64 arithmetic *)

Module FP.

Definition float := spec_float.
Definition double := spec_float.

Definition prec32 := 24.
Definition emax32 := 128.
Definition prec64 := 53.
Definition emax64 := 1024.

Definition fadd : float -> float -> float := SFadd prec32 emax32.
Definition fsub : float -> float -> float := SFsub prec32 emax32.
Definition fmul : float -> float -> float := SFmul prec32 emax32.
Definition fdiv : float -> float -> float := SFdiv prec32 emax32.
Definition fsqrt : float -> float := SFsqrt prec32 emax32.

Definition dmul : double -> double -> double := SFmul prec64 emax64.
Definition ddiv : double -> double -> double := SFdiv prec64 emax64.
Definition dabs : double -> double := SFabs.

(** The comparison operators of C; all of them are false on a NaN operand
    except [!=]. *)
Definition feqb : spec_float -> spec_float -> bool := SFeqb.
Definition fltb : spec_float -> spec_float -> bool := SFltb.
Definition fgtb (x y : spec_float) : bool := SFltb y x.
Definition fleb : spec_float -> spec_float -> bool := SFleb.
Definition fneb (x y : spec_float) : bool := negb (SFeqb x y).

(** Re-encoding of a value in a format: exact when the value is
    representable there (float to double), a rounding otherwise (double
    to float). *)
Definition reformat (prec emax : Z) (x : spec_float) : spec_float :=
  match x with
  | S754_finite s m e => binary_round prec emax s m e
  | _ => x
  end.

Definition to_double : float -> double := reformat prec64 emax64.
Definition to_float : double -> float := reformat prec32 emax32.

Definition float_of_int (n : Z) : float := binary_normalize prec32 emax32 n 0 false.
Definition double_of_int (n : Z) : double := binary_normalize prec64 emax64 n 0 false.

(** A decimal literal [p/q] of type [double], resp. [float]: the division
    is correctly rounded, as the compiler's reading of the literal is. *)
Definition double_lit (p q : Z) : double := ddiv (double_of_int p) (double_of_int q).
Definition float_lit (p q : Z) : float := fdiv (float_of_int p) (float_of_int q).

Definition fzero : float := S754_zero false.
Definition fone : float := float_of_int 1.
Definition FLT_MAX : float := SFmax_float prec32 emax32.
Definition NAN : float := S754_nan.
Definition INT_MAX : Z := 2147483647.
Definition INT_MIN : Z := -2147483648.

(** [!x] and [x] used as a condition. *)
Definition is_zero (x : float) : bool := feqb x fzero.
Definition truthy (x : float) : bool := negb (is_zero x).

Definition is_finite (x : spec_float) : bool :=
  match x with
  | S754_zero _ | S754_finite _ _ _ => true
  | _ => false
  end.

(** [std::min (a, b)] is [(b < a) ? b : a]. *)
Definition std_min (a b : float) : float := if fltb b a then b else a.

(** [square] of lensfunprv.h: [x * x]. *)
Definition square (x : float) : float := fmul x x.

(** *** A reference [pow]

    [pow] belongs to the C library.  The interpolators below take it as a
    parameter; [pow_ref] is the instance used to evaluate them on concrete
    inputs.  It is the correctly rounded power on the exponents the
    program passes (the integers 1, 2, 4, 6 and 3.5): a non-negative
    integer or half-integer exponent.  Elsewhere it answers NaN. *)

(** Twice the exponent, when that is an integer. *)
Definition twice_exponent (y : float) : option Z :=
  match y with
  | S754_zero _ => Some 0
  | S754_finite s m e =>
      let v := if s then Zneg m else Zpos m in
      if 0 <=? e + 1 then Some (v * 2 ^ (e + 1))
      else
        let d := 2 ^ (- (e + 1)) in
        if v mod d =? 0 then Some (v / d) else None
  | _ => None
  end.

(** The exact power [x ^ n], [n] positive, as an unnormalised mantissa and
    exponent. *)
Definition exact_power (x : float) (n : positive) : spec_float :=
  match x with
  | S754_finite s m e => S754_finite (s && Z.odd (Zpos n)) (m ^ n)%positive (e * Zpos n)
  | S754_zero s => S754_zero (s && Z.odd (Zpos n))
  | S754_infinity s => S754_infinity (s && Z.odd (Zpos n))
  | S754_nan => S754_nan
  end.

Definition pow_ref (x y : float) : float :=
  match twice_exponent y with
  | Some 0 => fone
  | Some (Zpos k) =>
      match k with
      | xO n => reformat prec32 emax32 (exact_power x n)
      | _ => fsqrt (exact_power x k)
      end
  | _ => NAN
  end.

End FP.
Import FP.

Declare Scope flt_scope.
Delimit Scope flt_scope with flt.
Infix "+" := fadd : flt_scope.
Infix "-" := fsub : flt_scope.
Infix "*" := fmul : flt_scope.
Infix "/" := fdiv : flt_scope.
Infix "==" := feqb (at level 70, no associativity) : flt_scope.
Infix "<" := fltb : flt_scope.
Infix ">" := fgtb : flt_scope.

(** ** Data model (lensfun.h) *)

Inductive lfDistortionModel :=
| LF_DIST_MODEL_NONE | LF_DIST_MODEL_POLY3 | LF_DIST_MODEL_POLY5
| LF_DIST_MODEL_PTLENS | LF_DIST_MODEL_ACM.

Inductive lfTCAModel :=
| LF_TCA_MODEL_NONE | LF_TCA_MODEL_LINEAR | LF_TCA_MODEL_POLY3 | LF_TCA_MODEL_ACM.

Inductive lfVignettingModel :=
| LF_VIGNETTING_MODEL_NONE | LF_VIGNETTING_MODEL_PA | LF_VIGNETTING_MODEL_ACM.

Inductive lfCropMode := LF_NO_CROP | LF_CROP_RECTANGLE | LF_CROP_CIRCLE.

Inductive lfLensType :=
| LF_UNKNOWN | LF_RECTILINEAR | LF_FISHEYE | LF_PANORAMIC | LF_EQUIRECTANGULAR
| LF_FISHEYE_ORTHOGRAPHIC | LF_FISHEYE_STEREOGRAPHIC | LF_FISHEYE_EQUISOLID
| LF_FISHEYE_THOBY.

(** The enumerators as the [int]s a [switch] sees. *)
Definition int_of_dist (m : lfDistortionModel) : Z :=
  match m with
  | LF_DIST_MODEL_NONE => 0 | LF_DIST_MODEL_POLY3 => 1 | LF_DIST_MODEL_POLY5 => 2
  | LF_DIST_MODEL_PTLENS => 3 | LF_DIST_MODEL_ACM => 4
  end.

Definition int_of_tca (m : lfTCAModel) : Z :=
  match m with
  | LF_TCA_MODEL_NONE => 0 | LF_TCA_MODEL_LINEAR => 1
  | LF_TCA_MODEL_POLY3 => 2 | LF_TCA_MODEL_ACM => 3
  end.

Definition int_of_vig (m : lfVignettingModel) : Z :=
  match m with
  | LF_VIGNETTING_MODEL_NONE => 0 | LF_VIGNETTING_MODEL_PA => 1
  | LF_VIGNETTING_MODEL_ACM => 2
  end.

Definition int_of_crop (m : lfCropMode) : Z :=
  match m with LF_NO_CROP => 0 | LF_CROP_RECTANGLE => 1 | LF_CROP_CIRCLE => 2 end.

Definition LF_MODIFY_TCA : Z := 1.
Definition LF_MODIFY_VIGNETTING : Z := 2.
Definition LF_MODIFY_DISTORTION : Z := 8.

(** The calibration records.  A fixed-size C array ([Terms [5]],
    [Terms [12]], [Terms [3]], [Crop [4]]) is a list of that length. *)

Record lfLensCalibDistortion := {
  d_Model : lfDistortionModel;
  d_Focal : float;
  d_RealFocal : float;
  d_RealFocalMeasured : bool;
  d_Terms : list float
}.

Record lfLensCalibTCA := {
  t_Model : lfTCAModel;
  t_Focal : float;
  t_Terms : list float
}.

Record lfLensCalibVignetting := {
  v_Model : lfVignettingModel;
  v_Focal : float;
  v_Aperture : float;
  v_Distance : float;
  v_Terms : list float
}.

Record lfLensCalibCrop := {
  c_Focal : float;
  c_CropMode : lfCropMode;
  c_Crop : list float
}.

Record lfLensCalibFov := {
  f_Focal : float;
  f_FieldOfView : float
}.

(** A NULL-terminated array of owned pointers: [None] is the NULL array
    pointer, [Some l] an allocated array holding the entries [l] before its
    terminator. *)
Definition ptr_array (T : Type) := option (list T).

(** [Maker] and [Model] are multi-language strings; the C string functions
    applied to them read the leading (default) segment, which is what the
    model keeps.  [None] is the NULL string. *)
Record lfLens := {
  Maker : option string;
  Model : option string;
  MinFocal : float;
  MaxFocal : float;
  MinAperture : float;
  MaxAperture : float;
  Mounts : ptr_array string;
  CenterX : float;
  CenterY : float;
  CropFactor : float;
  AspectRatio : float;
  Type_ : lfLensType;
  CalibDistortion : ptr_array lfLensCalibDistortion;
  CalibTCA : ptr_array lfLensCalibTCA;
  CalibVignetting : ptr_array lfLensCalibVignetting;
  CalibCrop : ptr_array lfLensCalibCrop;
  CalibFov : ptr_array lfLensCalibFov;
  Score : Z
}.

(** [lfLens::lfLens ()]: [memset] to 0, then [Type = LF_UNKNOWN]. *)
Definition lfLens_new : lfLens :=
  {| Maker := None; Model := None;
     MinFocal := fzero; MaxFocal := fzero; MinAperture := fzero; MaxAperture := fzero;
     Mounts := None; CenterX := fzero; CenterY := fzero; CropFactor := fzero;
     AspectRatio := fzero; Type_ := LF_UNKNOWN;
     CalibDistortion := None; CalibTCA := None; CalibVignetting := None;
     CalibCrop := None; CalibFov := None; Score := 0 |}.

(** ** auxfun.cpp *)

Section PtrArray.
Context {T : Type}.

(** The scan of [_lf_addobj]: the index of the first entry that [cmpf]
    matches against [val], counted from [n]. *)
Fixpoint first_match (cmpf : T -> T -> bool) (val : T) (l : list T) (n : nat)
  : option nat :=
  match l with
  | [] => None
  | x :: l' => if cmpf val x then Some n else first_match cmpf val l' (S n)
  end.

(** [_lf_addobj (var, val, val_size, cmpf)]: a matching entry is freed and
    its slot receives the copy of [val]; otherwise the array grows by one
    and the copy goes in front of the terminator.  [cmpf] may be NULL. *)
Definition _lf_addobj (var : ptr_array T) (val : T)
           (cmpf : option (T -> T -> bool)) : ptr_array T :=
  match var with
  | None => Some [val]
  | Some l =>
      match cmpf with
      | None => Some (l ++ [val])
      | Some cmp =>
          match first_match cmp val l 0 with
          | Some n => Some (<[n := val]> l)
          | None => Some (l ++ [val])
          end
      end
  end.

(** [_lf_delobj (var, idx)]: [memmove] closes the gap at [idx]. *)
Definition _lf_delobj (var : ptr_array T) (idx : Z) : bool * ptr_array T :=
  match var with
  | None => (false, var)
  | Some l =>
      let len := Z.of_nat (length l) in
      if (idx <? 0) || (len <=? idx) then (false, var)
      else (true, Some (delete (Z.to_nat idx) l))
  end.

End PtrArray.

Definition d_half : double := double_lit 1 2.

(** [_lf_interpolate (y1, y2, y3, y4, t)].  The products with the [double]
    literal [0.5] are taken in binary64 and rounded on assignment. *)
Definition _lf_interpolate (y1 y2 y3 y4 t : float) : float :=
  let t2 := (t * t)%flt in
  let t3 := (t2 * t)%flt in
  let tg2 :=
    if (y1 == FLT_MAX)%flt then (y3 - y2)%flt
    else to_float (dmul (to_double (y3 - y1)%flt) d_half) in
  let tg3 :=
    if (y4 == FLT_MAX)%flt then (y3 - y2)%flt
    else to_float (dmul (to_double (y4 - y2)%flt) d_half) in
  ((float_of_int 2 * t3 - float_of_int 3 * t2 + float_of_int 1) * y2 +
   (t3 - float_of_int 2 * t2 + t) * tg2 +
   (float_of_int (-2) * t3 + float_of_int 3 * t2) * y3 +
   (t3 - t2) * tg3)%flt.

(** ** lens.cpp: comparators and list maintenance *)

Definition cmp_distortion (d1 d2 : lfLensCalibDistortion) : bool :=
  (d_Focal d1 == d_Focal d2)%flt.

Definition cmp_tca (t1 t2 : lfLensCalibTCA) : bool :=
  (t_Focal t1 == t_Focal t2)%flt.

Definition cmp_vignetting (v1 v2 : lfLensCalibVignetting) : bool :=
  (v_Focal v1 == v_Focal v2)%flt &&
  (v_Distance v1 == v_Distance v2)%flt &&
  (v_Aperture v1 == v_Aperture v2)%flt.

Definition cmp_lenscrop (d1 d2 : lfLensCalibCrop) : bool :=
  (c_Focal d1 == c_Focal d2)%flt.

Definition cmp_lensfov (d1 d2 : lfLensCalibFov) : bool :=
  (f_Focal d1 == f_Focal d2)%flt.

Definition set_CalibDistortion (l : lfLens) (a : ptr_array lfLensCalibDistortion) : lfLens :=
  {| Maker := Maker l; Model := Model l; MinFocal := MinFocal l; MaxFocal := MaxFocal l;
     MinAperture := MinAperture l; MaxAperture := MaxAperture l; Mounts := Mounts l;
     CenterX := CenterX l; CenterY := CenterY l; CropFactor := CropFactor l;
     AspectRatio := AspectRatio l; Type_ := Type_ l;
     CalibDistortion := a; CalibTCA := CalibTCA l;
     CalibVignetting := CalibVignetting l; CalibCrop := CalibCrop l;
     CalibFov := CalibFov l; Score := Score l |}.

Definition set_CalibTCA (l : lfLens) (a : ptr_array lfLensCalibTCA) : lfLens :=
  {| Maker := Maker l; Model := Model l; MinFocal := MinFocal l; MaxFocal := MaxFocal l;
     MinAperture := MinAperture l; MaxAperture := MaxAperture l; Mounts := Mounts l;
     CenterX := CenterX l; CenterY := CenterY l; CropFactor := CropFactor l;
     AspectRatio := AspectRatio l; Type_ := Type_ l;
     CalibDistortion := CalibDistortion l; CalibTCA := a;
     CalibVignetting := CalibVignetting l; CalibCrop := CalibCrop l;
     CalibFov := CalibFov l; Score := Score l |}.

Definition set_CalibVignetting (l : lfLens) (a : ptr_array lfLensCalibVignetting) : lfLens :=
  {| Maker := Maker l; Model := Model l; MinFocal := MinFocal l; MaxFocal := MaxFocal l;
     MinAperture := MinAperture l; MaxAperture := MaxAperture l; Mounts := Mounts l;
     CenterX := CenterX l; CenterY := CenterY l; CropFactor := CropFactor l;
     AspectRatio := AspectRatio l; Type_ := Type_ l;
     CalibDistortion := CalibDistortion l; CalibTCA := CalibTCA l;
     CalibVignetting := a; CalibCrop := CalibCrop l;
     CalibFov := CalibFov l; Score := Score l |}.

Definition set_CalibCrop (l : lfLens) (a : ptr_array lfLensCalibCrop) : lfLens :=
  {| Maker := Maker l; Model := Model l; MinFocal := MinFocal l; MaxFocal := MaxFocal l;
     MinAperture := MinAperture l; MaxAperture := MaxAperture l; Mounts := Mounts l;
     CenterX := CenterX l; CenterY := CenterY l; CropFactor := CropFactor l;
     AspectRatio := AspectRatio l; Type_ := Type_ l;
     CalibDistortion := CalibDistortion l; CalibTCA := CalibTCA l;
     CalibVignetting := CalibVignetting l; CalibCrop := a;
     CalibFov := CalibFov l; Score := Score l |}.

Definition set_CalibFov (l : lfLens) (a : ptr_array lfLensCalibFov) : lfLens :=
  {| Maker := Maker l; Model := Model l; MinFocal := MinFocal l; MaxFocal := MaxFocal l;
     MinAperture := MinAperture l; MaxAperture := MaxAperture l; Mounts := Mounts l;
     CenterX := CenterX l; CenterY := CenterY l; CropFactor := CropFactor l;
     AspectRatio := AspectRatio l; Type_ := Type_ l;
     CalibDistortion := CalibDistortion l; CalibTCA := CalibTCA l;
     CalibVignetting := CalibVignetting l; CalibCrop := CalibCrop l;
     CalibFov := a; Score := Score l |}.

Definition AddCalibDistortion (l : lfLens) (dc : lfLensCalibDistortion) : lfLens :=
  set_CalibDistortion l (_lf_addobj (CalibDistortion l) dc (Some cmp_distortion)).

Definition RemoveCalibDistortion (l : lfLens) (idx : Z) : bool * lfLens :=
  let '(r, a) := _lf_delobj (CalibDistortion l) idx in (r, set_CalibDistortion l a).

Definition AddCalibTCA (l : lfLens) (tcac : lfLensCalibTCA) : lfLens :=
  set_CalibTCA l (_lf_addobj (CalibTCA l) tcac (Some cmp_tca)).

Definition RemoveCalibTCA (l : lfLens) (idx : Z) : bool * lfLens :=
  let '(r, a) := _lf_delobj (CalibTCA l) idx in (r, set_CalibTCA l a).

Definition AddCalibVignetting (l : lfLens) (vc : lfLensCalibVignetting) : lfLens :=
  set_CalibVignetting l (_lf_addobj (CalibVignetting l) vc (Some cmp_vignetting)).

Definition RemoveCalibVignetting (l : lfLens) (idx : Z) : bool * lfLens :=
  let '(r, a) := _lf_delobj (CalibVignetting l) idx in (r, set_CalibVignetting l a).

Definition AddCalibCrop (l : lfLens) (lcc : lfLensCalibCrop) : lfLens :=
  set_CalibCrop l (_lf_addobj (CalibCrop l) lcc (Some cmp_lenscrop)).

Definition RemoveCalibCrop (l : lfLens) (idx : Z) : bool * lfLens :=
  let '(r, a) := _lf_delobj (CalibCrop l) idx in (r, set_CalibCrop l a).

Definition AddCalibFov (l : lfLens) (lcf : lfLensCalibFov) : lfLens :=
  set_CalibFov l (_lf_addobj (CalibFov l) lcf (Some cmp_lensfov)).

Definition RemoveCalibFov (l : lfLens) (idx : Z) : bool * lfLens :=
  let '(r, a) := _lf_delobj (CalibFov l) idx in (r, set_CalibFov l a).

(** ** lens.cpp: spline slots *)

Record quad (A : Type) := Quad { q0 : A; q1 : A; q2 : A; q3 : A }.
Arguments Quad {A}.
Arguments q0 {A}.
Arguments q1 {A}.
Arguments q2 {A}.
Arguments q3 {A}.

(** [memset (spline, 0, sizeof (spline))] and the initial [spline_dist]. *)
Definition spline_null {T : Type} : quad (option T) := Quad None None None None.

Definition spline_dist_init : quad float :=
  Quad (SFopp FLT_MAX) (SFopp FLT_MAX) FLT_MAX FLT_MAX.

(** [__insert_spline (spline, spline_dist, dist, val)]: the returned slot
    number, then the two arrays as the call leaves them. *)
Definition __insert_spline {T : Type} (spline : quad (option T))
           (spline_dist : quad float) (dist : float) (val : T)
  : Z * quad (option T) * quad float :=
  if (dist < float_of_int 0)%flt then
    if (dist > q1 spline_dist)%flt then
      (1,
       Quad (q1 spline) (Some val) (q2 spline) (q3 spline),
       Quad (q1 spline_dist) dist (q2 spline_dist) (q3 spline_dist))
    else if (dist > q0 spline_dist)%flt then
      (0,
       Quad (Some val) (q1 spline) (q2 spline) (q3 spline),
       Quad dist (q1 spline_dist) (q2 spline_dist) (q3 spline_dist))
    else (-1, spline, spline_dist)
  else
    if (dist < q2 spline_dist)%flt then
      (2,
       Quad (q0 spline) (q1 spline) (Some val) (q2 spline),
       Quad (q0 spline_dist) (q1 spline_dist) dist (q2 spline_dist))
    else if (dist < q3 spline_dist)%flt then
      (3,
       Quad (q0 spline) (q1 spline) (q2 spline) (Some val),
       Quad (q0 spline_dist) (q1 spline_dist) (q2 spline_dist) dist)
    else (-1, spline, spline_dist).

(** [values [i] op= ...] for [i < number_of_values]. *)
Definition scale_prefix (number_of_values : Z) (f : float -> float)
           (values : list float) : list float :=
  map f (take (Z.to_nat number_of_values) values) ++
  drop (Z.to_nat number_of_values) values.

(** [a [i]] of a fixed-size array of floats. *)
Definition at_ (a : list float) (i : Z) : float := nth (Z.to_nat i) a fzero.

Definition d_zero : double := S754_zero false.
Definition d_one : double := double_of_int 1.

(** ** The scan shared by InterpolateDistortion, InterpolateTCA and
    InterpolateCrop

    The three loops differ in the record type and in the field that holds
    the model only. *)

Inductive scan_result (T M : Type) :=
| ExactMatch (c : T)
| Scanned (dm : M) (spline : quad (option T)) (spline_dist : quad float).
Arguments ExactMatch {T M}.
Arguments Scanned {T M}.

Section SplineScan.
Context {T M : Type}.
Variable model_of : T -> M.
Variable focal_of : T -> float.
Variable model_int : M -> Z.

Definition is_none (m : M) : bool := model_int m =? 0.
Definition same_model (a b : M) : bool := model_int a =? model_int b.

Fixpoint spline_scan (focal : float) (calib : list T) (dm : M)
         (spline : quad (option T)) (spline_dist : quad float)
  : scan_result T M :=
  match calib with
  | [] => Scanned dm spline spline_dist
  | c :: rest =>
      if is_none (model_of c) then
        spline_scan focal rest dm spline spline_dist
      else if negb (is_none dm) && negb (same_model dm (model_of c)) then
        spline_scan focal rest dm spline spline_dist
      else
        let dm := if is_none dm then model_of c else dm in
        let df := (focal - focal_of c)%flt in
        if (to_double df == d_zero)%flt then ExactMatch c
        else
          let '(_, spline, spline_dist) :=
            __insert_spline spline spline_dist df c in
          spline_scan focal rest dm spline spline_dist
  end.

End SplineScan.

(** InterpolateFov has no model to latch; it skips the records whose
    field of view is 0 and counts the others. *)
Fixpoint fov_scan (focal : float) (calib : list lfLensCalibFov) (counter : Z)
         (spline : quad (option lfLensCalibFov)) (spline_dist : quad float)
  : scan_result lfLensCalibFov Z :=
  match calib with
  | [] => Scanned counter spline spline_dist
  | c :: rest =>
      if (f_FieldOfView c == float_of_int 0)%flt then
        fov_scan focal rest counter spline spline_dist
      else
        let counter := counter + 1 in
        let df := (focal - f_Focal c)%flt in
        if (to_double df == d_zero)%flt then ExactMatch c
        else
          let '(_, spline, spline_dist) :=
            __insert_spline spline spline_dist df c in
          fov_scan focal rest counter spline spline_dist
  end.

Definition slot_or {T : Type} (s : option T) (f : T -> float) (dflt : float) : float :=
  match s with Some c => f c | None => dflt end.

(** ** lens.cpp: the interpolators *)

Section Libm.

(** [pow] of the C library (the [float] overload). *)
Variable pow : float -> float -> float.

(** [__parameter_scales (values, number_of_values, type, model, index)]:
    the array as the call leaves it.  A [switch] without a matching
    [case] does nothing. *)
Definition __parameter_scales (values : list float) (number_of_values : Z)
           (type model index : Z) : list float :=
  if type =? LF_MODIFY_DISTORTION then
    if (model =? int_of_dist LF_DIST_MODEL_POLY3)
       || (model =? int_of_dist LF_DIST_MODEL_POLY5)
       || (model =? int_of_dist LF_DIST_MODEL_PTLENS) then values
    else if model =? int_of_dist LF_DIST_MODEL_ACM then
      let exponent := if index <? 3 then float_of_int (2 * (index + 1)) else fone in
      scale_prefix number_of_values (fun v => (v / pow v exponent)%flt) values
    else values
  else if type =? LF_MODIFY_TCA then
    if (model =? int_of_tca LF_TCA_MODEL_LINEAR)
       || (model =? int_of_tca LF_TCA_MODEL_POLY3) then
      if index <? 2 then scale_prefix number_of_values (fun _ => fone) values
      else values
    else if model =? int_of_tca LF_TCA_MODEL_ACM then
      let exponent :=
        if (1 <? index) && (index <? 8) then float_of_int (index ÷ 2 * 2) else fone in
      scale_prefix number_of_values (fun v => (v / pow v exponent)%flt) values
    else values
  else if type =? LF_MODIFY_VIGNETTING then
    if model =? int_of_vig LF_VIGNETTING_MODEL_PA then
      scale_prefix number_of_values (fun _ => fone) values
    else if model =? int_of_vig LF_VIGNETTING_MODEL_ACM then
      let exponent := float_of_int (2 * (index + 1)) in
      scale_prefix number_of_values
        (fun v => to_float (ddiv d_one (to_double (pow v exponent)))) values
    else values
  else values.

(** The array [values] of the spline interpolators after the call: the
    scale factors of the four slots and of the query. *)
Definition scale_values {T : Type} (focal_of : T -> float)
           (s0 : option T) (s1 s2 : T) (s3 : option T) (focal : float)
           (type model index : Z) : list float :=
  __parameter_scales
    [slot_or s0 focal_of NAN; focal_of s1; focal_of s2; slot_or s3 focal_of NAN; focal]
    5 type model index.

(** One [res.Terms [i] = _lf_interpolate (...) / values [4]]. *)
Definition scaled_term {T : Type} (focal_of : T -> float) (terms_of : T -> list float)
           (s0 : option T) (s1 s2 : T) (s3 : option T) (focal t : float)
           (type model index : Z) : float :=
  let values := scale_values focal_of s0 s1 s2 s3 focal type model index in
  (_lf_interpolate
     (slot_or s0 (fun c => at_ (terms_of c) index * at_ values 0) FLT_MAX)
     (at_ (terms_of s1) index * at_ values 1)
     (at_ (terms_of s2) index * at_ values 2)
     (slot_or s3 (fun c => at_ (terms_of c) index * at_ values 3) FLT_MAX)
     t / at_ values 4)%flt.

Definition InterpolateDistortion (l : lfLens) (focal : float)
           (res : lfLensCalibDistortion) : bool * lfLensCalibDistortion :=
  match CalibDistortion l with
  | None => (false, res)
  | Some calib =>
      match spline_scan d_Model d_Focal int_of_dist focal calib
              LF_DIST_MODEL_NONE spline_null spline_dist_init with
      | ExactMatch c => (true, c)
      | Scanned dm spline _ =>
          match q1 spline, q2 spline with
          | Some s1, None => (true, s1)
          | None, Some s2 => (true, s2)
          | None, None => (false, res)
          | Some s1, Some s2 =>
              let t := ((focal - d_Focal s1) / (d_Focal s2 - d_Focal s1))%flt in
              (true,
               {| d_Model := dm;
                  d_Focal := focal;
                  d_RealFocal :=
                    _lf_interpolate
                      (slot_or (q0 spline) d_RealFocal FLT_MAX)
                      (d_RealFocal s1) (d_RealFocal s2)
                      (slot_or (q3 spline) d_RealFocal FLT_MAX) t;
                  d_RealFocalMeasured := d_RealFocalMeasured res;
                  d_Terms :=
                    map (scaled_term d_Focal d_Terms (q0 spline) s1 s2 (q3 spline)
                           focal t LF_MODIFY_DISTORTION (int_of_dist dm))
                        [0; 1; 2; 3; 4] |})
          end
      end
  end.

Definition InterpolateTCA (l : lfLens) (focal : float)
           (res : lfLensCalibTCA) : bool * lfLensCalibTCA :=
  match CalibTCA l with
  | None => (false, res)
  | Some calib =>
      match spline_scan t_Model t_Focal int_of_tca focal calib
              LF_TCA_MODEL_NONE spline_null spline_dist_init with
      | ExactMatch c => (true, c)
      | Scanned tcam spline _ =>
          match q1 spline, q2 spline with
          | Some s1, None => (true, s1)
          | None, Some s2 => (true, s2)
          | None, None => (false, res)
          | Some s1, Some s2 =>
              let t := ((focal - t_Focal s1) / (t_Focal s2 - t_Focal s1))%flt in
              (true,
               {| t_Model := tcam;
                  t_Focal := focal;
                  t_Terms :=
                    map (scaled_term t_Focal t_Terms (q0 spline) s1 s2 (q3 spline)
                           focal t LF_MODIFY_TCA (int_of_tca tcam))
                        [0; 1; 2; 3; 4; 5; 6; 7; 8; 9; 10; 11] |})
          end
      end
  end.

(** *** Vignetting: inverse distance weighting *)

(** [__vignetting_dist (l, x, focal, aperture, distance)].  The
    quotients with the [double] literals [4.0] and [0.1] are taken in
    binary64 and rounded on assignment; [sqrt] is the [float] overload. *)
Definition __vignetting_dist (l : lfLens) (x : lfLensCalibVignetting)
           (focal aperture distance : float) : float :=
  let f1 := (focal - MinFocal l)%flt in
  let f2 := (v_Focal x - MinFocal l)%flt in
  let df := (MaxFocal l - MinFocal l)%flt in
  let '(f1, f2) :=
    if fneb df (float_of_int 0) then ((f1 / df)%flt, (f2 / df)%flt) else (f1, f2) in
  let a1 := to_float (ddiv (double_of_int 4) (to_double aperture)) in
  let a2 := to_float (ddiv (double_of_int 4) (to_double (v_Aperture x))) in
  let d1 := to_float (ddiv (double_lit 1 10) (to_double distance)) in
  let d2 := to_float (ddiv (double_lit 1 10) (to_double (v_Distance x))) in
  fsqrt (square (f2 - f1) + square (a2 - a1) + square (d2 - d1))%flt.

(** [const float power = 3.5]. *)
Definition power : float := float_lit 7 2.

Definition set_v_Model (r : lfLensCalibVignetting) (m : lfVignettingModel) :=
  {| v_Model := m; v_Focal := v_Focal r; v_Aperture := v_Aperture r;
     v_Distance := v_Distance r; v_Terms := v_Terms r |}.

Definition set_v_Terms (r : lfLensCalibVignetting) (ts : list float) :=
  {| v_Model := v_Model r; v_Focal := v_Focal r; v_Aperture := v_Aperture r;
     v_Distance := v_Distance r; v_Terms := ts |}.

(** The locals the loop of InterpolateVignetting carries, [res] among
    them: the output record is the accumulator. *)
Record vig_state := {
  vs_vm : lfVignettingModel;
  vs_res : lfLensCalibVignetting;
  vs_total_weighting : float;
  vs_smallest : float
}.

Definition vig_same (a b : lfVignettingModel) : bool := int_of_vig a =? int_of_vig b.

(** [fabs (1.0 / pow (interpolation_distance, power))], a [double] rounded
    on assignment to [weighting]. *)
Definition weighting_of (interpolation_distance : float) : float :=
  to_float (dabs (ddiv d_one (to_double (pow interpolation_distance power)))).

(** [res.Terms [i] += weighting * c->Terms [i] * values [0]], [i < 3]. *)
Definition accumulate_terms (vm : lfVignettingModel) (weighting : float)
           (c : lfLensCalibVignetting) (terms : list float) : list float :=
  map (fun i =>
         let values :=
           __parameter_scales [v_Focal c] 1 LF_MODIFY_VIGNETTING (int_of_vig vm) i in
         (at_ terms i + weighting * at_ (v_Terms c) i * at_ values 0)%flt)
      [0; 1; 2].

Fixpoint vignetting_scan (l : lfLens) (focal aperture distance : float)
         (calib : list lfLensCalibVignetting) (st : vig_state)
  : lfLensCalibVignetting + vig_state :=
  match calib with
  | [] => inr st
  | c :: rest =>
      let latch := vig_same (vs_vm st) LF_VIGNETTING_MODEL_NONE in
      if negb latch && negb (vig_same (vs_vm st) (v_Model c)) then
        vignetting_scan l focal aperture distance rest st
      else
        let vm := if latch then v_Model c else vs_vm st in
        let res := if latch then set_v_Model (vs_res st) vm else vs_res st in
        let interpolation_distance := __vignetting_dist l c focal aperture distance in
        if (to_double interpolation_distance < double_lit 1 10000)%flt then inl c
        else
          let smallest := std_min (vs_smallest st) interpolation_distance in
          let weighting := weighting_of interpolation_distance in
          vignetting_scan l focal aperture distance rest
            {| vs_vm := vm;
               vs_res := set_v_Terms res (accumulate_terms vm weighting c (v_Terms res));
               vs_total_weighting := (vs_total_weighting st + weighting)%flt;
               vs_smallest := smallest |}
  end.

(** [res.Terms [i] /= total_weighting * values [0]], [i < 3]. *)
Definition normalize_terms (vm : lfVignettingModel) (focal total_weighting : float)
           (terms : list float) : list float :=
  map (fun i =>
         let values :=
           __parameter_scales [focal] 1 LF_MODIFY_VIGNETTING (int_of_vig vm) i in
         (at_ terms i / (total_weighting * at_ values 0))%flt)
      [0; 1; 2].

Definition InterpolateVignetting (l : lfLens) (focal aperture distance : float)
           (res : lfLensCalibVignetting) : bool * lfLensCalibVignetting :=
  match CalibVignetting l with
  | None => (false, res)
  | Some calib =>
      let res :=
        {| v_Model := v_Model res; v_Focal := focal; v_Aperture := aperture;
           v_Distance := distance;
           v_Terms := [float_of_int 0; float_of_int 0; float_of_int 0] |} in
      match vignetting_scan l focal aperture distance calib
              {| vs_vm := LF_VIGNETTING_MODEL_NONE; vs_res := res;
                 vs_total_weighting := float_of_int 0; vs_smallest := FLT_MAX |} with
      | inl c => (true, c)
      | inr st =>
          if (vs_smallest st > float_of_int 1)%flt then (false, vs_res st)
          else if (vs_total_weighting st > float_of_int 0)%flt
                  && (vs_smallest st < FLT_MAX)%flt then
            (true,
             set_v_Terms (vs_res st)
               (normalize_terms (vs_vm st) focal (vs_total_weighting st)
                  (v_Terms (vs_res st))))
          else (false, vs_res st)
      end
  end.

End Libm.

(** InterpolateCrop and InterpolateFov rescale nothing. *)

Definition InterpolateCrop (l : lfLens) (focal : float)
           (res : lfLensCalibCrop) : bool * lfLensCalibCrop :=
  match CalibCrop l with
  | None => (false, res)
  | Some calib =>
      match spline_scan c_CropMode c_Focal int_of_crop focal calib
              LF_NO_CROP spline_null spline_dist_init with
      | ExactMatch c => (true, c)
      | Scanned cm spline _ =>
          match q1 spline, q2 spline with
          | Some s1, None => (true, s1)
          | None, Some s2 => (true, s2)
          | None, None => (false, res)
          | Some s1, Some s2 =>
              let t := ((focal - c_Focal s1) / (c_Focal s2 - c_Focal s1))%flt in
              (true,
               {| c_Focal := focal;
                  c_CropMode := cm;
                  c_Crop :=
                    map (fun i =>
                           _lf_interpolate
                             (slot_or (q0 spline) (fun c => at_ (c_Crop c) i) FLT_MAX)
                             (at_ (c_Crop s1) i) (at_ (c_Crop s2) i)
                             (slot_or (q3 spline) (fun c => at_ (c_Crop c) i) FLT_MAX) t)
                        [0; 1; 2; 3] |})
          end
      end
  end.

Definition InterpolateFov (l : lfLens) (focal : float)
           (res : lfLensCalibFov) : bool * lfLensCalibFov :=
  match CalibFov l with
  | None => (false, res)
  | Some calib =>
      match fov_scan focal calib 0 spline_null spline_dist_init with
      | ExactMatch c => (true, c)
      | Scanned counter spline _ =>
          if counter =? 0 then (false, res)
          else
            match q1 spline, q2 spline with
            | Some s1, None => (true, s1)
            | None, Some s2 => (true, s2)
            | None, None => (false, res)
            | Some s1, Some s2 =>
                let t := ((focal - f_Focal s1) / (f_Focal s2 - f_Focal s1))%flt in
                (true,
                 {| f_Focal := focal;
                    f_FieldOfView :=
                      _lf_interpolate
                        (slot_or (q0 spline) f_FieldOfView FLT_MAX)
                        (f_FieldOfView s1) (f_FieldOfView s2)
                        (slot_or (q3 spline) f_FieldOfView FLT_MAX) t |})
            end
      end
  end.

(** ** lens.cpp: GuessParameters and Check *)

Definition set_ranges (l : lfLens) (minf maxf mina maxa : float) : lfLens :=
  {| Maker := Maker l; Model := Model l; MinFocal := minf; MaxFocal := maxf;
     MinAperture := mina; MaxAperture := maxa; Mounts := Mounts l;
     CenterX := CenterX l; CenterY := CenterY l; CropFactor := CropFactor l;
     AspectRatio := AspectRatio l; Type_ := Type_ l;
     CalibDistortion := CalibDistortion l; CalibTCA := CalibTCA l;
     CalibVignetting := CalibVignetting l; CalibCrop := CalibCrop l;
     CalibFov := CalibFov l; Score := Score l |}.

(** The table [lens_name_regex]: a pattern and its [matchidx]. *)
Definition lens_name_regex : list (string * (Z * Z * Z)) :=
  [ ("([[:space:]]+|^)([0-9]+[0-9.]*)(-[0-9]+[0-9.]*)?(mm)?[[:space:]]+(f/|f|1/|1:)?([0-9.]+)(-[0-9.]+)?"%string,
     (2, 3, 6));
    ("[[:space:]]+1:([0-9.]+)(-[0-9.]+)?[[:space:]]+([0-9.]+)(-[0-9.]+)?(mm)?"%string,
     (3, 4, 1));
    ("([0-9.]+)(-[0-9.]+)?[[:space:]]*/[[:space:]]*([0-9.]+)(-[0-9.]+)?"%string,
     (3, 4, 1)) ].

Definition extender_magnification_regex : string := "[0-9](\.[0.9]+)?x"%string.

(** A pointer used as a condition. *)
Definition non_null {A : Type} (p : option A) : bool :=
  match p with Some _ => true | None => false end.

(** [strstr (haystack, needle) != NULL]. *)
Definition strstr (haystack needle : string) : bool :=
  match index 0 needle haystack with Some _ => true | None => false end.

(** One [if (f < minf) minf = f; if (f > maxf) maxf = f;]. *)
Definition widen (f : float) (lo_hi : float * float) : float * float :=
  let '(lo, hi) := lo_hi in
  ((if (f < lo)%flt then f else lo), (if (f > hi)%flt then f else hi)).

Definition widen_all {T : Type} (key : T -> float) (a : ptr_array T)
           (lo_hi : float * float) : float * float :=
  match a with
  | None => lo_hi
  | Some l => fold_left (fun acc c => widen (key c) acc) l lo_hi
  end.

(** [if (bound != sentinel && !field) field = bound;] *)
Definition fill_empty (bound : float) (sentinel : Z) (field : float) : float :=
  if fneb bound (float_of_int sentinel) && is_zero field then bound else field.

Section Libc.

(** [regexec] on a pattern compiled with [REG_EXTENDED | REG_ICASE]:
    [None] when the subject does not match, otherwise the [regmatch_t]
    array, each entry an [(rm_so, rm_eo)] pair. *)
Variable regexec : string -> string -> option (list (Z * Z)).

(** [atof] of the C library, under the "C" numeric locale. *)
Variable atof : string -> double.

(** [_lf_parse_float (model, match)].  [*src] is read, so [src] has to
    point into the name or at its terminator; [strncpy (tmp, src, len)]
    writes [len] bytes to [char tmp [100]] and [tmp [len] = 0] one more,
    with no test of [len]: the call has a defined result, the [atof] of
    the group, only for a [len] from 0 to 99, and [None] stands for the
    others. *)
Definition _lf_parse_float (model : string) (m : Z * Z) : option float :=
  let '(rm_so, rm_eo) := m in
  let len := rm_eo - rm_so in
  if (0 <=? rm_so) && (rm_so <=? Z.of_nat (String.length model)) then
    let '(src, len) :=
      match get (Z.to_nat rm_so) model with
      | Some "-"%char => (rm_so + 1, len - 1)
      | _ => (rm_so, len)
      end in
    if (0 <=? len) && (len <? 100) then
      Some (to_float (atof (substring (Z.to_nat src) (Z.to_nat len) model)))
    else None
  else None.

(** [matches [i]]. *)
Definition regmatch (matches : list (Z * Z)) (i : Z) : Z * Z :=
  nth (Z.to_nat i) matches (-1, -1).

(** [if (matches [idx].rm_so != -1) bound = _lf_parse_float (...)]. *)
Definition parse_group (model : string) (matches : list (Z * Z)) (idx : Z)
           (bound : float) : option float :=
  if fst (regmatch matches idx) =? -1 then Some bound
  else _lf_parse_float model (regmatch matches idx).

(** The loop of [_lf_parse_lens_name] over the rest of the table. *)
Fixpoint parse_with (table : list (string * (Z * Z * Z))) (model : string)
         (minf maxf mina : float) : option (bool * (float * float * float)) :=
  match table with
  | [] => Some (false, (minf, maxf, mina))
  | (regex, (i0, i1, i2)) :: table' =>
      match regexec regex model with
      | None => parse_with table' model minf maxf mina
      | Some matches =>
          minf ← parse_group model matches i0 minf;
          maxf ← parse_group model matches i1 maxf;
          mina ← parse_group model matches i2 mina;
          Some (true, (minf, maxf, mina))
      end
  end.

Definition _lf_parse_lens_name (model : option string) (minf maxf mina : float)
  : option (bool * (float * float * float)) :=
  match model with
  | None => Some (false, (minf, maxf, mina))
  | Some m => parse_with lens_name_regex m minf maxf mina
  end.

(** The condition under which GuessParameters calls
    [_lf_parse_lens_name]. *)
Definition parses_name (l : lfLens) : bool :=
  match Model l with
  | Some model =>
      (is_zero (MinAperture l) || is_zero (MinFocal l))
      && negb (strstr model "adapter")
      && negb (strstr model "reducer")
      && negb (strstr model "booster")
      && negb (strstr model "extender")
      && negb (strstr model "converter")
      && negb (non_null (regexec extender_magnification_regex model))
  | None => false
  end.

(** The first half of GuessParameters: the locals [minf], [maxf], [mina]
    and [maxa] once the model name and the calibration lists have been
    read. *)
Definition guessed_bounds (l : lfLens) : option (float * float * float * float) :=
  let minf := float_of_int INT_MAX in
  let maxf := float_of_int INT_MIN in
  let mina := float_of_int INT_MAX in
  let maxa := float_of_int INT_MIN in
  parsed ← (if parses_name l
            then snd <$> _lf_parse_lens_name (Model l) minf maxf mina
            else Some (minf, maxf, mina));
  let '(minf, maxf, mina) := parsed in
  Some
    (if is_zero (MinAperture l) || is_zero (MinFocal l) then
       let '(minf, maxf) := widen_all d_Focal (CalibDistortion l) (minf, maxf) in
       let '(minf, maxf) := widen_all t_Focal (CalibTCA l) (minf, maxf) in
       (* one loop in the source; the focal and the aperture bounds do not meet *)
       let '(minf, maxf) := widen_all v_Focal (CalibVignetting l) (minf, maxf) in
       let '(mina, maxa) := widen_all v_Aperture (CalibVignetting l) (mina, maxa) in
       let '(minf, maxf) := widen_all c_Focal (CalibCrop l) (minf, maxf) in
       let '(minf, maxf) := widen_all f_Focal (CalibFov l) (minf, maxf) in
       (minf, maxf, mina, maxa)
     else (minf, maxf, mina, maxa)).

(** The second half: the assignments. *)
Definition fill_ranges (l : lfLens) (bounds : float * float * float * float) : lfLens :=
  let '(minf, maxf, mina, maxa) := bounds in
  let MinFocal' := fill_empty minf INT_MAX (MinFocal l) in
  let MaxFocal' := fill_empty maxf INT_MIN (MaxFocal l) in
  let MinAperture' := fill_empty mina INT_MAX (MinAperture l) in
  let MaxAperture' := fill_empty maxa INT_MIN (MaxAperture l) in
  let MaxFocal' := if is_zero MaxFocal' then MinFocal' else MaxFocal' in
  set_ranges l MinFocal' MaxFocal' MinAperture' MaxAperture'.

Definition GuessParameters (l : lfLens) : option lfLens :=
  bounds ← guessed_bounds l;
  Some (fill_ranges l bounds).

Definition Check (l : lfLens) : option (bool * lfLens) :=
  l ← GuessParameters l;
  Some (if negb (non_null (Model l)) || negb (non_null (Mounts l))
           || fleb (CropFactor l) (float_of_int 0)
           || (MinFocal l > MaxFocal l)%flt
           || (truthy (MaxAperture l) && (MinAperture l > MaxAperture l)%flt)
           || (AspectRatio l < float_of_int 1)%flt
        then (false, l) else (true, l)).

End Libc.

(** ** Notions used to state the properties *)

(** The entries of an array; the NULL array has none. *)
Definition entries {T : Type} (a : ptr_array T) : list T :=
  match a with Some l => l | None => [] end.

(** No two entries compare equal under the list's comparator. *)
Definition keys_distinct {T : Type} (cmp : T -> T -> bool) (l : list T) : Prop :=
  forall (i j : nat) (x y : T),
    i <> j -> l !! i = Some x -> l !! j = Some y -> cmp x y = false.

Definition lens_keys_distinct (l : lfLens) : Prop :=
  keys_distinct cmp_distortion (entries (CalibDistortion l)) /\
  keys_distinct cmp_tca (entries (CalibTCA l)) /\
  keys_distinct cmp_vignetting (entries (CalibVignetting l)) /\
  keys_distinct cmp_lenscrop (entries (CalibCrop l)) /\
  keys_distinct cmp_lensfov (entries (CalibFov l)).

(** What one insertion does to a list: the first entry whose key compares
    equal to the new record's is overwritten where it stands, or, when
    there is none, the record goes to the end. *)
Definition replaced_or_appended {T : Type} (cmp : T -> T -> bool)
           (before after : list T) (val : T) : Prop :=
  (exists (n : nat) (old : T),
      before !! n = Some old /\ cmp val old = true /\
      (forall (m : nat) (x : T), (m < n)%nat -> before !! m = Some x -> cmp val x = false) /\
      after = <[n := val]> before /\ length after = length before)
  \/
  ((forall x : T, x ∈ before -> cmp val x = false) /\ after = before ++ [val]).

(** What one removal does to a list. *)
Definition removed_at {T : Type} (before after : ptr_array T) (idx : Z) (r : bool) : Prop :=
  (r = true <-> 0 <= idx < Z.of_nat (length (entries before))) /\
  (r = true ->
   S (length (entries after)) = length (entries before) /\
   forall j : nat,
     entries after !! j =
     if Z.of_nat j <? idx then entries before !! j else entries before !! S j) /\
  (r = false -> after = before).

(** The model family a spline scan latches: the model of the first record
    whose model is not NONE. *)
Definition latched_model {T M : Type} (model_of : T -> M) (model_int : M -> Z)
           (calib : list T) : option M :=
  match find (fun c => negb (is_none model_int (model_of c))) calib with
  | Some c => Some (model_of c)
  | None => None
  end.

(** The test [df == 0.0] of the spline scans. *)
Definition exact_focal (focal sample_focal : float) : bool :=
  (to_double (focal - sample_focal) == d_zero)%flt.

(** The records the loop of InterpolateVignetting does not skip, with the
    model [vm] latched so far. *)
Fixpoint vig_considered (vm : lfVignettingModel) (calib : list lfLensCalibVignetting)
  : list lfLensCalibVignetting :=
  match calib with
  | [] => []
  | c :: rest =>
      let latch := vig_same vm LF_VIGNETTING_MODEL_NONE in
      if negb latch && negb (vig_same vm (v_Model c)) then vig_considered vm rest
      else c :: vig_considered (if latch then v_Model c else vm) rest
  end.

(** The model the loop of InterpolateVignetting holds in [vm] once it has
    gone through [calib], having started with [vm]. *)
Definition vig_latched (vm : lfVignettingModel) (calib : list lfLensCalibVignetting)
  : lfVignettingModel :=
  fold_left
    (fun vm c => if vig_same vm LF_VIGNETTING_MODEL_NONE then v_Model c else vm)
    calib vm.

(** The test [interpolation_distance < 0.0001]. *)
Definition within_exact (l : lfLens) (focal aperture distance : float)
           (c : lfLensCalibVignetting) : bool :=
  (to_double (__vignetting_dist l c focal aperture distance) < double_lit 1 10000)%flt.

Definition smallest_distance (l : lfLens) (focal aperture distance : float)
           (cs : list lfLensCalibVignetting) : float :=
  fold_left (fun acc c => std_min acc (__vignetting_dist l c focal aperture distance))
            cs FLT_MAX.

Definition total_weight (pow : float -> float -> float) (l : lfLens)
           (focal aperture distance : float) (cs : list lfLensCalibVignetting) : float :=
  fold_left
    (fun acc c => (acc + weighting_of pow (__vignetting_dist l c focal aperture distance))%flt)
    cs (float_of_int 0).

(** The factor by which a vignetting term of model [m] is scaled at the
    focal length [f]: what [__parameter_scales] leaves in [values [0]]
    when it is called on that one focal length. *)
Definition vig_scale (pow : float -> float -> float) (m : lfVignettingModel)
           (f : float) (i : Z) : float :=
  at_ (__parameter_scales pow [f] 1 LF_MODIFY_VIGNETTING (int_of_vig m) i) 0.

(** The weighted sum of the scaled terms of index [i] over the records
    [cs], taken in their order from 0: each record enters with the weight
    of its distance to the query and the scale of its own model and focal
    length. *)
Definition weighted_sum (pow : float -> float -> float) (l : lfLens)
           (focal aperture distance : float) (i : Z)
           (cs : list lfLensCalibVignetting) : float :=
  fold_left
    (fun acc c =>
       (acc + weighting_of pow (__vignetting_dist l c focal aperture distance)
              * at_ (v_Terms c) i * vig_scale pow (v_Model c) (v_Focal c) i)%flt)
    cs (float_of_int 0).

(** The weighted mean: the weighted sum over the sum of the weights, the
    scale of the latched model [m] at the query's focal length taken out
    again. *)
Definition weighted_mean (pow : float -> float -> float) (l : lfLens)
           (focal aperture distance : float) (m : lfVignettingModel) (i : Z)
           (cs : list lfLensCalibVignetting) : float :=
  (weighted_sum pow l focal aperture distance i cs
   / (total_weight pow l focal aperture distance cs * vig_scale pow m focal i))%flt.

(** The factor [__parameter_scales] puts in place of a focal length:
    called on an array of focal lengths, it leaves [s] of each. *)
Definition scales_by (pow : float -> float -> float) (type model index : Z)
           (s : float -> float) : Prop :=
  forall values : list float,
    __parameter_scales pow values (Z.of_nat (length values)) type model index
    = map s values.

(** The pattern of [lens_name_regex] that [_lf_parse_lens_name] settles
    on, the first one that matches: what [regexec] filled in for it, and
    its [matchidx]. *)
Fixpoint name_match_in (regexec : string -> string -> option (list (Z * Z)))
         (table : list (string * (Z * Z * Z))) (model : string)
  : option (list (Z * Z) * (Z * Z * Z)) :=
  match table with
  | [] => None
  | (regex, matchidx) :: table' =>
      match regexec regex model with
      | Some matches => Some (matches, matchidx)
      | None => name_match_in regexec table' model
      end
  end.

Definition name_match (regexec : string -> string -> option (list (Z * Z)))
           (model : string) : option (list (Z * Z) * (Z * Z * Z)) :=
  name_match_in regexec lens_name_regex model.

(** A group as [regexec] reports it for a pattern of [lens_name_regex]
    stays within what [_lf_parse_float] can take: the group did not take
    part in the match, or it is a piece of the name, not empty, of fewer
    than 100 characters. *)
Definition group_fits (model : string) (m : Z * Z) : bool :=
  let '(rm_so, rm_eo) := m in
  (rm_so =? -1)
  || ((0 <=? rm_so) && (rm_so <? rm_eo) && (rm_eo <=? Z.of_nat (String.length model))
      && (rm_eo - rm_so <? 100)).

(** The three groups of the pattern that matches the name do. *)
Definition groups_fit (regexec : string -> string -> option (list (Z * Z)))
           (model : string) : bool :=
  match name_match regexec model with
  | None => true
  | Some (matches, (i0, i1, i2)) =>
      group_fits model (regmatch matches i0)
      && group_fits model (regmatch matches i1)
      && group_fits model (regmatch matches i2)
  end.

(** The test through which [guessed_bounds] reads the focal and aperture
    fields. *)
Definition wants_guess (l : lfLens) : bool :=
  is_zero (MinAperture l) || is_zero (MinFocal l).

(** The two reciprocal axes of [__vignetting_dist]. *)
Definition aperture_axis (aperture : float) : float :=
  to_float (ddiv (double_of_int 4) (to_double aperture)).

Definition distance_axis (distance : float) : float :=
  to_float (ddiv (double_lit 1 10) (to_double distance)).

(** ** lens.cpp: mounts and assignment *)

(** [_lf_addstr (var, val)]: [_lf_addobj] with the NULL comparator. *)
Definition _lf_addstr (var : ptr_array string) (val : string) : ptr_array string :=
  _lf_addobj var val None.

Definition set_Mounts (l : lfLens) (a : ptr_array string) : lfLens :=
  {| Maker := Maker l; Model := Model l; MinFocal := MinFocal l; MaxFocal := MaxFocal l;
     MinAperture := MinAperture l; MaxAperture := MaxAperture l; Mounts := a;
     CenterX := CenterX l; CenterY := CenterY l; CropFactor := CropFactor l;
     AspectRatio := AspectRatio l; Type_ := Type_ l;
     CalibDistortion := CalibDistortion l; CalibTCA := CalibTCA l;
     CalibVignetting := CalibVignetting l; CalibCrop := CalibCrop l;
     CalibFov := CalibFov l; Score := Score l |}.

(** [lfLens::AddMount (val)]; [None] is the NULL pointer. *)
Definition AddMount (l : lfLens) (val : option string) : lfLens :=
  match val with
  | Some v => set_Mounts l (_lf_addstr (Mounts l) v)
  | None => l
  end.

Definition set_Maker (l : lfLens) (s : option string) : lfLens :=
  {| Maker := s; Model := Model l; MinFocal := MinFocal l; MaxFocal := MaxFocal l;
     MinAperture := MinAperture l; MaxAperture := MaxAperture l; Mounts := Mounts l;
     CenterX := CenterX l; CenterY := CenterY l; CropFactor := CropFactor l;
     AspectRatio := AspectRatio l; Type_ := Type_ l;
     CalibDistortion := CalibDistortion l; CalibTCA := CalibTCA l;
     CalibVignetting := CalibVignetting l; CalibCrop := CalibCrop l;
     CalibFov := CalibFov l; Score := Score l |}.

Definition set_Model (l : lfLens) (s : option string) : lfLens :=
  {| Maker := Maker l; Model := s; MinFocal := MinFocal l; MaxFocal := MaxFocal l;
     MinAperture := MinAperture l; MaxAperture := MaxAperture l; Mounts := Mounts l;
     CenterX := CenterX l; CenterY := CenterY l; CropFactor := CropFactor l;
     AspectRatio := AspectRatio l; Type_ := Type_ l;
     CalibDistortion := CalibDistortion l; CalibTCA := CalibTCA l;
     CalibVignetting := CalibVignetting l; CalibCrop := CalibCrop l;
     CalibFov := CalibFov l; Score := Score l |}.

(** [CenterX], [CenterY], [CropFactor], [AspectRatio] and [Type]. *)
Definition set_geometry (l : lfLens) (cx cy crop aspect : float) (type : lfLensType)
  : lfLens :=
  {| Maker := Maker l; Model := Model l; MinFocal := MinFocal l; MaxFocal := MaxFocal l;
     MinAperture := MinAperture l; MaxAperture := MaxAperture l; Mounts := Mounts l;
     CenterX := cx; CenterY := cy; CropFactor := crop;
     AspectRatio := aspect; Type_ := type;
     CalibDistortion := CalibDistortion l; CalibTCA := CalibTCA l;
     CalibVignetting := CalibVignetting l; CalibCrop := CalibCrop l;
     CalibFov := CalibFov l; Score := Score l |}.

Section Assign.

(** [lf_mlstr_dup (NULL)] hands out what [malloc (0)] returns, which the
    C library is free to choose: NULL, or a block of size 0.  The
    parameter is that pointer as the lens code reads a name. *)
Variable dup_null : option string.

(** [lf_mlstr_dup] on a name of the lens: the copy of a string has the
    same leading segment. *)
Definition dup_name (s : option string) : option string :=
  match s with
  | Some _ => s
  | None => dup_null
  end.

(** The copy constructor [lfLens::lfLens (other)], on the object [this]
    as it is handed to the constructor: the plain fields are copied,
    every list is set to NULL and built entry by entry through AddMount
    and AddCalib*, and [Score] is not assigned. *)
Definition lfLens_copy (this other : lfLens) : lfLens :=
  let l := set_Maker this (dup_name (Maker other)) in
  let l := set_Model l (dup_name (Model other)) in
  let l := set_ranges l (MinFocal other) (MaxFocal other)
                        (MinAperture other) (MaxAperture other) in
  let l := set_Mounts l None in
  let l := fold_left (fun l m => AddMount l (Some m)) (entries (Mounts other)) l in
  let l := set_geometry l (CenterX other) (CenterY other) (CropFactor other)
                          (AspectRatio other) (Type_ other) in
  let l := set_CalibDistortion l None in
  let l := fold_left AddCalibDistortion (entries (CalibDistortion other)) l in
  let l := set_CalibTCA l None in
  let l := fold_left AddCalibTCA (entries (CalibTCA other)) l in
  let l := set_CalibVignetting l None in
  let l := fold_left AddCalibVignetting (entries (CalibVignetting other)) l in
  let l := set_CalibCrop l None in
  let l := fold_left AddCalibCrop (entries (CalibCrop other)) l in
  let l := set_CalibFov l None in
  fold_left AddCalibFov (entries (CalibFov other)) l.

(** One statement of [operator =] that reads fields of [other] and
    writes fields of [this].  The lens objects of the program are in a
    heap, by address, and the statement takes the two from there as it
    finds them: they are one object when the addresses are equal. *)
Definition update (h : gmap nat lfLens) (this other : nat)
           (f : lfLens -> lfLens -> lfLens) : option (gmap nat lfLens) :=
  t ← h !! this;
  o ← h !! other;
  Some (<[this := f t o]> h).

(** [lf_free (name); name = lf_mlstr_dup (other.name);] for [name] one of
    Maker and Model.  When [other] is [this] and the name is not NULL,
    [lf_mlstr_dup] reads the block that [lf_free] has just released:
    [None]. *)
Definition dup_field (h : gmap nat lfLens) (this other : nat)
           (get : lfLens -> option string)
           (set : lfLens -> option string -> lfLens) : option (gmap nat lfLens) :=
  t ← h !! this;
  o ← h !! other;
  if bool_decide (this = other) && non_null (get t) then None
  else Some (<[this := set t (dup_name (get o))]> h).

(** [lfLens::operator = (other)] on the objects at the addresses [this]
    and [other].  [lf_free] on a list releases the array only. *)
Definition assign (h : gmap nat lfLens) (this other : nat) : option (gmap nat lfLens) :=
  h ← dup_field h this other Maker set_Maker;
  h ← dup_field h this other Model set_Model;
  h ← update h this other
        (fun t o => set_ranges t (MinFocal o) (MaxFocal o)
                                 (MinAperture o) (MaxAperture o));
  h ← update h this other (fun t _ => set_Mounts t None);
  h ← update h this other
        (fun t o => fold_left (fun l m => AddMount l (Some m)) (entries (Mounts o)) t);
  h ← update h this other
        (fun t o => set_geometry t (CenterX o) (CenterY o) (CropFactor o)
                                   (AspectRatio o) (Type_ o));
  h ← update h this other (fun t _ => set_CalibDistortion t None);
  h ← update h this other
        (fun t o => fold_left AddCalibDistortion (entries (CalibDistortion o)) t);
  h ← update h this other (fun t _ => set_CalibTCA t None);
  h ← update h this other
        (fun t o => fold_left AddCalibTCA (entries (CalibTCA o)) t);
  h ← update h this other (fun t _ => set_CalibVignetting t None);
  h ← update h this other
        (fun t o => fold_left AddCalibVignetting (entries (CalibVignetting o)) t);
  h ← update h this other (fun t _ => set_CalibCrop t None);
  h ← update h this other
        (fun t o => fold_left AddCalibCrop (entries (CalibCrop o)) t);
  h ← update h this other (fun t _ => set_CalibFov t None);
  update h this other
    (fun t o => fold_left AddCalibFov (entries (CalibFov o)) t).

(** What [operator =] leaves of a lens without names that is assigned to
    itself: no list. *)
Definition self_assigned (t : lfLens) : lfLens :=
  {| Maker := dup_null; Model := dup_null;
     MinFocal := MinFocal t; MaxFocal := MaxFocal t;
     MinAperture := MinAperture t; MaxAperture := MaxAperture t;
     Mounts := None;
     CenterX := CenterX t; CenterY := CenterY t; CropFactor := CropFactor t;
     AspectRatio := AspectRatio t; Type_ := Type_ t;
     CalibDistortion := None; CalibTCA := None; CalibVignetting := None;
     CalibCrop := None; CalibFov := None; Score := Score t |}.

End Assign.


(** A list rebuilt from NULL by one [_lf_addobj] per entry. *)
Definition rebuilt {T : Type} (cmpf : option (T -> T -> bool)) (xs : list T)
  : ptr_array T :=
  fold_left (fun a x => _lf_addobj a x cmpf) xs None.

(** ** lens.cpp: ordering of lenses by their parameters *)

(** The conversion [int (x)] of a [float]: the value with its fraction
    dropped; [None] where that value does not fit an [int], or [x] is an
    infinity or NaN, for which C++ leaves the conversion undefined. *)
Definition int_of_float (x : float) : option Z :=
  match x with
  | S754_zero _ => Some 0
  | S754_finite s m e =>
      let v := cond_Zopp s (Z.shiftl (Zpos m) e) in
      if (INT_MIN <=? v) && (v <=? INT_MAX) then Some v else None
  | _ => None
  end.

(** [_lf_lens_parameters_compare (i1, i2)]. *)
Definition _lf_lens_parameters_compare (i1 i2 : lfLens) : option Z :=
  cmp ← int_of_float ((MinFocal i1 - MinFocal i2) * float_of_int 100)%flt;
  if negb (cmp =? 0) then Some cmp
  else
    cmp ← int_of_float ((MaxFocal i1 - MaxFocal i2) * float_of_int 100)%flt;
    if negb (cmp =? 0) then Some cmp
    else int_of_float ((MinAperture i1 - MinAperture i2) * float_of_int 100)%flt.

(** ** auxfun.cpp: multi-language strings

    A multi-language string is one heap block: the default string, then
    pairs of language tag and translation, every string with its
    terminating NUL, and one more NUL at the end.  A block is the list of
    its bytes, a pointer into a block the bytes from that address to the
    end of the block.  A function returns [None] where the C code reads or
    writes outside the block or copies between overlapping regions with
    [memcpy]; allocation is taken to succeed. *)

Module MLstr.

Local Open Scope nat_scope.

Definition NUL : ascii := Ascii.zero.

Definition is_nul (c : ascii) : bool := Ascii.eqb c NUL.

#[export] Instance ascii_eq_dec : EqDecision ascii := Ascii.ascii_dec.

(** [strlen (p)]. *)
Fixpoint strlen (p : list ascii) : option nat :=
  match p with
  | [] => None
  | c :: p' => if is_nul c then Some 0 else S <$> strlen p'
  end.

(** The characters of the C string at [p]. *)
Definition c_str (p : list ascii) : option (list ascii) :=
  n ← strlen p; Some (take n p).

(** A [const char *] argument, given by its characters: what a C function
    sees of it ends before the first NUL. *)
Fixpoint until_nul (s : list ascii) : list ascii :=
  match s with
  | [] => []
  | c :: s' => if is_nul c then [] else c :: until_nul s'
  end.

(** [_lf_get_lang ()]. *)
Definition _lf_get_lang : list ascii := list_ascii_of_string "en".

(** The loop of [lf_mlstr_get]; every turn moves [cur] forward, so that
    the size of the block bounds the number of turns. *)
Fixpoint mlstr_get_loop (fuel : nat) (lang cur def : list ascii)
  : option (list ascii) :=
  match fuel with
  | O => None
  | S fuel =>
      c ← head cur;
      if is_nul c then Some def
      else
        n ← strlen cur;
        let next := drop (S n) cur in
        if bool_decide (take n cur = lang) then Some next
        else
          let def :=
            if bool_decide (take n cur = list_ascii_of_string "en") then next else def in
          c' ← head next;
          if is_nul c' then mlstr_get_loop fuel lang next def
          else
            n' ← strlen next;
            mlstr_get_loop fuel lang (drop (S n') next) def
  end.

(** [lf_mlstr_get (str)]: the pointer returned, NULL for the NULL
    string. *)
Definition lf_mlstr_get (str : option (list ascii)) : option (option (list ascii)) :=
  match str with
  | None => Some None
  | Some s =>
      n ← strlen s;
      p ← mlstr_get_loop (length s) _lf_get_lang (drop (S n) s) s;
      Some (Some p)
  end.

(** [while (str [str_len]) str_len += 1 + strlen (str + str_len)]. *)
Fixpoint mlstr_end (fuel : nat) (s : list ascii) (str_len : nat) : option nat :=
  match fuel with
  | O => None
  | S fuel =>
      c ← s !! str_len;
      if is_nul c then Some str_len
      else
        n ← strlen (drop str_len s);
        mlstr_end fuel s (str_len + (1 + n))
  end.

(** The length [lf_mlstr_add] computes, the closing NUL not counted; 0
    for the NULL string. *)
Definition mlstr_len (str : option (list ascii)) : option nat :=
  match str with
  | None => Some 0
  | Some s => n ← strlen s; mlstr_end (length s) s (n + 1)
  end.

(** [while (str [str_len]) str_len += 2 + strlen (str + str_len + 1)],
    the loop of [lf_mlstr_dup]. *)
Fixpoint mlstr_end_dup (fuel : nat) (s : list ascii) (str_len : nat) : option nat :=
  match fuel with
  | O => None
  | S fuel =>
      c ← s !! str_len;
      if is_nul c then Some str_len
      else
        n ← strlen (drop (str_len + 1) s);
        mlstr_end_dup fuel s (str_len + (2 + n))
  end.

(** [memcpy (s + dst, s + src, n)] inside one block.  Copying no byte does
    nothing. *)
Definition memcpy_within (s : list ascii) (dst src n : nat) : option (list ascii) :=
  if bool_decide (n = 0) then Some s
  else if bool_decide (dst + n <= length s /\ src + n <= length s /\
                       (dst + n <= src \/ src + n <= dst))
  then Some (take dst s ++ take n (drop src s) ++ drop (dst + n) s)
  else None.

(** [memcpy (s + dst, data, length data)] from another block. *)
Definition memcpy_from (s : list ascii) (dst : nat) (data : list ascii) : option (list ascii) :=
  if bool_decide (dst + length data <= length s)
  then Some (take dst s ++ data ++ drop (dst + length data) s)
  else None.

(** [s [i] = c]. *)
Definition store (s : list ascii) (i : nat) (c : ascii) : option (list ascii) :=
  if bool_decide (i < length s) then Some (<[i := c]> s) else None.

(** [realloc (str, size)]: the old bytes up to [size]; the bytes beyond
    them are indeterminate, and stand here as NUL. *)
Definition realloc (str : option (list ascii)) (size : nat) : list ascii :=
  resize size NUL (default [] str).

(** [lf_mlstr_add (str, lang, trstr)]. *)
Definition lf_mlstr_add (str : option (list ascii)) (lang trstr : option (list ascii))
  : option (option (list ascii)) :=
  match trstr with
  | None => Some str
  | Some trstr =>
      let trstr := until_nul trstr ++ [NUL] in
      let trstr_len := length trstr in
      str_len ← mlstr_len str;
      match lang with
      | None =>
          def_str_len ← match str with
                        | Some s => n ← strlen s; Some (n + 1)
                        | None => Some 0
                        end;
          s ← memcpy_within (default [] str) trstr_len def_str_len
                (str_len - def_str_len);
          let s := realloc (match str with Some _ => Some s | None => None end)
                     (str_len - def_str_len + trstr_len + 1) in
          s ← memcpy_from s 0 trstr;
          let str_len := str_len - def_str_len + trstr_len in
          s ← store s str_len NUL;
          Some (Some s)
      | Some lang =>
          let lang := until_nul lang ++ [NUL] in
          let lang_len := length lang in
          let s := realloc str (str_len + lang_len + trstr_len + 1) in
          s ← memcpy_from s str_len lang;
          s ← memcpy_from s (str_len + lang_len) trstr;
          s ← store s (str_len + lang_len + trstr_len) NUL;
          Some (Some s)
      end
  end.

Section Malloc.

(** What [malloc (0)] returns: NULL, or a block of no byte. *)
Variable malloc_0 : option (list ascii).

(** [lf_mlstr_dup (str)]. *)
Definition lf_mlstr_dup (str : option (list ascii)) : option (option (list ascii)) :=
  match str with
  | None => Some malloc_0
  | Some s =>
      n ← strlen s;
      str_len ← mlstr_end_dup (length s) s (n + 1);
      let str_len := str_len + 1 in
      if bool_decide (str_len <= length s) then Some (Some (take str_len s))
      else None
  end.

End Malloc.

(** The block that holds the default string [d] and the translations
    [trs]. *)
Definition pack_pairs (trs : list (list ascii * list ascii)) : list ascii :=
  flat_map (fun p => fst p ++ [NUL] ++ snd p ++ [NUL]) trs.

Definition pack (d : list ascii) (trs : list (list ascii * list ascii)) : list ascii :=
  d ++ [NUL] ++ pack_pairs trs ++ [NUL].

Definition nul_free (s : list ascii) : Prop := until_nul s = s.

(** Language tags and translations that the format can hold: not empty,
    and without NUL. *)
Definition well_formed (trs : list (list ascii * list ascii)) : Prop :=
  Forall (fun p => nul_free (fst p) /\ fst p <> [] /\
                   nul_free (snd p) /\ snd p <> []) trs.

(** The string [lf_mlstr_get] is to find: the first translation tagged
    with the language, else the default. *)
Definition translation (lang d : list ascii) (trs : list (list ascii * list ascii))
  : list ascii :=
  match find (fun p => bool_decide (fst p = lang)) trs with
  | Some p => snd p
  | None => d
  end.

End MLstr.

(** ** mount.cpp *)

(** [lfMount]: the multi-language name and the list of compatible
    mounts. *)
Record lfMount := {
  Name : option (list ascii);
  Compat : ptr_array (list ascii)
}.

(** [lfMount::lfMount ()]: [memset] to 0. *)
Definition lfMount_new : lfMount := {| Name := None; Compat := None |}.

(** [lfMount::SetName (val, lang)]. *)
Definition lfMount_SetName (m : lfMount) (val lang : option (list ascii))
  : option lfMount :=
  name ← MLstr.lf_mlstr_add (Name m) lang val;
  Some {| Name := name; Compat := Compat m |}.

(** [lfMount::Check ()]. *)
Definition lfMount_Check (m : lfMount) : bool := non_null (Name m).

(** ** Further notions used to state the properties *)

Section Nearest.
Context {T : Type}.
Variable focal_of : T -> float.
Variable focal : float.

(** [s] is a record of [fam] whose focal difference [focal - Focal] is
    below 0 and above the initial slot distance, and no record of [fam]
    with a difference below 0 has one above that of [s]: [s] is the
    nearest on its side. *)
Definition nearest_neg (fam : T -> Prop) (s : T) : Prop :=
  fam s /\ (focal - focal_of s < float_of_int 0)%flt = true /\
  (focal - focal_of s > SFopp FLT_MAX)%flt = true /\
  forall r : T, fam r -> (focal - focal_of r < float_of_int 0)%flt = true ->
                (focal - focal_of r > focal - focal_of s)%flt = false.

(** The same on the other side, that of the differences that are not
    below 0. *)
Definition nearest_pos (fam : T -> Prop) (s : T) : Prop :=
  fam s /\ (focal - focal_of s < float_of_int 0)%flt = false /\
  (focal - focal_of s < FLT_MAX)%flt = true /\
  forall r : T, fam r -> (focal - focal_of r < float_of_int 0)%flt = false ->
                (focal - focal_of r < focal - focal_of s)%flt = false.

(** No record of [fam] on a side is within the initial slot distance. *)
Definition none_neg (fam : T -> Prop) : Prop :=
  forall r : T, fam r -> (focal - focal_of r < float_of_int 0)%flt = true ->
                (focal - focal_of r > SFopp FLT_MAX)%flt = false.

Definition none_pos (fam : T -> Prop) : Prop :=
  forall r : T, fam r -> (focal - focal_of r < float_of_int 0)%flt = false ->
                (focal - focal_of r < FLT_MAX)%flt = false.

(** The state of the four slots once the records of [seen] have gone
    through [__insert_spline]. *)
Definition slots_inv (seen : T -> Prop) (spline : quad (option T))
           (spline_dist : quad float) : Prop :=
  (match q1 spline with
   | Some s => nearest_neg seen s /\
               q1 spline_dist = (focal - focal_of s)%flt
   | None => none_neg seen /\ q1 spline_dist = SFopp FLT_MAX
   end) /\
  (match q2 spline with
   | Some s => nearest_pos seen s /\
               q2 spline_dist = (focal - focal_of s)%flt
   | None => none_pos seen /\ q2 spline_dist = FLT_MAX
   end) /\
  (forall s : T, q0 spline = Some s -> seen s) /\
  (forall s : T, q3 spline = Some s -> seen s).

End Nearest.

Section RunnerUp.
Context {T : Type}.
Variable focal_of : T -> float.
Variable focal : float.

(** What slot 0 holds next to the nearest record [s1] of the side below
    0.  A record [s0] there is of [fam], lies on that side within the
    initial slot distance, is not nearer than [s1], and is next in line:
    any record of [fam] on that side that is nearer than [s0] is [s1]
    itself.  The slot is empty only when [s1] is the one record of [fam]
    within reach on that side. *)
Definition runner_up_neg (fam : T -> Prop) (s1 : T) (slot0 : option T) : Prop :=
  match slot0 with
  | Some s0 =>
      fam s0 /\ (focal - focal_of s0 < float_of_int 0)%flt = true /\
      (focal - focal_of s0 > SFopp FLT_MAX)%flt = true /\
      (focal - focal_of s0 > focal - focal_of s1)%flt = false /\
      forall r : T, fam r -> (focal - focal_of r < float_of_int 0)%flt = true ->
                    (focal - focal_of r > focal - focal_of s0)%flt = true -> r = s1
  | None =>
      forall r : T, fam r -> (focal - focal_of r < float_of_int 0)%flt = true ->
                    (focal - focal_of r > SFopp FLT_MAX)%flt = true -> r = s1
  end.

(** The same for slot 3, next to the nearest record [s2] of the other
    side. *)
Definition runner_up_pos (fam : T -> Prop) (s2 : T) (slot3 : option T) : Prop :=
  match slot3 with
  | Some s3 =>
      fam s3 /\ (focal - focal_of s3 < float_of_int 0)%flt = false /\
      (focal - focal_of s3 < FLT_MAX)%flt = true /\
      (focal - focal_of s3 < focal - focal_of s2)%flt = false /\
      forall r : T, fam r -> (focal - focal_of r < float_of_int 0)%flt = false ->
                    (focal - focal_of r < focal - focal_of s3)%flt = true -> r = s2
  | None =>
      forall r : T, fam r -> (focal - focal_of r < float_of_int 0)%flt = false ->
                    (focal - focal_of r < FLT_MAX)%flt = true -> r = s2
  end.

(** The state of the two outer slots once the records of [seen] have gone
    through [__insert_spline]. *)
Definition outer_inv (seen : T -> Prop) (spline : quad (option T))
           (spline_dist : quad float) : Prop :=
  (match q1 spline with
   | Some s1 => runner_up_neg seen s1 (q0 spline)
   | None => q0 spline = None
   end) /\
  q0 spline_dist
  = slot_or (q0 spline) (fun s => (focal - focal_of s)%flt) (SFopp FLT_MAX) /\
  (match q2 spline with
   | Some s2 => runner_up_pos seen s2 (q3 spline)
   | None => q3 spline = None
   end) /\
  q3 spline_dist
  = slot_or (q3 spline) (fun s => (focal - focal_of s)%flt) FLT_MAX.

End RunnerUp.


(** The records of [calib] a spline scan that has latched [m] goes
    through. *)
Definition in_family {T M : Type} (model_of : T -> M) (model_int : M -> Z)
           (m : M) (calib : list T) (c : T) : Prop :=
  c ∈ calib /\ is_none model_int (model_of c) = false /\
  same_model model_int m (model_of c) = true.

(** A record the scans can use for the query: its focal difference
    compares equal to 0, or lies strictly within the initial slot
    distances. *)
Definition reachable (focal sample_focal : float) : bool :=
  exact_focal focal sample_focal ||
  (if (focal - sample_focal < float_of_int 0)%flt
   then (focal - sample_focal > SFopp FLT_MAX)%flt
   else (focal - sample_focal < FLT_MAX)%flt).

(** What a spline interpolator hands out when it returns true: a record
    of [fam] that matches the query exactly; the nearest record, when all
    records within reach lie on one side; or the record [interpolated]
    computes from the nearest record of each side, [s1] and [s2], and
    from what stands next to them in the outer slots, [s0] and [s3]. *)
Definition spline_outcome {T : Type} (focal_of : T -> float) (focal : float)
           (fam : T -> Prop) (out : T)
           (interpolated : option T -> T -> T -> option T -> T) : Prop :=
  (fam out /\ exact_focal focal (focal_of out) = true) \/
  (nearest_neg focal_of focal fam out /\ none_pos focal_of focal fam) \/
  (nearest_pos focal_of focal fam out /\ none_neg focal_of focal fam) \/
  (exists (s0 : option T) (s1 s2 : T) (s3 : option T),
      nearest_neg focal_of focal fam s1 /\ nearest_pos focal_of focal fam s2 /\
      runner_up_neg focal_of focal fam s1 s0 /\
      runner_up_pos focal_of focal fam s2 s3 /\
      out = interpolated s0 s1 s2 s3).

(** The parameter of the Hermite step: where the query lies between the
    focal lengths of [s1] and [s2]. *)
Definition spline_t {T : Type} (focal_of : T -> float) (focal : float) (s1 s2 : T)
  : float :=
  ((focal - focal_of s1) / (focal_of s2 - focal_of s1))%flt.

(** The records InterpolateFov goes through: those with a field of view
    that does not compare equal to 0. *)
Definition in_fov (calib : list lfLensCalibFov) (c : lfLensCalibFov) : Prop :=
  c ∈ calib /\ (f_FieldOfView c == float_of_int 0)%flt = false.

(** The focal axis of [__vignetting_dist]: the offset from MinFocal,
    divided by the focal range of the lens when that is not 0. *)
Definition focal_axis (l : lfLens) (focal : float) : float :=
  if fneb (MaxFocal l - MinFocal l)%flt (float_of_int 0)
  then ((focal - MinFocal l) / (MaxFocal l - MinFocal l))%flt
  else (focal - MinFocal l)%flt.

(** [lo'] is [lo] or lies below it: how a lower bound moves through
    successive [widen] steps. *)
Definition lowered (lo' lo : float) : Prop := lo' = lo \/ fltb lo' lo = true.

(** ** Sample data *)

Module Sample.

(** A regex engine that matches nothing and an [atof] that reads 0: the
    lenses below have their ranges filled, so that GuessParameters does
    not consult either. *)
Definition regexec_nomatch : string -> string -> option (list (Z * Z)) :=
  fun _ _ => None.
Definition atof_zero : string -> double := fun _ => d_zero.

Definition f (n : Z) : float := float_of_int n.
Definition f2_8 : float := float_lit 28 10.

Definition lens (minf maxf : float)
           (cd : ptr_array lfLensCalibDistortion)
           (cv : ptr_array lfLensCalibVignetting) : lfLens :=
  {| Maker := Some "Maker"%string; Model := Some "Zoom"%string;
     MinFocal := minf; MaxFocal := maxf;
     MinAperture := f2_8; MaxAperture := f 22;
     Mounts := Some ["M42"%string];
     CenterX := fzero; CenterY := fzero; CropFactor := fone; AspectRatio := f 1;
     Type_ := LF_RECTILINEAR;
     CalibDistortion := cd; CalibTCA := None; CalibVignetting := cv;
     CalibCrop := None; CalibFov := None; Score := 0 |}.

Definition dist (m : lfDistortionModel) (focal : Z) (k1 : float) : lfLensCalibDistortion :=
  {| d_Model := m; d_Focal := f focal; d_RealFocal := f focal;
     d_RealFocalMeasured := false;
     d_Terms := [k1; fzero; fzero; fzero; fzero] |}.

Definition dist_res : lfLensCalibDistortion :=
  {| d_Model := LF_DIST_MODEL_NONE; d_Focal := fzero; d_RealFocal := fzero;
     d_RealFocalMeasured := false;
     d_Terms := [fzero; fzero; fzero; fzero; fzero] |}.

Definition vig (m : lfVignettingModel) (focal : float) (aperture : float)
           (distance : float) : lfLensCalibVignetting :=
  {| v_Model := m; v_Focal := focal; v_Aperture := aperture;
     v_Distance := distance;
     v_Terms := [float_lit (-3) 10; float_lit 1 10; float_lit (-1) 100] |}.

Definition vig_res : lfLensCalibVignetting :=
  {| v_Model := LF_VIGNETTING_MODEL_NONE; v_Focal := fzero; v_Aperture := fzero;
     v_Distance := fzero; v_Terms := [fzero; fzero; fzero] |}.

(** Scenario: POLY5 at 24 mm (k1 = 0.05) and at 70 mm (k1 = -0.02). *)
Definition poly5_24 := dist LF_DIST_MODEL_POLY5 24 (float_lit 5 100).
Definition poly5_70 := dist LF_DIST_MODEL_POLY5 70 (float_lit (-2) 100).
Definition lens_poly5 := lens (f 24) (f 70) (Some [poly5_24; poly5_70]) None.

(** What the interpolation at 47 mm yields. *)
Definition poly5_47 : lfLensCalibDistortion :=
  {| d_Model := LF_DIST_MODEL_POLY5; d_Focal := f 47; d_RealFocal := f 47;
     d_RealFocalMeasured := false;
     d_Terms := [S754_finite true 9138225 (-32); fzero; fzero; fzero; fzero] |}.

(** Two distortion records of different model families. *)
Definition poly3_24 := dist LF_DIST_MODEL_POLY3 24 (float_lit 1 100).
Definition ptlens_50 := dist LF_DIST_MODEL_PTLENS 50 (float_lit 2 100).
Definition lens_mixed := lens (f 24) (f 50) (Some [poly3_24; ptlens_50]) None.

(** Vignetting samples, all at f/2.8 and 1 m. *)
Definition pa_24 := vig LF_VIGNETTING_MODEL_PA (f 24) f2_8 (f 1).
Definition pa_37 := vig LF_VIGNETTING_MODEL_PA (f 37) f2_8 (f 1).
Definition pa_50 := vig LF_VIGNETTING_MODEL_PA (f 50) f2_8 (f 1).
Definition pa_nan := vig LF_VIGNETTING_MODEL_PA NAN f2_8 (f 1).
Definition acm_50 := vig LF_VIGNETTING_MODEL_ACM (f 50) f2_8 (f 1).
Definition none_50 := vig LF_VIGNETTING_MODEL_NONE (f 50) f2_8 (f 1).

(** A 24-50 mm zoom with the vignetting list [cv]. *)
Definition lens_vig (cv : list lfLensCalibVignetting) : lfLens :=
  lens (f 24) (f 50) None (Some cv).

(** A prime lens: MinFocal = MaxFocal = 50. *)
Definition lens_prime : lfLens := lens (f 50) (f 50) None (Some [pa_50]).

End Sample.

(** ** Further sample data *)

Module Fixture.

Definition ascii_of (s : string) : list ascii := list_ascii_of_string s.

(** TCA, crop and field-of-view samples at 24 mm and 70 mm. *)
Definition tca (focal : Z) (k : float) : lfLensCalibTCA :=
  {| t_Model := LF_TCA_MODEL_LINEAR; t_Focal := Sample.f focal;
     t_Terms := [k; k; fzero; fzero; fzero; fzero; fzero; fzero; fzero; fzero; fzero;
                 fzero] |}.

Definition tca_res : lfLensCalibTCA :=
  {| t_Model := LF_TCA_MODEL_NONE; t_Focal := fzero; t_Terms := [] |}.

Definition crop (focal : Z) (right : float) : lfLensCalibCrop :=
  {| c_Focal := Sample.f focal; c_CropMode := LF_CROP_RECTANGLE;
     c_Crop := [fzero; right; fzero; fone] |}.

Definition crop_res : lfLensCalibCrop :=
  {| c_Focal := fzero; c_CropMode := LF_NO_CROP; c_Crop := [] |}.

Definition fov (focal fieldofview : Z) : lfLensCalibFov :=
  {| f_Focal := Sample.f focal; f_FieldOfView := Sample.f fieldofview |}.

Definition fov_res : lfLensCalibFov := {| f_Focal := fzero; f_FieldOfView := fzero |}.

(** A 24-70 mm zoom with two samples in every spline list. *)
Definition lens_zoom : lfLens :=
  set_CalibFov
    (set_CalibCrop
       (set_CalibTCA Sample.lens_poly5
          (Some [tca 24 (float_lit 10001 10000); tca 70 (float_lit 9999 10000)]))
       (Some [crop 24 (float_lit 9 10); crop 70 fone]))
    (Some [fov 24 84; fov 70 34]).

(** The same lens with one sample in every spline list. *)
Definition lens_single : lfLens :=
  set_CalibFov
    (set_CalibCrop
       (set_CalibTCA
          (set_CalibDistortion Sample.lens_poly5 (Some [Sample.poly5_24]))
          (Some [tca 24 (float_lit 10001 10000)]))
       (Some [crop 24 (float_lit 9 10)]))
    (Some [fov 24 84]).

(** A name with a German translation, and one with an English one. *)
Definition name_de : list ascii :=
  MLstr.pack (ascii_of "Standard") [(ascii_of "de", ascii_of "Normal")].

Definition name_en : list ascii :=
  MLstr.pack (ascii_of "Standard")
    [(ascii_of "de", ascii_of "Normal"); (ascii_of "en", ascii_of "Regular")].

(** What the interpolators compute for [lens_zoom] at 47 mm, halfway
    between the two samples: TCA factors 1, a right crop edge of 0.95, a
    field of view of 59. *)
Definition tca_47 : lfLensCalibTCA :=
  {| t_Model := LF_TCA_MODEL_LINEAR; t_Focal := Sample.f 47;
     t_Terms := [fone; fone; fzero; fzero; fzero; fzero; fzero; fzero; fzero; fzero;
                 fzero; fzero] |}.

Definition crop_47 : lfLensCalibCrop :=
  {| c_Focal := Sample.f 47; c_CropMode := LF_CROP_RECTANGLE;
     c_Crop := [fzero; S754_finite false 15938355 (-24); fzero; fone] |}.

(** Four field-of-view samples, two on each side of 47 mm, and what
    InterpolateFov computes from them there: about 52.9. *)
Definition fov_four : list lfLensCalibFov :=
  [fov 24 84; fov 35 63; fov 70 34; fov 100 24].

Definition lens_fov_four : lfLens := set_CalibFov lens_zoom (Some fov_four).

Definition fov_four_47 : lfLensCalibFov :=
  {| f_Focal := Sample.f 47; f_FieldOfView := S754_finite false 13871487 (-18) |}.

(** Two lens objects: a fresh one at address 0, the POLY5 zoom at
    address 1. *)
Definition two_lenses : gmap nat lfLens :=
  <[0%nat := lfLens_new]> (<[1%nat := Sample.lens_poly5]> ∅).

(** A lens that has its name to go by: the ranges are empty. *)
Definition lens_named (name : string) (cd : ptr_array lfLensCalibDistortion) : lfLens :=
  {| Maker := Some "Maker"%string; Model := Some name;
     MinFocal := fzero; MaxFocal := fzero;
     MinAperture := fzero; MaxAperture := fzero;
     Mounts := Some ["M42"%string];
     CenterX := fzero; CenterY := fzero; CropFactor := fone;
     AspectRatio := Sample.f 1; Type_ := LF_RECTILINEAR;
     CalibDistortion := cd; CalibTCA := None; CalibVignetting := None;
     CalibCrop := None; CalibFov := None; Score := 0 |}.

Definition name_24_70 : string := "24-70mm f/4".

(** A name that opens with 120 digits. *)
Fixpoint ones (n : nat) : string :=
  match n with
  | O => EmptyString
  | S n' => String "1" (ones n')
  end.

Definition name_long : string := (ones 120 ++ "mm f/4")%string.

(** What [regexec] answers on the two names: the first pattern of
    [lens_name_regex] matches, with the groups 2, 3 and 6 where they
    stand in the name; the pattern of the extenders does not match. *)
Definition regexec_24_70 : string -> string -> option (list (Z * Z)) :=
  fun regex model =>
    if String.eqb regex (fst (nth 0 lens_name_regex (EmptyString, (0, 0, 0))))
       && String.eqb model name_24_70
    then Some [(0, 11); (0, 0); (0, 2); (2, 5); (5, 7); (8, 10); (10, 11);
               (-1, -1); (-1, -1); (-1, -1)]
    else None.

Definition regexec_long : string -> string -> option (list (Z * Z)) :=
  fun regex model =>
    if String.eqb regex (fst (nth 0 lens_name_regex (EmptyString, (0, 0, 0))))
       && String.eqb model name_long
    then Some [(0, 126); (0, 0); (0, 120); (-1, -1); (120, 122); (123, 125);
               (125, 126); (-1, -1); (-1, -1); (-1, -1)]
    else None.

(** [atof] on a string of digits: enough for the names above, whose
    numbers are whole. *)
Fixpoint whole (s : string) (acc : Z) : Z :=
  match s with
  | EmptyString => acc
  | String c s' =>
      let d := Z.of_N (N_of_ascii c) - 48 in
      if (0 <=? d) && (d <=? 9) then whole s' (10 * acc + d) else acc
  end.

Definition atof_whole : string -> double := fun s => double_of_int (whole s 0).

(** Two lenses whose MinFocal differs by 0.5 mm. *)
Definition lens_24 : lfLens := Sample.lens (Sample.f 24) (Sample.f 70) None None.
Definition lens_24_5 : lfLens :=
  Sample.lens (float_lit 49 2) (Sample.f 70) None None.

End Fixture.

(** * Properties *)

(** ** Facts about the comparison and the subtraction of floats *)

Lemma SFcompare_Eq_inv (x y : spec_float) :
  SFcompare x y = Some Eq ->
  (exists s s', x = S754_zero s /\ y = S754_zero s') \/ (x = y /\ x <> S754_nan).
Proof.
  destruct x as [sx|sx| |sx mx ex], y as [sy|sy| |sy my ey]; simpl;
    try discriminate;
    try (destruct sx; discriminate); try (destruct sy; discriminate).
  - intros _. left. eauto.
  - destruct sx, sy; try discriminate; intros _; right; split; congruence.
  - intros H. right.
    assert (sx = sy /\ ex = ey /\ mx = my) as (-> & -> & ->).
    { destruct sx, sy; try discriminate;
        destruct (Z.compare_spec ex ey) as [->| |]; try discriminate;
        destruct (Pos.compare_cont Eq mx my) eqn:Hm; try discriminate;
        apply Pos.compare_eq in Hm; subst; auto. }
    split; congruence.
Qed.

Lemma SFcompare_refl (x : spec_float) : x <> S754_nan -> SFcompare x x = Some Eq.
Proof.
  destruct x as [s|s| |s m e]; simpl; try congruence.
  - destruct s; reflexivity.
  - intros _. destruct s; rewrite Z.compare_refl, Pos.compare_cont_refl; reflexivity.
Qed.

Lemma feqb_true_iff (x y : spec_float) :
  feqb x y = true <->
  (exists s s', x = S754_zero s /\ y = S754_zero s') \/ (x = y /\ x <> S754_nan).
Proof.
  unfold feqb, SFeqb. split.
  - destruct (SFcompare x y) as [[| |]|] eqn:H; try discriminate.
    intros _. by apply SFcompare_Eq_inv.
  - intros [(s & s' & -> & ->)|[-> Hn]]; [reflexivity|].
    by rewrite SFcompare_refl.
Qed.

Lemma feqb_sym (x y : spec_float) : feqb x y = true -> feqb y x = true.
Proof.
  rewrite !feqb_true_iff. intros [(s & s' & -> & ->)|[-> Hn]]; [left|right]; eauto.
Qed.

Lemma feqb_trans (x y z : spec_float) :
  feqb x y = true -> feqb y z = true -> feqb x z = true.
Proof.
  rewrite !feqb_true_iff.
  intros [(s & s' & Hx & Hy)|[Hxy Hn]] [(t & t' & Hy' & Hz)|[Hyz Hn']]; subst;
    first [ left; eauto; fail | right; split; congruence ].
Qed.

Lemma feqb_sym_false (x y : spec_float) : feqb x y = false -> feqb y x = false.
Proof.
  intros H. destruct (feqb y x) eqn:E; [|done].
  apply feqb_sym in E. congruence.
Qed.

(** [x - x] is a zero as soon as [x] is finite. *)
Lemma fsub_diag (x : float) : is_finite x = true -> exists s, (x - x)%flt = S754_zero s.
Proof.
  destruct x as [s|s| |s m e]; simpl; try discriminate; intros _.
  - destruct s; eauto.
  - unfold fsub. simpl. rewrite Z.sub_diag. simpl. eauto.
Qed.

Lemma exact_focal_same (x : float) : is_finite x = true -> exact_focal x x = true.
Proof.
  intros H. unfold exact_focal. destruct (fsub_diag x H) as [s ->]. reflexivity.
Qed.

(** ** The pointer-array helpers *)

Section PtrArrayFacts.
Context {T : Type}.
Implicit Types (l : list T) (var : ptr_array T).

Lemma _lf_delobj_removed_at var (idx : Z) :
  removed_at var (snd (_lf_delobj var idx)) idx (fst (_lf_delobj var idx)).
Proof.
  unfold removed_at, _lf_delobj. destruct var as [l|]; simpl.
  - destruct (idx <? 0) eqn:Hneg; simpl.
    { apply Z.ltb_lt in Hneg. repeat split; try done; lia. }
    apply Z.ltb_ge in Hneg.
    destruct (Z.of_nat (length l) <=? idx) eqn:Hlen; simpl.
    { apply Z.leb_le in Hlen. repeat split; try done; lia. }
    apply Z.leb_gt in Hlen. repeat split; try done; try lia.
    + rewrite length_delete; [lia|]. apply lookup_lt_is_Some. lia.
    + intros j. destruct (Z.of_nat j <? idx) eqn:Hj.
      * apply Z.ltb_lt in Hj. apply list_lookup_delete_lt. lia.
      * apply Z.ltb_ge in Hj. apply list_lookup_delete_ge. lia.
  - repeat split; try done; lia.
Qed.

Variable cmp : T -> T -> bool.

Lemma first_match_Some val l (k n : nat) :
  first_match cmp val l k = Some n ->
  exists (i : nat) (old : T),
    n = (k + i)%nat /\ l !! i = Some old /\ cmp val old = true /\
    forall (m : nat) (x : T), (m < i)%nat -> l !! m = Some x -> cmp val x = false.
Proof.
  revert k. induction l as [|a l IH]; intros k; simpl; [done|].
  destruct (cmp val a) eqn:Ha.
  - intros [= <-]. exists 0%nat, a. repeat split; auto with lia.
  - intros H. destruct (IH _ H) as (i & old & -> & Hi & Hc & Hfirst).
    exists (S i), old. repeat split; auto with lia.
    intros [|m] x Hm Hx; simpl in Hx.
    + congruence.
    + apply (Hfirst m); [lia|done].
Qed.

Lemma first_match_None val l (k : nat) :
  first_match cmp val l k = None -> forall x : T, x ∈ l -> cmp val x = false.
Proof.
  revert k. induction l as [|a l IH]; intros k; simpl.
  - intros _ x Hx. by apply elem_of_nil in Hx.
  - destruct (cmp val a) eqn:Ha; [done|].
    intros H x [->|Hx]%elem_of_cons; eauto.
Qed.

Lemma _lf_addobj_outcome var (val : T) :
  replaced_or_appended cmp (entries var)
    (entries (_lf_addobj var val (Some cmp))) val.
Proof.
  unfold replaced_or_appended, _lf_addobj. destruct var as [l|]; simpl.
  - destruct (first_match cmp val l 0) as [n|] eqn:Hscan; simpl.
    + left. destruct (first_match_Some _ _ _ _ Hscan) as (i & old & -> & Hi & Hc & Hfirst).
      exists i, old. simpl. repeat split; auto. apply length_insert.
    + right. split; [|done]. by eapply first_match_None.
  - right. split; [|done]. intros x Hx. by apply elem_of_nil in Hx.
Qed.

(** The comparators are partial equivalences ([==] on floats is not
    reflexive on NaN). *)
Hypothesis cmp_sym : forall x y : T, cmp x y = true -> cmp y x = true.
Hypothesis cmp_trans : forall x y z : T, cmp x y = true -> cmp y z = true -> cmp x z = true.

Lemma cmp_false_sym (x y : T) : cmp x y = false -> cmp y x = false.
Proof.
  intros H. destruct (cmp y x) eqn:E; [|done]. apply cmp_sym in E. congruence.
Qed.

Lemma keys_distinct_replace l (n : nat) (old val : T) :
  keys_distinct cmp l -> l !! n = Some old -> cmp val old = true ->
  keys_distinct cmp (<[n := val]> l).
Proof.
  intros Hd Hn Hc i j x y Hij Hi Hj.
  apply list_lookup_insert_Some in Hi as [(<- & <- & Hlen)|[Hni Hi]];
    apply list_lookup_insert_Some in Hj as [(<- & <- & Hlen')|[Hnj Hj]].
  - done.
  - destruct (cmp val y) eqn:E; [|done].
    rewrite <- (Hd n j old y); [|done..].
    symmetry. eapply cmp_trans; [apply cmp_sym|]; eauto.
  - destruct (cmp x val) eqn:E; [|done].
    rewrite <- (Hd i n x old); [|done..].
    symmetry. eapply cmp_trans; eauto.
  - exact (Hd i j x y Hij Hi Hj).
Qed.

Lemma keys_distinct_snoc l (val : T) :
  keys_distinct cmp l -> (forall x : T, x ∈ l -> cmp val x = false) ->
  keys_distinct cmp (l ++ [val]).
Proof.
  intros Hd Hnew i j x y Hij Hi Hj.
  apply lookup_snoc_Some in Hi as [[Hli Hi]|[-> ->]];
    apply lookup_snoc_Some in Hj as [[Hlj Hj]|[-> ->]].
  - exact (Hd i j x y Hij Hi Hj).
  - apply cmp_false_sym, Hnew. by eapply list_elem_of_lookup_2.
  - apply Hnew. by eapply list_elem_of_lookup_2.
  - done.
Qed.

Lemma _lf_addobj_keys_distinct var (val : T) :
  keys_distinct cmp (entries var) ->
  keys_distinct cmp (entries (_lf_addobj var val (Some cmp))).
Proof.
  intros Hd.
  destruct (_lf_addobj_outcome var val)
    as [(n & old & Hn & Hc & _ & -> & _)|[Hnew ->]].
  - by eapply keys_distinct_replace.
  - by apply keys_distinct_snoc.
Qed.

End PtrArrayFacts.

Lemma cmp_vignetting_true (x y : lfLensCalibVignetting) :
  cmp_vignetting x y = true <->
  feqb (v_Focal x) (v_Focal y) = true /\
  feqb (v_Distance x) (v_Distance y) = true /\
  feqb (v_Aperture x) (v_Aperture y) = true.
Proof. unfold cmp_vignetting. rewrite !andb_true_iff. tauto. Qed.

Lemma cmp_vignetting_sym (x y : lfLensCalibVignetting) :
  cmp_vignetting x y = true -> cmp_vignetting y x = true.
Proof. rewrite !cmp_vignetting_true. intros (? & ? & ?). auto using feqb_sym. Qed.

Lemma cmp_vignetting_trans (x y z : lfLensCalibVignetting) :
  cmp_vignetting x y = true -> cmp_vignetting y z = true -> cmp_vignetting x z = true.
Proof.
  rewrite !cmp_vignetting_true. intros (? & ? & ?) (? & ? & ?).
  repeat split; eapply feqb_trans; eassumption.
Qed.

Lemma set_CalibDistortion_same (l : lfLens) : set_CalibDistortion l (CalibDistortion l) = l.
Proof. by destruct l. Qed.
Lemma set_CalibTCA_same (l : lfLens) : set_CalibTCA l (CalibTCA l) = l.
Proof. by destruct l. Qed.
Lemma set_CalibVignetting_same (l : lfLens) : set_CalibVignetting l (CalibVignetting l) = l.
Proof. by destruct l. Qed.
Lemma set_CalibCrop_same (l : lfLens) : set_CalibCrop l (CalibCrop l) = l.
Proof. by destruct l. Qed.
Lemma set_CalibFov_same (l : lfLens) : set_CalibFov l (CalibFov l) = l.
Proof. by destruct l. Qed.

(** ** Calibration list maintenance *)

Ltac remove_calib same :=
  match goal with
  | |- context [_lf_delobj ?a ?idx] =>
      let H := fresh "H" in
      pose proof (_lf_delobj_removed_at a idx) as H;
      destruct (_lf_delobj a idx) as [r a']; simpl in *;
      split; [exact H|];
      intros ->; destruct H as (_ & _ & H); rewrite (H eq_refl); apply same
  end.

(** C10. RemoveCalibDistortion, RemoveCalibTCA, RemoveCalibVignetting,
    RemoveCalibCrop and RemoveCalibFov return true exactly when
    [0 <= idx < n], [n] the number of entries of the list concerned; on
    true the list is one entry shorter, the entries before [idx] keep their
    position and every later entry moves down by one; on false the lens is
    unchanged. *)
Theorem RemoveCalib_removes_entry_at_idx (l : lfLens) (idx : Z) :
  (removed_at (CalibDistortion l)
     (CalibDistortion (snd (RemoveCalibDistortion l idx))) idx
     (fst (RemoveCalibDistortion l idx)) /\
   (fst (RemoveCalibDistortion l idx) = false -> snd (RemoveCalibDistortion l idx) = l)) /\
  (removed_at (CalibTCA l)
     (CalibTCA (snd (RemoveCalibTCA l idx))) idx
     (fst (RemoveCalibTCA l idx)) /\
   (fst (RemoveCalibTCA l idx) = false -> snd (RemoveCalibTCA l idx) = l)) /\
  (removed_at (CalibVignetting l)
     (CalibVignetting (snd (RemoveCalibVignetting l idx))) idx
     (fst (RemoveCalibVignetting l idx)) /\
   (fst (RemoveCalibVignetting l idx) = false -> snd (RemoveCalibVignetting l idx) = l)) /\
  (removed_at (CalibCrop l)
     (CalibCrop (snd (RemoveCalibCrop l idx))) idx
     (fst (RemoveCalibCrop l idx)) /\
   (fst (RemoveCalibCrop l idx) = false -> snd (RemoveCalibCrop l idx) = l)) /\
  (removed_at (CalibFov l)
     (CalibFov (snd (RemoveCalibFov l idx))) idx
     (fst (RemoveCalibFov l idx)) /\
   (fst (RemoveCalibFov l idx) = false -> snd (RemoveCalibFov l idx) = l)).
Proof.
  unfold RemoveCalibDistortion, RemoveCalibTCA, RemoveCalibVignetting,
    RemoveCalibCrop, RemoveCalibFov.
  split; [remove_calib set_CalibDistortion_same|].
  split; [remove_calib set_CalibTCA_same|].
  split; [remove_calib set_CalibVignetting_same|].
  split; [remove_calib set_CalibCrop_same|].
  remove_calib set_CalibFov_same.
Qed.


Lemma keys_distinct_nil {T : Type} (cmp : T -> T -> bool) : keys_distinct cmp [].
Proof. intros i j x y _ Hi. by rewrite lookup_nil in Hi. Qed.

Lemma lens_poly5_keys_distinct : lens_keys_distinct Sample.lens_poly5.
Proof.
  unfold lens_keys_distinct; simpl. repeat split; try apply keys_distinct_nil.
  intros [|[|i]] [|[|j]] x y Hij Hi Hj; simplify_eq/=; reflexivity.
Qed.


Example AddCalibDistortion_same_focal :
  CalibDistortion
    (AddCalibDistortion Sample.lens_poly5 (Sample.dist LF_DIST_MODEL_POLY5 24 fzero))
  = Some [Sample.dist LF_DIST_MODEL_POLY5 24 fzero; Sample.poly5_70].
Proof. reflexivity. Qed.

Example RemoveCalibDistortion_first :
  RemoveCalibDistortion Sample.lens_poly5 0
  = (true, Sample.lens (Sample.f 24) (Sample.f 70) (Some [Sample.poly5_70]) None) /\
  fst (RemoveCalibDistortion Sample.lens_poly5 2) = false /\
  fst (RemoveCalibDistortion Sample.lens_poly5 (-1)) = false.
Proof. repeat split. Qed.

(** The lists of a fresh lens are NULL, and a removal keeps the keys
    distinct as an insertion does. *)
Lemma lfLens_new_keys_distinct : lens_keys_distinct lfLens_new.
Proof. repeat split; apply keys_distinct_nil. Qed.

Lemma keys_distinct_delete {T : Type} (cmp : T -> T -> bool) (l : list T) (n : nat) :
  keys_distinct cmp l -> keys_distinct cmp (delete n l).
Proof.
  intros Hd i j x y Hij Hi Hj.
  rewrite list_lookup_delete in Hi, Hj.
  destruct (decide (i < n)%nat), (decide (j < n)%nat).
  - exact (Hd i j x y Hij Hi Hj).
  - apply (Hd i (S j) x y); [lia|done..].
  - apply (Hd (S i) j x y); [lia|done..].
  - apply (Hd (S i) (S j) x y); [lia|done..].
Qed.

Lemma _lf_delobj_keys_distinct {T : Type} (cmp : T -> T -> bool)
      (var : ptr_array T) (idx : Z) :
  keys_distinct cmp (entries var) ->
  keys_distinct cmp (entries (snd (_lf_delobj var idx))).
Proof.
  unfold _lf_delobj. destruct var as [l|]; simpl; [|done].
  destruct (_ || _); simpl; [done|]. apply keys_distinct_delete.
Qed.

(** ** Parameter-axis scaling *)

Lemma scale_prefix_all (f : float -> float) (values : list float) :
  scale_prefix (Z.of_nat (length values)) f values = map f values.
Proof.
  unfold scale_prefix. rewrite Nat2Z.id, firstn_all, drop_all. apply app_nil_r.
Qed.

(** C6. The scale factor of term [i] at focal length [f] is [f] for the
    POLY3, POLY5 and PTLENS distortion models; [f / pow (f, 2 (i + 1))]
    for ACM distortion when [i < 3] and [f / pow (f, 1)] otherwise; 1 for
    LINEAR and POLY3 TCA at index 0 or 1; [f / pow (f, 2 * floor (i / 2))]
    for ACM TCA when [1 < i < 8] and [f / pow (f, 1)] otherwise; 1 for PA
    vignetting; and [1 / pow (f, 2 (i + 1))] for ACM vignetting. *)
Theorem parameter_scales_table (pow : float -> float -> float) (i : Z) :
  (forall m, m = LF_DIST_MODEL_POLY3 \/ m = LF_DIST_MODEL_POLY5 \/ m = LF_DIST_MODEL_PTLENS ->
             scales_by pow LF_MODIFY_DISTORTION (int_of_dist m) i (fun f => f)) /\
  (i < 3 ->
   scales_by pow LF_MODIFY_DISTORTION (int_of_dist LF_DIST_MODEL_ACM) i
     (fun f => (f / pow f (float_of_int (2 * (i + 1))))%flt)) /\
  (3 <= i ->
   scales_by pow LF_MODIFY_DISTORTION (int_of_dist LF_DIST_MODEL_ACM) i
     (fun f => (f / pow f (float_of_int 1))%flt)) /\
  (forall m, m = LF_TCA_MODEL_LINEAR \/ m = LF_TCA_MODEL_POLY3 ->
             i = 0 \/ i = 1 ->
             scales_by pow LF_MODIFY_TCA (int_of_tca m) i (fun _ => float_of_int 1)) /\
  (1 < i < 8 ->
   scales_by pow LF_MODIFY_TCA (int_of_tca LF_TCA_MODEL_ACM) i
     (fun f => (f / pow f (float_of_int (2 * (i / 2))))%flt)) /\
  (i <= 1 \/ 8 <= i ->
   scales_by pow LF_MODIFY_TCA (int_of_tca LF_TCA_MODEL_ACM) i
     (fun f => (f / pow f (float_of_int 1))%flt)) /\
  scales_by pow LF_MODIFY_VIGNETTING (int_of_vig LF_VIGNETTING_MODEL_PA) i
    (fun _ => float_of_int 1) /\
  scales_by pow LF_MODIFY_VIGNETTING (int_of_vig LF_VIGNETTING_MODEL_ACM) i
    (fun f => to_float (ddiv (double_of_int 1)
                          (to_double (pow f (float_of_int (2 * (i + 1))))))).
Proof.
  unfold scales_by, __parameter_scales. repeat split.
  - intros m [->|[->| ->]] values; simpl; symmetry; apply map_id.
  - intros Hi values; simpl. rewrite scale_prefix_all.
    by destruct (Z.ltb_spec i 3); [|lia].
  - intros Hi values; simpl. rewrite scale_prefix_all.
    by destruct (Z.ltb_spec i 3); [lia|].
  - intros m [->| ->] [->| ->] values; simpl; apply scale_prefix_all.
  - intros Hi values; simpl. rewrite scale_prefix_all.
    destruct (Z.ltb_spec 1 i); [|lia]. destruct (Z.ltb_spec i 8); [|lia]. simpl.
    replace (i ÷ 2 * 2) with (2 * (i / 2)); [done|].
    rewrite Z.quot_div_nonneg by lia. lia.
  - intros Hi values; simpl. rewrite scale_prefix_all.
    destruct (Z.ltb_spec 1 i); destruct (Z.ltb_spec i 8); simpl; try done; lia.
  - intros values; simpl. apply scale_prefix_all.
  - intros values; simpl. apply scale_prefix_all.
Qed.

(** With the reference [pow]: the ACM distortion factor of k1 at 2 mm is
    [2 / 2^2], and the ACM vignetting factor of k1 at 2 mm is [1 / 2^2]. *)
Example parameter_scales_acm_k1 :
  __parameter_scales pow_ref [float_of_int 2] 1 LF_MODIFY_DISTORTION
    (int_of_dist LF_DIST_MODEL_ACM) 0 = [float_lit 1 2] /\
  __parameter_scales pow_ref [float_of_int 2] 1 LF_MODIFY_VIGNETTING
    (int_of_vig LF_VIGNETTING_MODEL_ACM) 0 = [float_lit 1 4].
Proof. split; reflexivity. Qed.

(** How the interpolators use the factor: each slot's term is multiplied
    by the factor at the slot's focal length, and the Hermite value is
    divided by the factor at the query. *)
Lemma scaled_term_by_factor
      (pow : float -> float -> float) {T : Type}
      (focal_of : T -> float) (terms_of : T -> list float)
      (s0 : option T) (s1 s2 : T) (s3 : option T) (focal t : float)
      (type model index : Z) (s : float -> float) :
  scales_by pow type model index s ->
  scaled_term pow focal_of terms_of s0 s1 s2 s3 focal t type model index
  = (_lf_interpolate
       (slot_or s0 (fun c => at_ (terms_of c) index * s (focal_of c)) FLT_MAX)
       (at_ (terms_of s1) index * s (focal_of s1))
       (at_ (terms_of s2) index * s (focal_of s2))
       (slot_or s3 (fun c => at_ (terms_of c) index * s (focal_of c)) FLT_MAX)
       t / s focal)%flt.
Proof.
  intros Hs. unfold scaled_term, scale_values.
  match goal with
  | |- context [__parameter_scales pow ?vs 5 type model index] =>
      change 5 with (Z.of_nat (length vs)); rewrite (Hs vs)
  end.
  by destruct s0, s3.
Qed.

(** ** The vignetting distance *)

Lemma fneb_zero (s : bool) : fneb (S754_zero s) (float_of_int 0) = false.
Proof. reflexivity. Qed.

(** C7 (amended). When MaxFocal equals MinFocal (a finite value) the
    focal axis is not divided by the zero range: both focal coordinates
    stay the plain offsets from MinFocal, and the distance is the root of
    the squared differences on the three axes. *)
Theorem vignetting_dist_zero_range
        (l : lfLens) (x : lfLensCalibVignetting) (focal aperture distance : float) :
  MaxFocal l = MinFocal l ->
  is_finite (MinFocal l) = true ->
  __vignetting_dist l x focal aperture distance
  = fsqrt (square ((v_Focal x - MinFocal l) - (focal - MinFocal l))
           + square (aperture_axis (v_Aperture x) - aperture_axis aperture)
           + square (distance_axis (v_Distance x) - distance_axis distance))%flt.
Proof.
  intros Heq Hfin. unfold __vignetting_dist.
  rewrite Heq. destruct (fsub_diag _ Hfin) as [s ->].
  rewrite fneb_zero. reflexivity.
Qed.

Lemma vignetting_dist_zero_range_witness :
  MaxFocal Sample.lens_prime = MinFocal Sample.lens_prime /\
  is_finite (MinFocal Sample.lens_prime) = true /\
  __vignetting_dist Sample.lens_prime Sample.pa_50
    (Sample.f 51) Sample.f2_8 (Sample.f 1)
  = fsqrt (square ((v_Focal Sample.pa_50 - MinFocal Sample.lens_prime)
                   - (Sample.f 51 - MinFocal Sample.lens_prime))
           + square (aperture_axis (v_Aperture Sample.pa_50) - aperture_axis Sample.f2_8)
           + square (distance_axis (v_Distance Sample.pa_50)
                     - distance_axis (Sample.f 1)))%flt.
Proof.
  split; [reflexivity|]. split; [reflexivity|].
  apply (vignetting_dist_zero_range Sample.lens_prime Sample.pa_50); reflexivity.
Defined.

(** C7 as stated fails: on the prime lens (MinFocal = MaxFocal = 50) the
    sample at 50 mm is at distance 0 from the query at 50 mm and at
    distance 1 from the query at 51 mm, aperture and focus distance being
    those of the sample both times. *)
Lemma vignetting_dist_zero_range_counterexample :
  MaxFocal Sample.lens_prime = MinFocal Sample.lens_prime /\
  __vignetting_dist Sample.lens_prime Sample.pa_50
    (Sample.f 50) Sample.f2_8 (Sample.f 1) = fzero /\
  __vignetting_dist Sample.lens_prime Sample.pa_50
    (Sample.f 51) Sample.f2_8 (Sample.f 1) = float_of_int 1.
Proof. repeat split. Qed.

(** ** GuessParameters *)

Section GuessFacts.
Variable regexec : string -> string -> option (list (Z * Z)).
Variable atof : string -> double.

Lemma parses_name_set_ranges (l : lfLens) (minf maxf mina maxa : float) :
  is_zero mina || is_zero minf = wants_guess l ->
  parses_name regexec (set_ranges l minf maxf mina maxa) = parses_name regexec l.
Proof. unfold wants_guess, parses_name. simpl. by intros ->. Qed.

Lemma guessed_bounds_set_ranges (l : lfLens) (minf maxf mina maxa : float) :
  is_zero mina || is_zero minf = wants_guess l ->
  guessed_bounds regexec atof (set_ranges l minf maxf mina maxa)
  = guessed_bounds regexec atof l.
Proof.
  intros H. unfold guessed_bounds. rewrite parses_name_set_ranges by done.
  unfold wants_guess in H. simpl. by rewrite H.
Qed.

Lemma parses_name_filled (l : lfLens) :
  wants_guess l = false -> parses_name regexec l = false.
Proof. unfold wants_guess, parses_name. intros ->. by destruct (Model l). Qed.

Lemma guessed_bounds_filled (l : lfLens) :
  wants_guess l = false ->
  guessed_bounds regexec atof l
  = Some (float_of_int INT_MAX, float_of_int INT_MIN,
          float_of_int INT_MAX, float_of_int INT_MIN).
Proof.
  intros H. unfold guessed_bounds. rewrite parses_name_filled by done.
  unfold wants_guess in H. simpl. by rewrite H.
Qed.

Lemma fill_empty_twice (bound : float) (sentinel : Z) (field : float) :
  fill_empty bound sentinel (fill_empty bound sentinel field)
  = fill_empty bound sentinel field.
Proof.
  unfold fill_empty.
  destruct (fneb bound (float_of_int sentinel)); simpl; [|done].
  destruct (is_zero field) eqn:Hf; simpl; [|by rewrite Hf].
  by destruct (is_zero bound).
Qed.

Lemma fill_empty_filled (bound : float) (sentinel : Z) (field : float) :
  is_zero field = false -> fill_empty bound sentinel field = field.
Proof. unfold fill_empty. intros ->. by rewrite andb_false_r. Qed.

Lemma fill_empty_sentinel_max (field : float) :
  fill_empty (float_of_int INT_MAX) INT_MAX field = field.
Proof. reflexivity. Qed.

Lemma fill_empty_sentinel_min (field : float) :
  fill_empty (float_of_int INT_MIN) INT_MIN field = field.
Proof. reflexivity. Qed.

(** The last assignment, [if (!MaxFocal) MaxFocal = MinFocal], is stable:
    run on its own result it changes nothing, whatever bound is offered
    to the refilled field. *)
Lemma max_focal_stable (bound : float) (sentinel : Z) (minfocal maxfocal : float) :
  let once :=
    let m := fill_empty bound sentinel maxfocal in
    if is_zero m then minfocal else m in
  (let m := fill_empty bound sentinel once in
   if is_zero m then minfocal else m) = once.
Proof.
  unfold fill_empty. simpl.
  destruct (fneb bound (float_of_int sentinel)); simpl;
    destruct (is_zero maxfocal) eqn:Hmax; simpl;
    repeat match goal with
           | |- context [is_zero ?x] =>
               lazymatch x with
               | context [is_zero] => fail
               | _ => destruct (is_zero x) eqn:?
               end
           end; simpl; congruence.
Qed.

(** Where GuessParameters runs to its end, a second run runs to its end
    too and changes nothing, whatever [regexec] and [atof] answer. *)
Lemma GuessParameters_idempotent (l l' : lfLens) :
  GuessParameters regexec atof l = Some l' ->
  GuessParameters regexec atof l' = Some l'.
Proof.
  unfold GuessParameters at 1.
  destruct (guessed_bounds regexec atof l) as [[[[minf maxf] mina] maxa]|] eqn:Hg;
    [|done].
  simpl. intros [= <-].
  set (F := fill_empty minf INT_MAX (MinFocal l)).
  set (A := fill_empty mina INT_MAX (MinAperture l)).
  set (Y := fill_empty maxa INT_MIN (MaxAperture l)).
  set (X := if is_zero (fill_empty maxf INT_MIN (MaxFocal l)) then F
            else fill_empty maxf INT_MIN (MaxFocal l)).
  assert (fill_empty minf INT_MAX F = F) as HF by apply fill_empty_twice.
  assert (fill_empty mina INT_MAX A = A) as HA by apply fill_empty_twice.
  assert (fill_empty maxa INT_MIN Y = Y) as HY by apply fill_empty_twice.
  unfold GuessParameters.
  destruct (bool_decide (is_zero A || is_zero F = wants_guess l)) eqn:Hgate.
  - apply bool_decide_eq_true in Hgate.
    rewrite (guessed_bounds_set_ranges _ _ _ _ _ Hgate), Hg. simpl.
    rewrite HF, HA, HY.
    unfold set_ranges; simpl. do 2 f_equal.
    apply (max_focal_stable maxf INT_MIN F (MaxFocal l)).
  - apply bool_decide_eq_false in Hgate.
    assert (wants_guess l = true) as Hopen.
    { destruct (wants_guess l) eqn:Hw; [done|]. exfalso. apply Hgate.
      unfold wants_guess in Hw. apply orb_false_elim in Hw as [Ha Hf].
      subst A F. rewrite !fill_empty_filled by done. by rewrite Ha, Hf. }
    assert (wants_guess (set_ranges l F X A Y) = false) as Hclosed.
    { unfold wants_guess; simpl. rewrite Hopen in Hgate.
      by destruct (is_zero A || is_zero F). }
    rewrite (guessed_bounds_filled _ Hclosed). simpl.
    rewrite !fill_empty_sentinel_max, !fill_empty_sentinel_min.
    unfold set_ranges; simpl. do 2 f_equal.
    subst X. destruct (is_zero (fill_empty maxf INT_MIN (MaxFocal l))) eqn:E;
      [|by rewrite E].
    by destruct (is_zero F).
Qed.

End GuessFacts.

(** A group that [regexec] reports, with more than 100 characters, has
    [_lf_parse_float] write past [tmp]. *)
Lemma _lf_parse_float_long (atof : string -> double) (model : string) (rm_so rm_eo : Z) :
  100 < rm_eo - rm_so -> _lf_parse_float atof model (rm_so, rm_eo) = None.
Proof.
  intros Hlong. unfold _lf_parse_float.
  destruct (_ && _); [|done].
  destruct (get (Z.to_nat rm_so) model) as [c|].
  - destruct c as [[] [] [] [] [] [] [] []];
      match goal with
      | |- (if (0 <=? ?len) && (?len <? 100) then _ else _) = None =>
          replace (len <? 100) with false by (symmetry; apply Z.ltb_ge; lia)
      end; by rewrite andb_false_r.
  - replace (rm_eo - rm_so <? 100) with false by (symmetry; apply Z.ltb_ge; lia).
    by rewrite andb_false_r.
Qed.

Lemma parse_with_name_match
      (regexec : string -> string -> option (list (Z * Z))) (atof : string -> double)
      (model : string) (minf maxf mina : float) (table : list (string * (Z * Z * Z))) :
  parse_with regexec atof table model minf maxf mina
  = match name_match_in regexec table model with
    | None => Some (false, (minf, maxf, mina))
    | Some (matches, (i0, i1, i2)) =>
        minf ← parse_group atof model matches i0 minf;
        maxf ← parse_group atof model matches i1 maxf;
        mina ← parse_group atof model matches i2 mina;
        Some (true, (minf, maxf, mina))
    end.
Proof.
  induction table as [|[regex [[i0 i1] i2]] table IH]; simpl; [done|].
  by destruct (regexec regex model).
Qed.

Lemma parse_group_fits (atof : string -> double) (model : string)
      (matches : list (Z * Z)) (idx : Z) (bound : float) :
  group_fits model (regmatch matches idx) = true ->
  parse_group atof model matches idx bound <> None.
Proof.
  unfold group_fits, parse_group, _lf_parse_float.
  destruct (regmatch matches idx) as [rm_so rm_eo]. cbn [fst].
  destruct (rm_so =? -1); [done|]. cbn [orb].
  intros Hfit.
  apply andb_true_iff in Hfit as [Hfit Hlen].
  apply andb_true_iff in Hfit as [Hfit Heo].
  apply andb_true_iff in Hfit as [Hso Hlt].
  apply Z.leb_le in Hso, Heo. apply Z.ltb_lt in Hlt, Hlen.
  rewrite (proj2 (Z.leb_le 0 rm_so)), (proj2 (Z.leb_le rm_so _)) by lia.
  cbn [andb].
  destruct (get (Z.to_nat rm_so) model) as [c|].
  - destruct c as [[] [] [] [] [] [] [] []];
      match goal with
      | |- (if (0 <=? ?len) && (?len <? 100) then _ else _) <> None =>
          rewrite (proj2 (Z.leb_le 0 len)), (proj2 (Z.ltb_lt len 100)) by lia
      end; done.
  - by rewrite (proj2 (Z.leb_le 0 _)), (proj2 (Z.ltb_lt _ 100)) by lia.
Qed.

(** GuessParameters runs to its end when it does not call the name
    parser, and when the groups that [regexec] reports fit. *)
Lemma GuessParameters_defined
      (regexec : string -> string -> option (list (Z * Z)))
      (atof : string -> double) (l : lfLens) :
  parses_name regexec l = false \/
  (exists model : string, Model l = Some model /\ groups_fit regexec model = true) ->
  GuessParameters regexec atof l <> None.
Proof.
  intros Hdef. unfold GuessParameters, guessed_bounds.
  destruct (parses_name regexec l) eqn:Hparses.
  - destruct Hdef as [|(model & Hmodel & Hfit)]; [done|].
    rewrite Hmodel. unfold _lf_parse_lens_name. rewrite parse_with_name_match.
    unfold groups_fit, name_match in Hfit.
    destruct (name_match_in regexec lens_name_regex model)
      as [[matches [[i0 i1] i2]]|]; [|done].
    apply andb_true_iff in Hfit as [[H0 H1]%andb_true_iff H2].
    pose proof (parse_group_fits atof model matches i0 (float_of_int INT_MAX) H0) as P0.
    pose proof (parse_group_fits atof model matches i1 (float_of_int INT_MIN) H1) as P1.
    pose proof (parse_group_fits atof model matches i2 (float_of_int INT_MAX) H2) as P2.
    destruct (parse_group atof model matches i0 _); [|done].
    destruct (parse_group atof model matches i1 _); [|done].
    by destruct (parse_group atof model matches i2 _).
  - simpl. by destruct (is_zero (MinAperture l) || is_zero (MinFocal l)).
Qed.

(** C8.  The run of GuessParameters the claim does not survive: the lens
    has a name, the name parser is called, and one of the three groups of
    the pattern that matches has more than 100 characters.  Whatever
    [atof] is and whatever the other groups are, [_lf_parse_float] then
    writes past its [char tmp [100]]: the call has no defined result. *)
Theorem GuessParameters_overruns_tmp
        (regexec : string -> string -> option (list (Z * Z)))
        (atof : string -> double) (l : lfLens) (model : string)
        (matches : list (Z * Z)) (i0 i1 i2 idx rm_so rm_eo : Z) :
  Model l = Some model ->
  parses_name regexec l = true ->
  name_match regexec model = Some (matches, (i0, i1, i2)) ->
  idx ∈ [i0; i1; i2] ->
  regmatch matches idx = (rm_so, rm_eo) ->
  rm_so <> -1 ->
  100 < rm_eo - rm_so ->
  GuessParameters regexec atof l = None.
Proof.
  intros Hmodel Hparses Hfirst Hidx Hgroup Hso Hlong.
  assert (parse_group atof model matches idx = fun _ => None) as Hnone.
  { unfold parse_group. rewrite Hgroup. cbn [fst].
    destruct (rm_so =? -1) eqn:E; [by apply Z.eqb_eq in E|].
    by rewrite _lf_parse_float_long. }
  unfold GuessParameters, guessed_bounds. rewrite Hparses, Hmodel.
  unfold _lf_parse_lens_name. rewrite parse_with_name_match.
  unfold name_match in Hfirst. rewrite Hfirst.
  apply elem_of_cons in Hidx as [->|Hidx]; [by rewrite Hnone|].
  destruct (parse_group atof model matches i0 _); [|done].
  apply elem_of_cons in Hidx as [->|Hidx]; [by rewrite Hnone|].
  destruct (parse_group atof model matches i1 _); [|done].
  apply elem_of_cons in Hidx as [->|Hidx]; [by rewrite Hnone|].
  by apply elem_of_nil in Hidx.
Qed.

(** The run on a name that opens with 120 digits. *)
Lemma GuessParameters_overruns_tmp_witness :
  GuessParameters Fixture.regexec_long Fixture.atof_whole
    (Fixture.lens_named Fixture.name_long None) = None.
Proof.
  apply (GuessParameters_overruns_tmp Fixture.regexec_long Fixture.atof_whole
           (Fixture.lens_named Fixture.name_long None) Fixture.name_long
           [(0, 126); (0, 0); (0, 120); (-1, -1); (120, 122); (123, 125);
            (125, 126); (-1, -1); (-1, -1); (-1, -1)]
           2 3 6 2 0 120).
  - reflexivity.
  - reflexivity.
  - reflexivity.
  - apply elem_of_cons. by left.
  - reflexivity.
  - lia.
  - lia.
Defined.

(** The same lens under a name of ordinary length: the three numbers are
    read from the name, and a second run changes nothing. *)
Example GuessParameters_from_name :
  exists l1 : lfLens,
    GuessParameters Fixture.regexec_24_70 Fixture.atof_whole
      (Fixture.lens_named Fixture.name_24_70 None) = Some l1 /\
    MinFocal l1 = Sample.f 24 /\ MaxFocal l1 = Sample.f 70 /\
    MinAperture l1 = Sample.f 4 /\ MaxAperture l1 = fzero /\
    GuessParameters Fixture.regexec_24_70 Fixture.atof_whole l1 = Some l1.
Proof. eexists. repeat split. Qed.

(** A lens with empty ranges takes them from its calibration lists, and a
    second run changes nothing. *)
Example GuessParameters_from_calibration :
  let l := set_ranges Sample.lens_poly5 fzero fzero fzero fzero in
  exists l1 : lfLens,
    GuessParameters Sample.regexec_nomatch Sample.atof_zero l = Some l1 /\
    MinFocal l1 = Sample.f 24 /\ MaxFocal l1 = Sample.f 70 /\
    MinAperture l1 = fzero /\ MaxAperture l1 = fzero /\
    GuessParameters Sample.regexec_nomatch Sample.atof_zero l1 = Some l1.
Proof. eexists. repeat split. Qed.


(** ** The spline scan *)

Section SplineFacts.
Context {T M : Type}.
Variable model_of : T -> M.
Variable focal_of : T -> float.
Variable model_int : M -> Z.

Lemma same_model_refl (m : M) : same_model model_int m m = true.
Proof. apply Z.eqb_refl. Qed.

Lemma same_model_none (a b : M) :
  same_model model_int a b = true -> is_none model_int a = is_none model_int b.
Proof. unfold same_model, is_none. by intros ->%Z.eqb_eq. Qed.

Lemma latched_model_not_none (calib : list T) (m : M) :
  latched_model model_of model_int calib = Some m -> is_none model_int m = false.
Proof.
  unfold latched_model.
  destruct (find _ calib) as [c|] eqn:Hfind; [|done].
  intros [= <-]. apply find_some in Hfind as [_ H]. by apply negb_true_iff.
Qed.

Lemma spline_scan_exact (focal : float) (c : T) (post : list T) (m : M) :
  same_model model_int m (model_of c) = true ->
  is_none model_int m = false ->
  exact_focal focal (focal_of c) = true ->
  forall (pre : list T) (dm : M) (spline : quad (option T)) (spline_dist : quad float),
    (if is_none model_int dm
     then latched_model model_of model_int (pre ++ c :: post)
     else Some dm) = Some m ->
    (forall r : T, r ∈ pre -> same_model model_int m (model_of r) = true ->
                   exact_focal focal (focal_of r) = false) ->
    spline_scan model_of focal_of model_int focal (pre ++ c :: post) dm spline spline_dist
    = ExactMatch c.
Proof.
  intros Hc Hm Hexact.
  induction pre as [|r pre IH]; intros dm spline spline_dist Hforce Hpre; simpl.
  - rewrite <- (same_model_none _ _ Hc), Hm.
    destruct (is_none model_int dm) eqn:Hdm; simpl.
    + unfold exact_focal in Hexact. by rewrite Hexact.
    + injection Hforce as ->. rewrite Hc. simpl.
      unfold exact_focal in Hexact. by rewrite Hexact.
  - destruct (is_none model_int (model_of r)) eqn:Hr.
    { apply IH.
      - destruct (is_none model_int dm); [|done].
        revert Hforce. unfold latched_model. simpl. by rewrite Hr.
      - intros r' Hr'. apply Hpre. by right. }
    destruct (is_none model_int dm) eqn:Hdm; simpl.
    + assert (m = model_of r) as ->.
      { revert Hforce. unfold latched_model. simpl. rewrite Hr. simpl. congruence. }
      pose proof (Hpre r ltac:(by left) (same_model_refl _)) as Hne.
      unfold exact_focal in Hne. rewrite Hne.
      destruct (__insert_spline spline spline_dist _ r) as [[? spline'] dist'].
      apply IH; [by rewrite Hr|]. intros r' Hr'. apply Hpre. by right.
    + injection Hforce as ->.
      destruct (same_model model_int m (model_of r)) eqn:Hsame; simpl.
      * pose proof (Hpre r ltac:(by left) Hsame) as Hne.
        unfold exact_focal in Hne. rewrite Hne.
        destruct (__insert_spline spline spline_dist _ r) as [[? spline'] dist'].
        apply IH; [by rewrite Hdm|]. intros r' Hr'. apply Hpre. by right.
      * apply IH; [by rewrite Hdm|]. intros r' Hr'. apply Hpre. by right.
Qed.

(** A list whose records all have model NONE leaves the slots empty. *)
Lemma spline_scan_all_none (focal : float) (calib : list T) (dm : M)
      (spline : quad (option T)) (spline_dist : quad float) :
  (forall c : T, c ∈ calib -> is_none model_int (model_of c) = true) ->
  spline_scan model_of focal_of model_int focal calib dm spline spline_dist
  = Scanned dm spline spline_dist.
Proof.
  induction calib as [|c calib IH]; intros Hall; simpl; [done|].
  rewrite (Hall c) by by left. apply IH. intros c' Hc'. apply Hall. by right.
Qed.

End SplineFacts.

Lemma int_of_dist_inj (a b : lfDistortionModel) : int_of_dist a = int_of_dist b -> a = b.
Proof. by destruct a, b. Qed.

(** ** The Interpolate methods *)

(** C2 (amended). Let [c] be a record of the distortion list of any lens,
    its model the family the scan latches (the model of the first record
    whose model is not NONE), its Focal the finite focal length [focal],
    and let no record of that family before [c] have a focal difference
    [focal - Focal] that compares equal to 0.  Then InterpolateDistortion
    returns true and the output is [c] itself. *)
Theorem InterpolateDistortion_exact_match
        (pow : float -> float -> float) (l : lfLens)
        (pre post : list lfLensCalibDistortion) (c : lfLensCalibDistortion)
        (focal : float) (res : lfLensCalibDistortion) :
  CalibDistortion l = Some (pre ++ c :: post) ->
  latched_model d_Model int_of_dist (pre ++ c :: post) = Some (d_Model c) ->
  (forall r : lfLensCalibDistortion,
      r ∈ pre -> d_Model r = d_Model c -> exact_focal focal (d_Focal r) = false) ->
  d_Focal c = focal ->
  is_finite focal = true ->
  InterpolateDistortion pow l focal res = (true, c).
Proof.
  intros Hl Hlatch Hpre Hfocal Hfin. unfold InterpolateDistortion. rewrite Hl.
  rewrite (spline_scan_exact d_Model d_Focal int_of_dist focal c post (d_Model c)); try done.
  - apply same_model_refl.
  - by eapply latched_model_not_none.
  - rewrite Hfocal. by apply exact_focal_same.
  - intros r Hr Hsame. apply Hpre; [done|].
    symmetry. by apply int_of_dist_inj, Z.eqb_eq.
Qed.

Lemma InterpolateDistortion_exact_match_witness :
  InterpolateDistortion pow_ref Sample.lens_poly5 (Sample.f 70) Sample.dist_res
  = (true, Sample.poly5_70).
Proof.
  apply (InterpolateDistortion_exact_match pow_ref Sample.lens_poly5
           [Sample.poly5_24] [] Sample.poly5_70).
  - reflexivity.
  - reflexivity.
  - intros r Hr _. apply list_elem_of_singleton in Hr as ->. reflexivity.
  - reflexivity.
  - reflexivity.
Defined.

(** C2 as stated fails: the lens passes Check, its distortion list holds a
    PTLENS record at 50 mm, and the query at 50 mm returns the POLY3 record
    at 24 mm, the PTLENS record being skipped as of another family. *)
Lemma InterpolateDistortion_exact_match_counterexample :
  Check Sample.regexec_nomatch Sample.atof_zero Sample.lens_mixed
  = Some (true, Sample.lens_mixed) /\
  CalibDistortion Sample.lens_mixed = Some [Sample.poly3_24; Sample.ptlens_50] /\
  d_Focal Sample.ptlens_50 = Sample.f 50 /\
  InterpolateDistortion pow_ref Sample.lens_mixed (Sample.f 50) Sample.dist_res
  = (true, Sample.poly3_24) /\
  Sample.poly3_24 <> Sample.ptlens_50.
Proof. repeat split. discriminate. Qed.

(** C3 (amended). The two-sample POLY5 lens queried at 47 mm yields, for
    every [pow], true with k1 = -9138225 * 2^-32, which lies between
    -0.002128 and -0.002127, and k2 = 0: the terms are multiplied by their
    focal lengths before the Hermite step and the result is divided by
    47. *)
Theorem InterpolateDistortion_poly5_at_47 (pow : float -> float -> float) :
  InterpolateDistortion pow Sample.lens_poly5 (Sample.f 47) Sample.dist_res
  = (true, Sample.poly5_47) /\
  (float_lit (-2128) 1000000 < at_ (d_Terms Sample.poly5_47) 0)%flt = true /\
  (at_ (d_Terms Sample.poly5_47) 0 < float_lit (-2127) 1000000)%flt = true /\
  at_ (d_Terms Sample.poly5_47) 1 = fzero.
Proof. repeat split; vm_compute; reflexivity. Qed.

(** C3 as stated fails: the interpolated k1 is negative, not 0.015. *)
Lemma InterpolateDistortion_poly5_at_47_counterexample :
  fst (InterpolateDistortion pow_ref Sample.lens_poly5 (Sample.f 47) Sample.dist_res)
  = true /\
  at_ (d_Terms (snd (InterpolateDistortion pow_ref Sample.lens_poly5 (Sample.f 47)
                       Sample.dist_res))) 0
  <> float_lit 15 1000 /\
  (at_ (d_Terms (snd (InterpolateDistortion pow_ref Sample.lens_poly5 (Sample.f 47)
                        Sample.dist_res))) 0
   < fzero)%flt = true.
Proof. repeat split. vm_compute. discriminate. Qed.

(** ** The vignetting scan *)

Section VignettingFacts.
Variable pow : float -> float -> float.
Variable l : lfLens.
Variables focal aperture distance : float.

(** The scan never touches the query fields of the accumulator. *)
Lemma vignetting_scan_query_fields (calib : list lfLensCalibVignetting) :
  forall st st' : vig_state,
    vignetting_scan pow l focal aperture distance calib st = inr st' ->
    v_Focal (vs_res st') = v_Focal (vs_res st) /\
    v_Aperture (vs_res st') = v_Aperture (vs_res st) /\
    v_Distance (vs_res st') = v_Distance (vs_res st).
Proof.
  induction calib as [|c calib IH]; intros st st'; simpl.
  - by intros [= <-].
  - destruct (negb _ && negb _); [apply IH|].
    destruct (fltb _ _); [done|].
    intros H. apply IH in H. simpl in H.
    by destruct (vig_same (vs_vm st) LF_VIGNETTING_MODEL_NONE).
Qed.

(** The scan against the records it considers: it stops at the first of
    them within [10^-4]; otherwise it ends with the smallest distance and
    the sum of the weights over all of them. *)
Lemma vignetting_scan_considered (calib : list lfLensCalibVignetting) :
  forall st : vig_state,
    match find (within_exact l focal aperture distance)
               (vig_considered (vs_vm st) calib) with
    | Some c => vignetting_scan pow l focal aperture distance calib st = inl c
    | None =>
        exists st' : vig_state,
          vignetting_scan pow l focal aperture distance calib st = inr st' /\
          vs_smallest st' =
            fold_left
              (fun acc c => std_min acc (__vignetting_dist l c focal aperture distance))
              (vig_considered (vs_vm st) calib) (vs_smallest st) /\
          vs_total_weighting st' =
            fold_left
              (fun acc c =>
                 (acc + weighting_of pow
                          (__vignetting_dist l c focal aperture distance))%flt)
              (vig_considered (vs_vm st) calib) (vs_total_weighting st)
    end.
Proof.
  induction calib as [|c calib IH]; intros st; simpl.
  - eauto.
  - destruct (negb _ && negb _); [apply IH|]. simpl.
    unfold within_exact at 1.
    destruct (fltb _ _); [done|].
    match goal with
    | |- context [vignetting_scan _ _ _ _ _ calib ?s] => specialize (IH s)
    end.
    simpl in IH. exact IH.
Qed.

End VignettingFacts.

Section VignettingSums.
Variable pow : float -> float -> float.
Variable l : lfLens.
Variables focal aperture distance : float.

(** A record the scan takes has, as far as [__parameter_scales] can tell,
    the model the scan holds in [vm]. *)
Lemma accumulate_terms_step (vm : lfVignettingModel) (weighting : float)
      (c : lfLensCalibVignetting) (terms : list float) (i : Z) :
  int_of_vig vm = int_of_vig (v_Model c) ->
  i ∈ [0; 1; 2] ->
  at_ (accumulate_terms pow vm weighting c terms) i
  = (at_ terms i + weighting * at_ (v_Terms c) i
                   * vig_scale pow (v_Model c) (v_Focal c) i)%flt.
Proof.
  intros Hvm Hi. unfold accumulate_terms, vig_scale. rewrite Hvm.
  repeat (apply elem_of_cons in Hi as [->|Hi]; [reflexivity|]).
  by apply elem_of_nil in Hi.
Qed.

(** A scan that runs to the end leaves in the accumulator, for each of
    the three terms, what it held with the term of every considered
    record added in. *)
Lemma vignetting_scan_sums (calib : list lfLensCalibVignetting) :
  forall st st' : vig_state,
    vignetting_scan pow l focal aperture distance calib st = inr st' ->
    length (v_Terms (vs_res st)) = 3%nat ->
    v_Terms (vs_res st')
    = map (fun i =>
             fold_left
               (fun acc c =>
                  (acc + weighting_of pow (__vignetting_dist l c focal aperture distance)
                         * at_ (v_Terms c) i
                         * vig_scale pow (v_Model c) (v_Focal c) i)%flt)
               (vig_considered (vs_vm st) calib) (at_ (v_Terms (vs_res st)) i))
          [0; 1; 2].
Proof.
  induction calib as [|c calib IH]; intros st st'; cbn [vignetting_scan vig_considered].
  - intros [= <-] Hlen.
    destruct (v_Terms (vs_res st)) as [|a [|b [|d [|]]]]; try done.
  - destruct (negb (vig_same (vs_vm st) LF_VIGNETTING_MODEL_NONE)
              && negb (vig_same (vs_vm st) (v_Model c))) eqn:Hskip; [apply IH|].
    destruct (fltb _ _); [intros; discriminate|].
    intros Hscan Hlen. apply IH in Hscan.
    2:{ cbn [vs_res set_v_Terms v_Terms]. reflexivity. }
    rewrite Hscan. cbn [vs_vm vs_res set_v_Terms v_Terms fold_left].
    assert (int_of_vig (if vig_same (vs_vm st) LF_VIGNETTING_MODEL_NONE
                        then v_Model c else vs_vm st) = int_of_vig (v_Model c)) as Hvm.
    { destruct (vig_same (vs_vm st) LF_VIGNETTING_MODEL_NONE); [done|].
      cbn [negb andb] in Hskip. apply negb_false_iff in Hskip.
      by apply Z.eqb_eq in Hskip. }
    assert (v_Terms (if vig_same (vs_vm st) LF_VIGNETTING_MODEL_NONE
                     then set_v_Model (vs_res st)
                            (if vig_same (vs_vm st) LF_VIGNETTING_MODEL_NONE
                             then v_Model c else vs_vm st)
                     else vs_res st) = v_Terms (vs_res st)) as Hterms.
    { by destruct (vig_same (vs_vm st) LF_VIGNETTING_MODEL_NONE). }
    rewrite Hterms.
    apply map_ext_in. intros i Hi. apply list_elem_of_In in Hi.
    by rewrite accumulate_terms_step.
Qed.

(** Once the accumulator carries the model held in [vm], it does so to
    the end of the scan. *)
Lemma vignetting_scan_model_kept (calib : list lfLensCalibVignetting) :
  forall st st' : vig_state,
    vignetting_scan pow l focal aperture distance calib st = inr st' ->
    v_Model (vs_res st) = vs_vm st ->
    v_Model (vs_res st') = vs_vm st'.
Proof.
  induction calib as [|c calib IH]; intros st st'; cbn [vignetting_scan].
  - by intros [= <-].
  - destruct (negb _ && negb _); [apply IH|].
    destruct (fltb _ _); [intros; discriminate|].
    intros Hscan Hm. apply IH in Hscan; [done|].
    cbn [vs_res vs_vm set_v_Terms v_Model].
    by destruct (vig_same (vs_vm st) LF_VIGNETTING_MODEL_NONE).
Qed.

(** The model held in [vm] at the end is the one the list latches. *)
Lemma vignetting_scan_vm (calib : list lfLensCalibVignetting) :
  forall st st' : vig_state,
    vignetting_scan pow l focal aperture distance calib st = inr st' ->
    vs_vm st' = vig_latched (vs_vm st) calib.
Proof.
  induction calib as [|c calib IH]; intros st st'; cbn [vignetting_scan].
  - by intros [= <-].
  - unfold vig_latched. cbn [fold_left]. fold vig_latched.
    destruct (vig_same (vs_vm st) LF_VIGNETTING_MODEL_NONE) eqn:Hlatch;
      cbn [negb andb].
    + destruct (fltb _ _); [intros; discriminate|]. intros Hscan.
      by apply IH in Hscan.
    + destruct (vig_same (vs_vm st) (v_Model c)); cbn [negb].
      * destruct (fltb _ _); [intros; discriminate|]. intros Hscan.
        by apply IH in Hscan.
      * apply IH.
Qed.

(** What a scan that runs to the end hands to the final tests. *)
Lemma vignetting_scan_end (calib : list lfLensCalibVignetting)
      (res : lfLensCalibVignetting) (st' : vig_state) :
  vignetting_scan pow l focal aperture distance calib
    {| vs_vm := LF_VIGNETTING_MODEL_NONE;
       vs_res :=
         {| v_Model := v_Model res; v_Focal := focal; v_Aperture := aperture;
            v_Distance := distance;
            v_Terms := [float_of_int 0; float_of_int 0; float_of_int 0] |};
       vs_total_weighting := float_of_int 0; vs_smallest := FLT_MAX |} = inr st' ->
  vs_vm st' = vig_latched LF_VIGNETTING_MODEL_NONE calib /\
  vs_total_weighting st'
  = total_weight pow l focal aperture distance
      (vig_considered LF_VIGNETTING_MODEL_NONE calib) /\
  vs_smallest st'
  = smallest_distance l focal aperture distance
      (vig_considered LF_VIGNETTING_MODEL_NONE calib) /\
  vs_res st'
  = {| v_Model := match calib with
                  | [] => v_Model res
                  | _ :: _ => vig_latched LF_VIGNETTING_MODEL_NONE calib
                  end;
       v_Focal := focal; v_Aperture := aperture; v_Distance := distance;
       v_Terms :=
         map (fun i => weighted_sum pow l focal aperture distance i
                         (vig_considered LF_VIGNETTING_MODEL_NONE calib))
             [0; 1; 2] |}.
Proof.
  intros Hscan.
  pose proof (vignetting_scan_vm _ _ _ Hscan) as Hvm.
  pose proof (vignetting_scan_query_fields _ _ _ _ _ _ _ _ Hscan) as (Hf & Ha & Hd).
  pose proof (vignetting_scan_sums _ _ _ Hscan eq_refl) as Hsums.
  pose proof (vignetting_scan_considered pow l focal aperture distance calib
                {| vs_vm := LF_VIGNETTING_MODEL_NONE;
                   vs_res :=
                     {| v_Model := v_Model res; v_Focal := focal;
                        v_Aperture := aperture; v_Distance := distance;
                        v_Terms := [float_of_int 0; float_of_int 0; float_of_int 0] |};
                   vs_total_weighting := float_of_int 0; vs_smallest := FLT_MAX |})
    as Hcons.
  cbn [vs_vm vs_res vs_total_weighting vs_smallest v_Focal v_Aperture v_Distance v_Terms]
    in Hvm, Hf, Ha, Hd, Hsums, Hcons.
  destruct (find _ _); [congruence|].
  destruct Hcons as (st'' & Hscan' & Hsm & Htw).
  rewrite Hscan in Hscan'. injection Hscan' as <-.
  split; [done|]. split; [done|]. split; [done|].
  assert (v_Model (vs_res st')
          = match calib with
            | [] => v_Model res
            | _ :: _ => vig_latched LF_VIGNETTING_MODEL_NONE calib
            end) as Hm.
  { destruct calib as [|c calib].
    - by injection Hscan as <-.
    - rewrite <- Hvm. revert Hscan. cbn [vignetting_scan].
      change (vig_same LF_VIGNETTING_MODEL_NONE LF_VIGNETTING_MODEL_NONE) with true.
      cbn [negb andb vs_vm vs_res vs_total_weighting vs_smallest].
      destruct (fltb _ _); [intros; discriminate|].
      intros Hscan. by apply vignetting_scan_model_kept in Hscan. }
  destruct (vs_res st') as [m f a d ts].
  cbn [v_Model v_Focal v_Aperture v_Distance v_Terms] in *.
  by subst.
Qed.

End VignettingSums.


(** C1.  What the five interpolators leave in the caller's record when
    they return false.  InterpolateDistortion, InterpolateTCA,
    InterpolateCrop and InterpolateFov leave it as it was, and so does
    InterpolateVignetting when the list pointer is NULL.  With an
    allocated list InterpolateVignetting has written to it before it
    returns false: the record then holds the query's focal length,
    aperture and distance, the model latched from the list (its own model
    when the list has no entry), and in its three terms the weighted sums
    over the considered records, not divided by the sum of the weights. *)
Theorem Interpolate_false_output
        (pow : float -> float -> float) (l : lfLens) (focal aperture distance : float) :
  (forall res, fst (InterpolateDistortion pow l focal res) = false ->
               snd (InterpolateDistortion pow l focal res) = res) /\
  (forall res, fst (InterpolateTCA pow l focal res) = false ->
               snd (InterpolateTCA pow l focal res) = res) /\
  (forall res, fst (InterpolateCrop l focal res) = false ->
               snd (InterpolateCrop l focal res) = res) /\
  (forall res, fst (InterpolateFov l focal res) = false ->
               snd (InterpolateFov l focal res) = res) /\
  (forall res, CalibVignetting l = None ->
               InterpolateVignetting pow l focal aperture distance res = (false, res)) /\
  (forall res res' calib,
      CalibVignetting l = Some calib ->
      InterpolateVignetting pow l focal aperture distance res = (false, res') ->
      res' = {| v_Model := match calib with
                           | [] => v_Model res
                           | _ :: _ => vig_latched LF_VIGNETTING_MODEL_NONE calib
                           end;
                v_Focal := focal; v_Aperture := aperture; v_Distance := distance;
                v_Terms :=
                  map (fun i => weighted_sum pow l focal aperture distance i
                                  (vig_considered LF_VIGNETTING_MODEL_NONE calib))
                      [0; 1; 2] |}).
Proof.
  split; [|split; [|split; [|split; [|split]]]].
  - intros res. unfold InterpolateDistortion.
    destruct (CalibDistortion l); [|done].
    destruct (spline_scan _ _ _ _ _ _ _ _) as [c|dm spline sd]; [done|].
    by destruct (q1 spline), (q2 spline).
  - intros res. unfold InterpolateTCA.
    destruct (CalibTCA l); [|done].
    destruct (spline_scan _ _ _ _ _ _ _ _) as [c|dm spline sd]; [done|].
    by destruct (q1 spline), (q2 spline).
  - intros res. unfold InterpolateCrop.
    destruct (CalibCrop l); [|done].
    destruct (spline_scan _ _ _ _ _ _ _ _) as [c|dm spline sd]; [done|].
    by destruct (q1 spline), (q2 spline).
  - intros res. unfold InterpolateFov.
    destruct (CalibFov l); [|done].
    destruct (fov_scan _ _ _ _ _) as [c|counter spline sd]; [done|].
    destruct (counter =? 0); [done|].
    by destruct (q1 spline), (q2 spline).
  - intros res Hnull. unfold InterpolateVignetting. by rewrite Hnull.
  - intros res res' calib Hcalib. unfold InterpolateVignetting. rewrite Hcalib.
    destruct (vignetting_scan _ _ _ _ _ _ _) as [c|st] eqn:Hscan; [done|].
    apply vignetting_scan_end in Hscan as (_ & _ & _ & Hres).
    destruct (fgtb _ _); [by intros [= <-]|].
    destruct (_ && _); [done|]. by intros [= <-].
Qed.

(** The run the claim does not survive: the only sample is far from the
    query (normalized distance above 18), InterpolateVignetting returns
    false, and the caller's record, all zeros before the call, comes back
    with the query in its first three fields, the model of the sample and
    the weighted terms of the sample. *)
Lemma Interpolate_false_output_witness :
  (__vignetting_dist (Sample.lens_vig [Sample.pa_24]) Sample.pa_24
     (Sample.f 500) Sample.f2_8 (Sample.f 1) > float_of_int 18)%flt = true /\
  InterpolateVignetting pow_ref (Sample.lens_vig [Sample.pa_24])
    (Sample.f 500) Sample.f2_8 (Sample.f 1) Sample.vig_res
  = (false,
     {| v_Model := LF_VIGNETTING_MODEL_PA; v_Focal := Sample.f 500;
        v_Aperture := Sample.f2_8; v_Distance := Sample.f 1;
        v_Terms :=
          map (fun i => weighted_sum pow_ref (Sample.lens_vig [Sample.pa_24])
                          (Sample.f 500) Sample.f2_8 (Sample.f 1) i [Sample.pa_24])
              [0; 1; 2] |}) /\
  snd (InterpolateVignetting pow_ref (Sample.lens_vig [Sample.pa_24])
         (Sample.f 500) Sample.f2_8 (Sample.f 1) Sample.vig_res) <> Sample.vig_res /\
  (weighted_sum pow_ref (Sample.lens_vig [Sample.pa_24])
     (Sample.f 500) Sample.f2_8 (Sample.f 1) 0 [Sample.pa_24] < fzero)%flt = true.
Proof.
  assert (InterpolateVignetting pow_ref (Sample.lens_vig [Sample.pa_24])
            (Sample.f 500) Sample.f2_8 (Sample.f 1) Sample.vig_res
          = (false,
             snd (InterpolateVignetting pow_ref (Sample.lens_vig [Sample.pa_24])
                    (Sample.f 500) Sample.f2_8 (Sample.f 1) Sample.vig_res)))
    as Hfalse by (vm_compute; reflexivity).
  pose proof (proj2 (proj2 (proj2 (proj2 (proj2
                (Interpolate_false_output pow_ref (Sample.lens_vig [Sample.pa_24])
                   (Sample.f 500) Sample.f2_8 (Sample.f 1))))))
                Sample.vig_res _ [Sample.pa_24] eq_refl Hfalse) as Hout.
  split; [reflexivity|]. split; [|split; [|reflexivity]].
  - rewrite Hfalse. by f_equal.
  - intros Heq. rewrite Heq in Hout. apply (f_equal v_Focal) in Hout.
    vm_compute in Hout. discriminate Hout.
Defined.

(** The same on a list that was emptied: the array is allocated and holds
    no entry, the call returns false, and the output holds the query. *)
Example InterpolateVignetting_emptied_list :
  RemoveCalibVignetting Sample.lens_prime 0
  = (true, Sample.lens (Sample.f 50) (Sample.f 50) None (Some [])) /\
  InterpolateVignetting pow_ref (snd (RemoveCalibVignetting Sample.lens_prime 0))
    (Sample.f 50) Sample.f2_8 (Sample.f 1) Sample.vig_res
  = (false,
     {| v_Model := LF_VIGNETTING_MODEL_NONE; v_Focal := Sample.f 50;
        v_Aperture := Sample.f2_8; v_Distance := Sample.f 1;
        v_Terms := [fzero; fzero; fzero] |}).
Proof. split; reflexivity. Qed.

(** C4 (amended). With an allocated vignetting list, let the considered
    samples be those the model latch does not skip.  InterpolateVignetting
    returns the first considered sample within [10^-4] of the query, and
    true, when there is one.  When there is none it returns true exactly
    when the smallest distance over the considered samples does not
    exceed 1, the sum of their weights is positive and that smallest
    distance is below FLT_MAX; in particular it returns false when the
    smallest distance exceeds 1. *)
Theorem InterpolateVignetting_success
        (pow : float -> float -> float) (l : lfLens)
        (calib : list lfLensCalibVignetting)
        (focal aperture distance : float) (res : lfLensCalibVignetting) :
  CalibVignetting l = Some calib ->
  let considered := vig_considered LF_VIGNETTING_MODEL_NONE calib in
  let exact := find (within_exact l focal aperture distance) considered in
  let smallest := smallest_distance l focal aperture distance considered in
  let total := total_weight pow l focal aperture distance considered in
  (forall c, exact = Some c ->
             InterpolateVignetting pow l focal aperture distance res = (true, c)) /\
  (exact = None ->
   fst (InterpolateVignetting pow l focal aperture distance res)
   = negb (smallest > float_of_int 1)%flt
     && (total > float_of_int 0)%flt && (smallest < FLT_MAX)%flt) /\
  (exact = None -> (smallest > float_of_int 1)%flt = true ->
   fst (InterpolateVignetting pow l focal aperture distance res) = false).
Proof.
  intros Hcalib considered exact smallest total.
  assert (exact = None ->
          fst (InterpolateVignetting pow l focal aperture distance res)
          = negb (smallest > float_of_int 1)%flt
            && (total > float_of_int 0)%flt && (smallest < FLT_MAX)%flt) as Hnone.
  { intros Hex. unfold InterpolateVignetting. rewrite Hcalib.
    match goal with
    | |- context [vignetting_scan _ _ _ _ _ calib ?s] =>
        pose proof (vignetting_scan_considered pow l focal aperture distance calib s) as H
    end.
    cbn [vs_vm vs_smallest vs_total_weighting] in H.
    fold considered in H. fold exact in H. rewrite Hex in H.
    destruct H as (st' & -> & Hsmall & Htotal).
    fold considered in Hsmall, Htotal.
    change (vs_smallest st' = smallest) in Hsmall.
    change (vs_total_weighting st' = total) in Htotal.
    rewrite Hsmall, Htotal.
    destruct (smallest > float_of_int 1)%flt; [done|].
    by destruct (total > float_of_int 0)%flt, (smallest < FLT_MAX)%flt. }
  split; [|split; [exact Hnone|]].
  - intros c Hex. unfold InterpolateVignetting. rewrite Hcalib.
    match goal with
    | |- context [vignetting_scan _ _ _ _ _ calib ?s] =>
        pose proof (vignetting_scan_considered pow l focal aperture distance calib s) as H
    end.
    cbn [vs_vm vs_smallest vs_total_weighting] in H.
    fold considered in H. fold exact in H. rewrite Hex in H.
    by rewrite H.
  - intros Hex Hfar. rewrite (Hnone Hex), Hfar. reflexivity.
Qed.

Lemma InterpolateVignetting_success_witness :
  InterpolateVignetting pow_ref (Sample.lens_vig [Sample.pa_24; Sample.pa_50])
    (Sample.f 50) Sample.f2_8 (Sample.f 1) Sample.vig_res
  = (true, Sample.pa_50).
Proof.
  apply (proj1 (InterpolateVignetting_success pow_ref
                  (Sample.lens_vig [Sample.pa_24; Sample.pa_50])
                  [Sample.pa_24; Sample.pa_50]
                  (Sample.f 50) Sample.f2_8 (Sample.f 1) Sample.vig_res eq_refl)).
  reflexivity.
Defined.

(** C4 as stated fails, three ways.  A lone sample that matches the query
    is returned, with true, by the early exit, no sample having entered
    the weighted sum.  An ACM sample at the very query point is not
    returned when the list has latched PA before it: the result is the PA
    interpolation.  And with a sample whose focal length is NaN in the sum,
    the total weight is NaN and the call returns false although a sample
    lies at distance 1/2. *)
Lemma InterpolateVignetting_success_counterexample :
  (vignetting_scan pow_ref (Sample.lens_vig [Sample.pa_50])
     (Sample.f 50) Sample.f2_8 (Sample.f 1) [Sample.pa_50]
     {| vs_vm := LF_VIGNETTING_MODEL_NONE; vs_res := Sample.vig_res;
        vs_total_weighting := float_of_int 0; vs_smallest := FLT_MAX |}
   = inl Sample.pa_50 /\
   InterpolateVignetting pow_ref (Sample.lens_vig [Sample.pa_50])
     (Sample.f 50) Sample.f2_8 (Sample.f 1) Sample.vig_res
   = (true, Sample.pa_50)) /\
  (within_exact (Sample.lens_vig [Sample.pa_24; Sample.acm_50])
     (Sample.f 50) Sample.f2_8 (Sample.f 1) Sample.acm_50 = true /\
   fst (InterpolateVignetting pow_ref (Sample.lens_vig [Sample.pa_24; Sample.acm_50])
          (Sample.f 50) Sample.f2_8 (Sample.f 1) Sample.vig_res) = true /\
   snd (InterpolateVignetting pow_ref (Sample.lens_vig [Sample.pa_24; Sample.acm_50])
          (Sample.f 50) Sample.f2_8 (Sample.f 1) Sample.vig_res) <> Sample.acm_50) /\
  (smallest_distance (Sample.lens_vig [Sample.pa_nan; Sample.pa_37])
     (Sample.f 50) Sample.f2_8 (Sample.f 1) [Sample.pa_nan; Sample.pa_37]
   = float_lit 1 2 /\
   fst (InterpolateVignetting pow_ref (Sample.lens_vig [Sample.pa_nan; Sample.pa_37])
          (Sample.f 50) Sample.f2_8 (Sample.f 1) Sample.vig_res) = false).
Proof.
  split; [split; reflexivity|]. split; [|split; reflexivity].
  split; [reflexivity|]. split; [reflexivity|]. vm_compute. discriminate.
Qed.

(** ** Model latching *)

Section LatchFacts.
Context {T M : Type}.
Variable model_of : T -> M.
Variable focal_of : T -> float.
Variable model_int : M -> Z.

(** Once a family is latched, a record of another family does not
    influence the spline scan. *)
Lemma spline_scan_skips_other_family (focal : float) (r : T) (post : list T) (m : M) :
  is_none model_int m = false ->
  same_model model_int m (model_of r) = false ->
  forall (pre : list T) (dm : M) (spline : quad (option T)) (spline_dist : quad float),
    (if is_none model_int dm
     then latched_model model_of model_int pre
     else Some dm) = Some m ->
    spline_scan model_of focal_of model_int focal (pre ++ r :: post) dm spline spline_dist
    = spline_scan model_of focal_of model_int focal (pre ++ post) dm spline spline_dist.
Proof.
  intros Hm Hr.
  induction pre as [|x pre IH]; intros dm spline spline_dist Hforce; simpl.
  - destruct (is_none model_int dm) eqn:Hdm; [done|]. injection Hforce as ->.
    destruct (is_none model_int (model_of r)); [done|]. by rewrite Hr.
  - destruct (is_none model_int (model_of x)) eqn:Hx.
    { apply IH. destruct (is_none model_int dm); [|done].
      revert Hforce. unfold latched_model. simpl. by rewrite Hx. }
    destruct (is_none model_int dm) eqn:Hdm; simpl.
    + assert (m = model_of x) as ->.
      { revert Hforce. unfold latched_model. simpl. rewrite Hx. simpl. congruence. }
      destruct (feqb _ _); [done|].
      destruct (__insert_spline spline spline_dist _ x) as [[? spline'] dist'].
      apply IH. by rewrite Hx.
    + injection Hforce as ->.
      destruct (same_model model_int m (model_of x)); simpl.
      * destruct (feqb _ _); [done|].
        destruct (__insert_spline spline spline_dist _ x) as [[? spline'] dist'].
        apply IH. by rewrite Hdm.
      * apply IH. by rewrite Hdm.
Qed.

End LatchFacts.

(** The same for the vignetting scan. *)
Lemma vignetting_scan_skips_other_family
      (pow : float -> float -> float) (l : lfLens) (focal aperture distance : float)
      (r : lfLensCalibVignetting) (post : list lfLensCalibVignetting)
      (m : lfVignettingModel) :
  vig_same m LF_VIGNETTING_MODEL_NONE = false ->
  vig_same m (v_Model r) = false ->
  forall (pre : list lfLensCalibVignetting) (st : vig_state),
    vig_latched (vs_vm st) pre = m ->
    vignetting_scan pow l focal aperture distance (pre ++ r :: post) st
    = vignetting_scan pow l focal aperture distance (pre ++ post) st.
Proof.
  intros Hm Hr.
  induction pre as [|x pre IH]; intros st Hlatch; simpl in *.
  - subst m. by rewrite Hm, Hr.
  - destruct (negb _ && negb _) eqn:Hskip.
    + apply IH. apply andb_true_iff in Hskip as [Hl _].
      apply negb_true_iff in Hl. by rewrite Hl in Hlatch.
    + destruct (fltb _ _); [done|]. apply IH. simpl. exact Hlatch.
Qed.

(** The spline interpolators fail on a list that is empty or whose records
    all have model NONE. *)
Lemma spline_interpolators_all_none
      (pow : float -> float -> float) (l : lfLens) (focal : float) :
  (forall res,
      (forall c, c ∈ entries (CalibDistortion l) -> d_Model c = LF_DIST_MODEL_NONE) ->
      InterpolateDistortion pow l focal res = (false, res)) /\
  (forall res,
      (forall c, c ∈ entries (CalibTCA l) -> t_Model c = LF_TCA_MODEL_NONE) ->
      InterpolateTCA pow l focal res = (false, res)) /\
  (forall res,
      (forall c, c ∈ entries (CalibCrop l) -> c_CropMode c = LF_NO_CROP) ->
      InterpolateCrop l focal res = (false, res)).
Proof.
  split; [|split]; intros res Hall.
  - unfold InterpolateDistortion. destruct (CalibDistortion l) as [calib|]; [|done].
    rewrite spline_scan_all_none; [done|].
    intros c Hc. unfold is_none. by rewrite (Hall c Hc).
  - unfold InterpolateTCA. destruct (CalibTCA l) as [calib|]; [|done].
    rewrite spline_scan_all_none; [done|].
    intros c Hc. unfold is_none. by rewrite (Hall c Hc).
  - unfold InterpolateCrop. destruct (CalibCrop l) as [calib|]; [|done].
    rewrite spline_scan_all_none; [done|].
    intros c Hc. unfold is_none. by rewrite (Hall c Hc).
Qed.

(** C5, the vignetting interpolator on a list whose only record has model
    NONE, queried at that record's focal length, aperture and distance: it
    returns true, and that record, whatever [pow] is. *)
Theorem InterpolateVignetting_all_none_succeeds (pow : float -> float -> float) :
  (forall c, c ∈ [Sample.none_50] -> v_Model c = LF_VIGNETTING_MODEL_NONE) /\
  InterpolateVignetting pow (Sample.lens_vig [Sample.none_50])
    (Sample.f 50) Sample.f2_8 (Sample.f 1) Sample.vig_res
  = (true, Sample.none_50).
Proof.
  split.
  - by intros c ->%list_elem_of_singleton.
  - vm_compute. reflexivity.
Qed.

(** A NONE record ahead of a PA record is not skipped either: it enters
    the weighted sum, scaled by its focal length, and the interpolated k1
    at 37 mm is below -7 where both samples have k1 = -0.3. *)
Example InterpolateVignetting_none_before_pa :
  fst (InterpolateVignetting pow_ref (Sample.lens_vig [Sample.none_50; Sample.pa_24])
         (Sample.f 37) Sample.f2_8 (Sample.f 1) Sample.vig_res) = true /\
  (at_ (v_Terms (snd (InterpolateVignetting pow_ref
                        (Sample.lens_vig [Sample.none_50; Sample.pa_24])
                        (Sample.f 37) Sample.f2_8 (Sample.f 1) Sample.vig_res))) 0
   < float_of_int (-7))%flt = true.
Proof. split; reflexivity. Qed.

(** * Further properties *)

(** ** GuessParameters and Check *)

(** GuessParameters fills empty range fields only.  It runs to its end
    whenever it does not call the name parser, and whenever the groups
    that [regexec] reports for the name are non-empty pieces of it of
    fewer than 100 characters; and whenever it runs to its end, a focal or
    aperture field that is not 0 keeps its value, MaxFocal is left empty
    only when MinFocal is, and no other field of the lens changes. *)
Theorem GuessParameters_fills_only_empty
        (regexec : string -> string -> option (list (Z * Z)))
        (atof : string -> double) (l : lfLens) :
  (parses_name regexec l = false \/
   (exists model : string, Model l = Some model /\ groups_fit regexec model = true) ->
   GuessParameters regexec atof l <> None) /\
  forall l' : lfLens,
    GuessParameters regexec atof l = Some l' ->
    (is_zero (MinFocal l) = false -> MinFocal l' = MinFocal l) /\
    (is_zero (MaxFocal l) = false -> MaxFocal l' = MaxFocal l) /\
    (is_zero (MinAperture l) = false -> MinAperture l' = MinAperture l) /\
    (is_zero (MaxAperture l) = false -> MaxAperture l' = MaxAperture l) /\
    (is_zero (MaxFocal l') = true -> MaxFocal l' = MinFocal l') /\
    l' = set_ranges l (MinFocal l') (MaxFocal l') (MinAperture l') (MaxAperture l').
Proof.
  split; [apply GuessParameters_defined|].
  unfold GuessParameters, guessed_bounds.
  - intros l'.
    destruct (if parses_name regexec l then _ else _) as [[[minf0 maxf0] mina0]|];
      [|done].
    simpl.
    match goal with
    | |- Some (fill_ranges l ?b) = _ -> _ => destruct b as [[[minf maxf] mina] maxa]
    end.
    intros [= <-]. unfold fill_ranges.
    cbn [MinFocal MaxFocal MinAperture MaxAperture set_ranges].
    repeat split.
    + apply fill_empty_filled.
    + intros H. rewrite (fill_empty_filled _ _ _ H). by rewrite H.
    + apply fill_empty_filled.
    + apply fill_empty_filled.
    + destruct (is_zero (fill_empty maxf INT_MIN (MaxFocal l))) eqn:E; [done|].
      intros H. congruence.
Qed.

(** Check run on the lens it returns gives the same verdict and the same
    lens: a lens that passed stays valid, one that failed keeps failing.
    A first call that ran to its end makes the second one do so. *)
Theorem Check_stable
        (regexec : string -> string -> option (list (Z * Z)))
        (atof : string -> double) (l l' : lfLens) (verdict : bool) :
  Check regexec atof l = Some (verdict, l') ->
  Check regexec atof l' = Some (verdict, l').
Proof.
  unfold Check.
  destruct (GuessParameters regexec atof l) as [g|] eqn:Hg; [|done].
  apply GuessParameters_idempotent in Hg. simpl. intros Hres.
  assert (g = l') as ->. { destruct (_ || _); congruence. }
  rewrite Hg. simpl. exact Hres.
Qed.

(** ** The order of floats *)

Lemma fltb_irrefl (x : spec_float) : fltb x x = false.
Proof.
  unfold fltb, SFltb.
  destruct x as [s|s| |s m e]; simpl; try done; destruct s; try done;
    by rewrite Z.compare_refl, Pos.compare_cont_refl.
Qed.

Ltac order_cases :=
  repeat match goal with
         | |- context [Z.compare ?a ?b] => destruct (Z.compare_spec a b)
         | |- context [Pos.compare_cont Eq ?a ?b] =>
             change (Pos.compare_cont Eq a b) with (Pos.compare a b);
             destruct (Pos.compare_spec a b)
         end.

Lemma fltb_trans (x y z : spec_float) :
  fltb x y = true -> fltb y z = true -> fltb x z = true.
Proof.
  unfold fltb, SFltb.
  destruct x as [sx|sx| |sx mx ex], y as [sy|sy| |sy my ey], z as [sz|sz| |sz mz ez];
    simpl; try done;
    try (destruct sx; try done); try (destruct sy; try done);
    try (destruct sz; try done);
    order_cases; simpl; try done; intros; subst; lia.
Qed.

Lemma fltb_feqb_r (x y z : spec_float) :
  fltb x y = true -> feqb y z = true -> fltb x z = true.
Proof.
  unfold fltb, feqb, SFltb, SFeqb.
  destruct x as [sx|sx| |sx mx ex], y as [sy|sy| |sy my ey], z as [sz|sz| |sz mz ez];
    simpl; try done;
    try (destruct sx; try done); try (destruct sy; try done);
    try (destruct sz; try done);
    order_cases; simpl; try done; intros; subst; lia.
Qed.

(** ** The bounds GuessParameters reads from the calibration data *)

Lemma lowered_refl (lo : float) : lowered lo lo.
Proof. by left. Qed.

Lemma lowered_trans (a b c : float) : lowered a b -> lowered b c -> lowered a c.
Proof.
  intros [->|Hab] [->|Hbc]; [by left|by right|by right|].
  right. by eapply fltb_trans.
Qed.

Lemma not_below_lowered (k lo' lo : float) :
  lowered lo' lo -> fltb k lo = false -> fltb k lo' = false.
Proof.
  intros [->|Hlow] Hk; [done|].
  destruct (fltb k lo') eqn:E; [|done].
  by rewrite (fltb_trans k lo' lo E Hlow) in Hk.
Qed.

Lemma widen_lowered (f lo hi : float) :
  lowered (fst (widen f (lo, hi))) lo /\ fltb f (fst (widen f (lo, hi))) = false.
Proof.
  unfold widen. cbn [fst]. destruct (fltb f lo) eqn:E.
  - split; [by right|apply fltb_irrefl].
  - split; [by left|done].
Qed.

Lemma widen_all_lowered {T : Type} (key : T -> float) (a : ptr_array T)
      (lo hi : float) :
  lowered (fst (widen_all key a (lo, hi))) lo /\
  forall c : T, c ∈ entries a -> fltb (key c) (fst (widen_all key a (lo, hi))) = false.
Proof.
  destruct a as [l|]; cbn [widen_all entries fst];
    [|split; [apply lowered_refl|intros c Hc; by apply elem_of_nil in Hc]].
  revert lo hi. induction l as [|x l IH]; intros lo hi; cbn [fold_left].
  - split; [apply lowered_refl|intros c Hc; by apply elem_of_nil in Hc].
  - destruct (widen_lowered (key x) lo hi) as [Hlow Hx].
    destruct (widen (key x) (lo, hi)) as [lo1 hi1] eqn:Hw. cbn [fst] in Hlow, Hx.
    destruct (IH lo1 hi1) as [Hlow' Hall]. split.
    + exact (lowered_trans _ _ _ Hlow' Hlow).
    + intros c [->|Hc]%elem_of_cons; [|by apply Hall].
      exact (not_below_lowered _ _ _ Hlow' Hx).
Qed.

Lemma fill_empty_not_below (k bound field : float) :
  is_zero field = true -> fltb k bound = false ->
  fltb k (fill_empty bound INT_MAX field) = false.
Proof.
  intros Hzero Hk. unfold fill_empty. rewrite Hzero, andb_true_r.
  destruct (fneb bound (float_of_int INT_MAX)) eqn:Hs; [done|].
  apply negb_false_iff in Hs.
  destruct (fltb k field) eqn:E; [|done].
  rewrite <- Hk. symmetry.
  apply (fltb_feqb_r k (float_of_int INT_MAX)); [|by apply feqb_sym].
  apply (fltb_trans k fzero); [|done].
  by apply (fltb_feqb_r k field).
Qed.

(** Where the lens comes with MinFocal 0, the MinFocal GuessParameters
    leaves is above no focal length of the calibration data; where it
    comes with MinAperture 0, the MinAperture it leaves is above no
    aperture of the vignetting data. *)
Theorem GuessParameters_min_bounds
        (regexec : string -> string -> option (list (Z * Z)))
        (atof : string -> double) (l l' : lfLens) :
  GuessParameters regexec atof l = Some l' ->
  (is_zero (MinFocal l) = true ->
   (forall c, c ∈ entries (CalibDistortion l) ->
              (d_Focal c < MinFocal l')%flt = false) /\
   (forall c, c ∈ entries (CalibTCA l) ->
              (t_Focal c < MinFocal l')%flt = false) /\
   (forall c, c ∈ entries (CalibVignetting l) ->
              (v_Focal c < MinFocal l')%flt = false) /\
   (forall c, c ∈ entries (CalibCrop l) ->
              (c_Focal c < MinFocal l')%flt = false) /\
   (forall c, c ∈ entries (CalibFov l) ->
              (f_Focal c < MinFocal l')%flt = false)) /\
  (is_zero (MinAperture l) = true ->
   forall c, c ∈ entries (CalibVignetting l) ->
             (v_Aperture c < MinAperture l')%flt = false).
Proof.
  assert (forall minf0 maxf0 mina0 maxa0 : float,
    let gb :=
      if is_zero (MinAperture l) || is_zero (MinFocal l) then
        let '(minf, maxf) := widen_all d_Focal (CalibDistortion l) (minf0, maxf0) in
        let '(minf, maxf) := widen_all t_Focal (CalibTCA l) (minf, maxf) in
        let '(minf, maxf) := widen_all v_Focal (CalibVignetting l) (minf, maxf) in
        let '(mina, maxa) :=
          widen_all v_Aperture (CalibVignetting l) (mina0, maxa0) in
        let '(minf, maxf) := widen_all c_Focal (CalibCrop l) (minf, maxf) in
        let '(minf, maxf) := widen_all f_Focal (CalibFov l) (minf, maxf) in
        (minf, maxf, mina, maxa)
      else (minf0, maxf0, mina0, maxa0) in
    (is_zero (MinFocal l) = true ->
     (forall c, c ∈ entries (CalibDistortion l) ->
                (d_Focal c < fill_empty gb.1.1.1 INT_MAX (MinFocal l))%flt = false) /\
     (forall c, c ∈ entries (CalibTCA l) ->
                (t_Focal c < fill_empty gb.1.1.1 INT_MAX (MinFocal l))%flt = false) /\
     (forall c, c ∈ entries (CalibVignetting l) ->
                (v_Focal c < fill_empty gb.1.1.1 INT_MAX (MinFocal l))%flt = false) /\
     (forall c, c ∈ entries (CalibCrop l) ->
                (c_Focal c < fill_empty gb.1.1.1 INT_MAX (MinFocal l))%flt = false) /\
     (forall c, c ∈ entries (CalibFov l) ->
                (f_Focal c < fill_empty gb.1.1.1 INT_MAX (MinFocal l))%flt = false)) /\
    (is_zero (MinAperture l) = true ->
     forall c, c ∈ entries (CalibVignetting l) ->
               (v_Aperture c < fill_empty gb.1.2 INT_MAX (MinAperture l))%flt = false))
    as Hchain.
  { intros minf0 maxf0 mina0 maxa0.
    destruct (widen_all_lowered d_Focal (CalibDistortion l) minf0 maxf0) as [L1 K1].
    destruct (widen_all d_Focal (CalibDistortion l) (minf0, maxf0)) as [m1 M1].
    destruct (widen_all_lowered t_Focal (CalibTCA l) m1 M1) as [L2 K2].
    destruct (widen_all t_Focal (CalibTCA l) (m1, M1)) as [m2 M2].
    destruct (widen_all_lowered v_Focal (CalibVignetting l) m2 M2) as [L3 K3].
    destruct (widen_all v_Focal (CalibVignetting l) (m2, M2)) as [m3 M3].
    destruct (widen_all_lowered v_Aperture (CalibVignetting l) mina0 maxa0)
      as [La Ka].
    destruct (widen_all v_Aperture (CalibVignetting l) (mina0, maxa0)) as [a1 A1].
    destruct (widen_all_lowered c_Focal (CalibCrop l) m3 M3) as [L4 K4].
    destruct (widen_all c_Focal (CalibCrop l) (m3, M3)) as [m4 M4].
    destruct (widen_all_lowered f_Focal (CalibFov l) m4 M4) as [L5 K5].
    destruct (widen_all f_Focal (CalibFov l) (m4, M4)) as [m5 M5].
    cbn [fst] in *. cbv zeta. split.
    - intros Hzero. rewrite Hzero, orb_true_r. cbn [fst snd].
      repeat split; intros c Hc; apply fill_empty_not_below; try done.
      + apply (not_below_lowered _ m5 m1); [|by apply K1].
        eauto using lowered_trans.
      + apply (not_below_lowered _ m5 m2); [|by apply K2].
        eauto using lowered_trans.
      + apply (not_below_lowered _ m5 m3); [|by apply K3].
        eauto using lowered_trans.
      + apply (not_below_lowered _ m5 m4); [|by apply K4]. done.
      + by apply K5.
    - intros Hzero. rewrite Hzero, orb_true_l. cbn [fst snd].
      intros c Hc. apply fill_empty_not_below; [done|]. by apply Ka. }
  unfold GuessParameters, guessed_bounds.
  destruct (if parses_name regexec l then _ else _) as [[[minf0 maxf0] mina0]|];
    [|done].
  cbv beta iota zeta delta [mbind option_bind]. intros [= <-]. unfold fill_ranges.
  match goal with
  | |- context [widen_all v_Aperture _ (_, ?maxa0)] =>
      specialize (Hchain minf0 maxf0 mina0 maxa0)
  end.
  cbv zeta in Hchain.
  destruct (is_zero (MinAperture l) || is_zero (MinFocal l));
    [|cbn [MinFocal MinAperture set_ranges fst snd] in *; exact Hchain].
  repeat match goal with
         | |- context [widen_all ?k ?a ?p] => destruct (widen_all k a p)
         end.
  cbn [MinFocal MinAperture set_ranges fst snd] in *. exact Hchain.
Qed.

Lemma GuessParameters_min_bounds_witness :
  exists l' : lfLens,
    GuessParameters Fixture.regexec_24_70 Fixture.atof_whole
      (Fixture.lens_named Fixture.name_24_70
         (Some [Sample.poly5_24; Sample.poly5_70])) = Some l' /\
    MinFocal l' = Sample.f 24 /\
    (d_Focal Sample.poly5_70 < MinFocal l')%flt = false.
Proof.
  eexists. split; [reflexivity|]. split; [reflexivity|].
  eapply (proj1 (proj1 (GuessParameters_min_bounds Fixture.regexec_24_70
                          Fixture.atof_whole
                          (Fixture.lens_named Fixture.name_24_70
                             (Some [Sample.poly5_24; Sample.poly5_70])) _
                          eq_refl)
                   eq_refl)).
  apply elem_of_cons. right. apply elem_of_cons. by left.
Defined.

(** ** What the slots hold after a scan *)

Section SlotFacts.
Context {T : Type}.
Variable focal_of : T -> float.
Variable focal : float.

Lemma slots_inv_init : slots_inv focal_of focal (fun _ => False) spline_null spline_dist_init.
Proof. unfold slots_inv; simpl. repeat split; try done; by intros r []. Qed.

Lemma slots_inv_ext (seen seen' : T -> Prop) spline spline_dist :
  (forall r : T, seen r <-> seen' r) ->
  slots_inv focal_of focal seen spline spline_dist -> slots_inv focal_of focal seen' spline spline_dist.
Proof.
  intros Hext (H1 & H2 & H0 & H3). unfold slots_inv.
  split; [|split; [|split]].
  - destruct (q1 spline) as [s|].
    + destruct H1 as [(Hs & Hneg & Hreach & Hnear) Hd]. split; [|done].
      split; [by apply Hext|]. split; [done|]. split; [done|].
      intros r Hr. apply Hnear. by apply Hext.
    + destruct H1 as [Hnone Hd]. split; [|done].
      intros r Hr. apply Hnone. by apply Hext.
  - destruct (q2 spline) as [s|].
    + destruct H2 as [(Hs & Hneg & Hreach & Hnear) Hd]. split; [|done].
      split; [by apply Hext|]. split; [done|]. split; [done|].
      intros r Hr. apply Hnear. by apply Hext.
    + destruct H2 as [Hnone Hd]. split; [|done].
      intros r Hr. apply Hnone. by apply Hext.
  - intros s Hs. apply Hext. by apply H0.
  - intros s Hs. apply Hext. by apply H3.
Qed.

(** No seen record below 0 lies above the distance held for slot 1, and
    none of the others lies below the distance held for slot 2. *)
Lemma slots_inv_bound_neg seen spline spline_dist (r : T) :
  slots_inv focal_of focal seen spline spline_dist -> seen r ->
  (focal - focal_of r < float_of_int 0)%flt = true ->
  (focal - focal_of r > q1 spline_dist)%flt = false.
Proof.
  intros (H1 & _) Hr Hneg. destruct (q1 spline) as [s|].
  - destruct H1 as [(_ & _ & _ & Hnear) ->]. by apply Hnear.
  - destruct H1 as [Hnone ->]. by apply Hnone.
Qed.

Lemma slots_inv_bound_pos seen spline spline_dist (r : T) :
  slots_inv focal_of focal seen spline spline_dist -> seen r ->
  (focal - focal_of r < float_of_int 0)%flt = false ->
  (focal - focal_of r < q2 spline_dist)%flt = false.
Proof.
  intros (_ & H2 & _) Hr Hneg. destruct (q2 spline) as [s|].
  - destruct H2 as [(_ & _ & _ & Hnear) ->]. by apply Hnear.
  - destruct H2 as [Hnone ->]. by apply Hnone.
Qed.

Lemma slots_inv_weaken_neg seen spline spline_dist (x : T) :
  (focal - focal_of x < float_of_int 0)%flt = true ->
  (focal - focal_of x > q1 spline_dist)%flt = false ->
  match q1 spline with
  | Some s => nearest_neg focal_of focal seen s /\
              q1 spline_dist = (focal - focal_of s)%flt
  | None => none_neg focal_of focal seen /\ q1 spline_dist = SFopp FLT_MAX
  end ->
  match q1 spline with
  | Some s => nearest_neg focal_of focal (fun r => seen r \/ r = x) s /\
              q1 spline_dist = (focal - focal_of s)%flt
  | None => none_neg focal_of focal (fun r => seen r \/ r = x) /\
            q1 spline_dist = SFopp FLT_MAX
  end.
Proof.
  intros Hneg Hfar. destruct (q1 spline) as [s|].
  - intros [(Hs & Hsneg & Hreach & Hnear) Hd]. split; [|done].
    split; [by left|]. split; [done|]. split; [done|].
    intros r [Hr| ->] Hrneg; [by apply Hnear|]. by rewrite <- Hd.
  - intros [Hnone Hd]. split; [|done].
    intros r [Hr| ->] Hrneg; [by apply Hnone|]. by rewrite <- Hd.
Qed.

Lemma slots_inv_weaken_pos seen spline spline_dist (x : T) :
  (focal - focal_of x < float_of_int 0)%flt = false ->
  (focal - focal_of x < q2 spline_dist)%flt = false ->
  match q2 spline with
  | Some s => nearest_pos focal_of focal seen s /\
              q2 spline_dist = (focal - focal_of s)%flt
  | None => none_pos focal_of focal seen /\ q2 spline_dist = FLT_MAX
  end ->
  match q2 spline with
  | Some s => nearest_pos focal_of focal (fun r => seen r \/ r = x) s /\
              q2 spline_dist = (focal - focal_of s)%flt
  | None => none_pos focal_of focal (fun r => seen r \/ r = x) /\
            q2 spline_dist = FLT_MAX
  end.
Proof.
  intros Hneg Hfar. destruct (q2 spline) as [s|].
  - intros [(Hs & Hsneg & Hreach & Hnear) Hd]. split; [|done].
    split; [by left|]. split; [done|]. split; [done|].
    intros r [Hr| ->] Hrneg; [by apply Hnear|]. by rewrite <- Hd.
  - intros [Hnone Hd]. split; [|done].
    intros r [Hr| ->] Hrneg; [by apply Hnone|]. by rewrite <- Hd.
Qed.

(** A record of the other side does not disturb a slot. *)
Lemma slots_inv_other_neg seen spline spline_dist (x : T) :
  (focal - focal_of x < float_of_int 0)%flt = false ->
  match q1 spline with
  | Some s => nearest_neg focal_of focal seen s /\
              q1 spline_dist = (focal - focal_of s)%flt
  | None => none_neg focal_of focal seen /\ q1 spline_dist = SFopp FLT_MAX
  end ->
  match q1 spline with
  | Some s => nearest_neg focal_of focal (fun r => seen r \/ r = x) s /\
              q1 spline_dist = (focal - focal_of s)%flt
  | None => none_neg focal_of focal (fun r => seen r \/ r = x) /\
            q1 spline_dist = SFopp FLT_MAX
  end.
Proof.
  intros Hneg. destruct (q1 spline) as [s|].
  - intros [(Hs & Hsneg & Hreach & Hnear) Hd]. split; [|done].
    split; [by left|]. split; [done|]. split; [done|].
    intros r [Hr| ->] Hrneg; [by apply Hnear|]. congruence.
  - intros [Hnone Hd]. split; [|done].
    intros r [Hr| ->] Hrneg; [by apply Hnone|]. congruence.
Qed.

Lemma slots_inv_other_pos seen spline spline_dist (x : T) :
  (focal - focal_of x < float_of_int 0)%flt = true ->
  match q2 spline with
  | Some s => nearest_pos focal_of focal seen s /\
              q2 spline_dist = (focal - focal_of s)%flt
  | None => none_pos focal_of focal seen /\ q2 spline_dist = FLT_MAX
  end ->
  match q2 spline with
  | Some s => nearest_pos focal_of focal (fun r => seen r \/ r = x) s /\
              q2 spline_dist = (focal - focal_of s)%flt
  | None => none_pos focal_of focal (fun r => seen r \/ r = x) /\
            q2 spline_dist = FLT_MAX
  end.
Proof.
  intros Hneg. destruct (q2 spline) as [s|].
  - intros [(Hs & Hsneg & Hreach & Hnear) Hd]. split; [|done].
    split; [by left|]. split; [done|]. split; [done|].
    intros r [Hr| ->] Hrneg; [by apply Hnear|]. congruence.
  - intros [Hnone Hd]. split; [|done].
    intros r [Hr| ->] Hrneg; [by apply Hnone|]. congruence.
Qed.

(** One [__insert_spline] keeps the slots in that state. *)
Lemma insert_spline_slots_inv seen spline spline_dist (x : T) :
  slots_inv focal_of focal seen spline spline_dist ->
  slots_inv focal_of focal (fun r => seen r \/ r = x)
            (snd (fst (__insert_spline spline spline_dist (focal - focal_of x)%flt x)))
            (snd (__insert_spline spline spline_dist (focal - focal_of x)%flt x)).
Proof.
  intros Hinv.
  pose proof (fun r => slots_inv_bound_neg seen spline spline_dist r Hinv) as Hbn.
  pose proof (fun r => slots_inv_bound_pos seen spline spline_dist r Hinv) as Hbp.
  destruct Hinv as (H1 & H2 & H0 & H3).
  unfold __insert_spline.
  destruct (focal - focal_of x < float_of_int 0)%flt eqn:Hneg.
  - destruct (focal - focal_of x > q1 spline_dist)%flt eqn:Hgt1; simpl.
    + split; [|split; [|split]]; simpl.
      * split; [|done]. split; [by right|]. split; [done|].
        split.
        { destruct (q1 spline) as [s|].
          - destruct H1 as [(_ & _ & Hreach & _) Hd]. rewrite Hd in Hgt1.
            by apply (fltb_trans _ (focal - focal_of s)%flt).
          - destruct H1 as [_ Hd]. by rewrite Hd in Hgt1. }
        intros r [Hr| ->] Hrneg; [|apply fltb_irrefl].
        destruct (focal - focal_of r > focal - focal_of x)%flt eqn:Hcloser; [|done].
        rewrite <- (Hbn r Hr Hrneg). symmetry.
        by apply (fltb_trans _ (focal - focal_of x)%flt).
      * by apply slots_inv_other_pos.
      * intros s Hs. left. rewrite Hs in H1. by destruct H1 as [(? & _) _].
      * intros s Hs. left. by apply H3.
    + destruct (focal - focal_of x > q0 spline_dist)%flt eqn:Hgt0; simpl.
      * split; [|split; [|split]]; simpl.
        -- by apply slots_inv_weaken_neg.
        -- by apply slots_inv_other_pos.
        -- intros s [= <-]. by right.
        -- intros s Hs. left. by apply H3.
      * split; [|split; [|split]].
        -- by apply slots_inv_weaken_neg.
        -- by apply slots_inv_other_pos.
        -- intros s Hs. left. by apply H0.
        -- intros s Hs. left. by apply H3.
  - destruct (focal - focal_of x < q2 spline_dist)%flt eqn:Hlt2; simpl.
    + split; [|split; [|split]]; simpl.
      * by apply slots_inv_other_neg.
      * split; [|done]. split; [by right|]. split; [done|].
        split.
        { destruct (q2 spline) as [s|].
          - destruct H2 as [(_ & _ & Hreach & _) Hd]. rewrite Hd in Hlt2.
            by apply (fltb_trans _ (focal - focal_of s)%flt).
          - destruct H2 as [_ Hd]. by rewrite Hd in Hlt2. }
        intros r [Hr| ->] Hrneg; [|apply fltb_irrefl].
        destruct (focal - focal_of r < focal - focal_of x)%flt eqn:Hcloser; [|done].
        rewrite <- (Hbp r Hr Hrneg). symmetry.
        by apply (fltb_trans _ (focal - focal_of x)%flt).
      * intros s Hs. left. by apply H0.
      * intros s Hs. left. rewrite Hs in H2. by destruct H2 as [(? & _) _].
    + destruct (focal - focal_of x < q3 spline_dist)%flt eqn:Hlt3; simpl.
      * split; [|split; [|split]]; simpl.
        -- by apply slots_inv_other_neg.
        -- by apply slots_inv_weaken_pos.
        -- intros s Hs. left. by apply H0.
        -- intros s [= <-]. by right.
      * split; [|split; [|split]].
        -- by apply slots_inv_other_neg.
        -- by apply slots_inv_weaken_pos.
        -- intros s Hs. left. by apply H0.
        -- intros s Hs. left. by apply H3.
Qed.

End SlotFacts.

Lemma fltb_asym (x y : spec_float) : fltb x y = true -> fltb y x = false.
Proof.
  intros Hxy. destruct (fltb y x) eqn:Hyx; [|done].
  by rewrite <- (fltb_irrefl x), (fltb_trans x y x).
Qed.

Section OuterFacts.
Context {T : Type}.
Variable focal_of : T -> float.
Variable focal : float.

Lemma outer_inv_init :
  outer_inv focal_of focal (fun _ => False) spline_null spline_dist_init.
Proof. by unfold outer_inv. Qed.

Lemma runner_up_neg_ext (seen seen' : T -> Prop) (s1 : T) (o : option T) :
  (forall r : T, seen r <-> seen' r) ->
  runner_up_neg focal_of focal seen s1 o -> runner_up_neg focal_of focal seen' s1 o.
Proof.
  intros Hext. destruct o as [s0|]; simpl.
  - intros (Hs & Hneg & Hreach & Hfar & Hnext).
    split; [by apply Hext|]. do 3 (split; [done|]).
    intros r Hr. apply Hnext. by apply Hext.
  - intros Hone r Hr. apply Hone. by apply Hext.
Qed.

Lemma runner_up_pos_ext (seen seen' : T -> Prop) (s2 : T) (o : option T) :
  (forall r : T, seen r <-> seen' r) ->
  runner_up_pos focal_of focal seen s2 o -> runner_up_pos focal_of focal seen' s2 o.
Proof.
  intros Hext. destruct o as [s3|]; simpl.
  - intros (Hs & Hneg & Hreach & Hfar & Hnext).
    split; [by apply Hext|]. do 3 (split; [done|]).
    intros r Hr. apply Hnext. by apply Hext.
  - intros Hone r Hr. apply Hone. by apply Hext.
Qed.

Lemma outer_inv_ext (seen seen' : T -> Prop) spline spline_dist :
  (forall r : T, seen r <-> seen' r) ->
  outer_inv focal_of focal seen spline spline_dist ->
  outer_inv focal_of focal seen' spline spline_dist.
Proof.
  intros Hext (H0 & Hd0 & H3 & Hd3). unfold outer_inv.
  split; [|split; [done|split; [|done]]].
  - destruct (q1 spline); [|done]. by apply (runner_up_neg_ext seen).
  - destruct (q2 spline); [|done]. by apply (runner_up_pos_ext seen).
Qed.

(** A record that does not go into a slot of its side leaves the outer
    slot of that side as it is; so does any record of the other side. *)
Lemma runner_up_neg_keep (seen : T -> Prop) (s1 x : T) (o : option T) :
  ((focal - focal_of x < float_of_int 0)%flt = true ->
   (focal - focal_of x
    > slot_or o (fun s => (focal - focal_of s)%flt) (SFopp FLT_MAX))%flt = false) ->
  runner_up_neg focal_of focal seen s1 o ->
  runner_up_neg focal_of focal (fun r => seen r \/ r = x) s1 o.
Proof.
  intros Hx. destruct o as [s0|]; simpl in *.
  - intros (Hs & Hneg & Hreach & Hfar & Hnext).
    split; [by left|]. do 3 (split; [done|]).
    intros r [Hr| ->] Hrneg Hgt; [by apply Hnext|]. by rewrite Hx in Hgt.
  - intros Hone r [Hr| ->] Hrneg Hgt; [by apply Hone|]. by rewrite Hx in Hgt.
Qed.

Lemma runner_up_pos_keep (seen : T -> Prop) (s2 x : T) (o : option T) :
  ((focal - focal_of x < float_of_int 0)%flt = false ->
   (focal - focal_of x
    < slot_or o (fun s => (focal - focal_of s)%flt) FLT_MAX)%flt = false) ->
  runner_up_pos focal_of focal seen s2 o ->
  runner_up_pos focal_of focal (fun r => seen r \/ r = x) s2 o.
Proof.
  intros Hx. destruct o as [s3|]; simpl in *.
  - intros (Hs & Hneg & Hreach & Hfar & Hnext).
    split; [by left|]. do 3 (split; [done|]).
    intros r [Hr| ->] Hrneg Hlt; [by apply Hnext|]. by rewrite Hx in Hlt.
  - intros Hone r [Hr| ->] Hrneg Hlt; [by apply Hone|]. by rewrite Hx in Hlt.
Qed.

(** One [__insert_spline] keeps the outer slots in that state. *)
Lemma insert_spline_outer_inv seen spline spline_dist (x : T) :
  slots_inv focal_of focal seen spline spline_dist ->
  outer_inv focal_of focal seen spline spline_dist ->
  outer_inv focal_of focal (fun r => seen r \/ r = x)
            (snd (fst (__insert_spline spline spline_dist (focal - focal_of x)%flt x)))
            (snd (__insert_spline spline spline_dist (focal - focal_of x)%flt x)).
Proof.
  intros (H1 & H2 & _) (H0 & Hd0 & H3 & Hd3).
  unfold __insert_spline.
  destruct (focal - focal_of x < float_of_int 0)%flt eqn:Hneg.
  - assert (match q2 spline with
            | Some s2 => runner_up_pos focal_of focal (fun r => seen r \/ r = x) s2 (q3 spline)
            | None => q3 spline = None
            end) as H3'.
    { destruct (q2 spline); [|done]. apply runner_up_pos_keep; [congruence|done]. }
    destruct (focal - focal_of x > q1 spline_dist)%flt eqn:Hgt1; cbn [fst snd].
    + split; [|split; [|split; [done|done]]]; cbn [q0 q1 q2 q3].
      * destruct (q1 spline) as [s1|]; cbn [runner_up_neg runner_up_pos slot_or].
        -- destruct H1 as [(Hs & Hsneg & Hreach & Hnear) Hd]. rewrite Hd in Hgt1.
           split; [by left|]. do 2 (split; [done|]).
           split; [by apply fltb_asym|].
           intros r [Hr| ->] Hrneg Hgt; [|done].
           by rewrite (Hnear r Hr Hrneg) in Hgt.
        -- destruct H1 as [Hnone Hd].
           intros r [Hr| ->] Hrneg Hgt; [|done].
           by rewrite (Hnone r Hr Hrneg) in Hgt.
      * destruct (q1 spline) as [s1|]; cbn [runner_up_neg runner_up_pos slot_or]; by destruct H1 as [_ ->].
    + destruct (focal - focal_of x > q0 spline_dist)%flt eqn:Hgt0; cbn [fst snd].
      * split; [|split; [|split; [done|done]]]; cbn [q0 q1 q2 q3]; [|done].
        destruct (q1 spline) as [s1|].
        -- destruct H1 as [_ Hd]. rewrite Hd in Hgt1. cbn [runner_up_neg runner_up_pos slot_or].
           split; [by right|]. split; [done|].
           split.
           { rewrite Hd0 in Hgt0. destruct (q0 spline) as [s0|]; cbn [slot_or] in Hgt0; [|done].
             destruct H0 as (_ & _ & Hreach & _).
             by apply (fltb_trans _ (focal - focal_of s0)%flt). }
           split; [done|].
           intros r [Hr| ->] Hrneg Hgt; [|unfold fgtb in Hgt; by rewrite fltb_irrefl in Hgt].
           assert ((focal - focal_of r > q0 spline_dist)%flt = true) as Hgt'.
           { by apply (fltb_trans _ (focal - focal_of x)%flt). }
           rewrite Hd0 in Hgt'. destruct (q0 spline) as [s0|]; cbn [slot_or] in Hgt'.
           ++ destruct H0 as (_ & _ & _ & _ & Hnext). by apply Hnext.
           ++ by apply H0.
        -- destruct H1 as [_ Hd]. rewrite H0 in Hd0. cbn [slot_or] in Hd0. congruence.
      * split; [|split; [done|split; [done|done]]].
        destruct (q1 spline) as [s1|]; [|done].
        apply runner_up_neg_keep; [|done]. intros _. by rewrite <- Hd0.
  - assert (match q1 spline with
            | Some s1 => runner_up_neg focal_of focal (fun r => seen r \/ r = x) s1 (q0 spline)
            | None => q0 spline = None
            end) as H0'.
    { destruct (q1 spline); [|done]. apply runner_up_neg_keep; [congruence|done]. }
    destruct (focal - focal_of x < q2 spline_dist)%flt eqn:Hlt2; cbn [fst snd].
    + split; [done|split; [done|split]]; cbn [q0 q1 q2 q3].
      * destruct (q2 spline) as [s2|]; cbn [runner_up_neg runner_up_pos slot_or].
        -- destruct H2 as [(Hs & Hsneg & Hreach & Hnear) Hd]. rewrite Hd in Hlt2.
           split; [by left|]. do 2 (split; [done|]).
           split; [by apply fltb_asym|].
           intros r [Hr| ->] Hrneg Hlt; [|done].
           by rewrite (Hnear r Hr Hrneg) in Hlt.
        -- destruct H2 as [Hnone Hd].
           intros r [Hr| ->] Hrneg Hlt; [|done].
           by rewrite (Hnone r Hr Hrneg) in Hlt.
      * destruct (q2 spline) as [s2|]; cbn [runner_up_neg runner_up_pos slot_or]; by destruct H2 as [_ ->].
    + destruct (focal - focal_of x < q3 spline_dist)%flt eqn:Hlt3; cbn [fst snd].
      * split; [done|split; [done|split]]; cbn [q0 q1 q2 q3]; [|done].
        destruct (q2 spline) as [s2|].
        -- destruct H2 as [_ Hd]. rewrite Hd in Hlt2. cbn [runner_up_neg runner_up_pos slot_or].
           split; [by right|]. split; [done|].
           split.
           { rewrite Hd3 in Hlt3. destruct (q3 spline) as [s3|]; cbn [slot_or] in Hlt3; [|done].
             destruct H3 as (_ & _ & Hreach & _).
             by apply (fltb_trans _ (focal - focal_of s3)%flt). }
           split; [done|].
           intros r [Hr| ->] Hrneg Hlt; [|by rewrite fltb_irrefl in Hlt].
           assert ((focal - focal_of r < q3 spline_dist)%flt = true) as Hlt'.
           { by apply (fltb_trans _ (focal - focal_of x)%flt). }
           rewrite Hd3 in Hlt'. destruct (q3 spline) as [s3|]; cbn [slot_or] in Hlt'.
           ++ destruct H3 as (_ & _ & _ & _ & Hnext). by apply Hnext.
           ++ by apply H3.
        -- destruct H2 as [_ Hd]. rewrite H3 in Hd3. cbn [slot_or] in Hd3. congruence.
      * split; [done|split; [done|split; [|done]]].
        destruct (q2 spline) as [s2|]; [|done].
        apply runner_up_pos_keep; [|done]. intros _. by rewrite <- Hd3.
Qed.

End OuterFacts.


Section ScanFacts.
Context {T M : Type}.
Variable model_of : T -> M.
Variable focal_of : T -> float.
Variable model_int : M -> Z.
Variable focal : float.

Lemma latched_model_None (calib : list T) (c : T) :
  latched_model model_of model_int calib = None -> c ∈ calib ->
  is_none model_int (model_of c) = true.
Proof.
  unfold latched_model. destruct (find _ calib) eqn:Hfind; [done|].
  intros _ Hc. apply list_elem_of_In in Hc.
  pose proof (find_none _ _ Hfind c Hc) as H. by apply negb_false_iff in H.
Qed.

Lemma latched_model_cons_none (c : T) (calib : list T) :
  is_none model_int (model_of c) = true ->
  latched_model model_of model_int (c :: calib) = latched_model model_of model_int calib.
Proof. intros H. unfold latched_model. simpl. by rewrite H. Qed.

Lemma latched_model_cons_some (c : T) (calib : list T) :
  is_none model_int (model_of c) = false ->
  latched_model model_of model_int (c :: calib) = Some (model_of c).
Proof. intros H. unfold latched_model. simpl. by rewrite H. Qed.

Lemma in_family_cons_skip (m : M) (c : T) (calib : list T) (r : T) :
  (is_none model_int (model_of c) = true \/
   same_model model_int m (model_of c) = false) ->
  in_family model_of model_int m (c :: calib) r
  <-> in_family model_of model_int m calib r.
Proof.
  intros Hskip. unfold in_family. split.
  - intros (Hin & Hn & Hs). apply elem_of_cons in Hin as [->|Hin]; [|done].
    destruct Hskip; congruence.
  - intros (Hin & Hn & Hs). split; [by right|done].
Qed.

Lemma in_family_cons_take (m : M) (c : T) (calib : list T) (r : T) :
  is_none model_int (model_of c) = false ->
  same_model model_int m (model_of c) = true ->
  in_family model_of model_int m (c :: calib) r
  <-> (r = c \/ in_family model_of model_int m calib r).
Proof.
  intros Hn Hs. unfold in_family. split.
  - intros (Hin & Hn' & Hs'). apply elem_of_cons in Hin as [->|Hin]; [by left|by right].
  - intros [->|(Hin & Hn' & Hs')]; [split; [by left|done]|split; [by right|done]].
Qed.

(** A scan that runs to the end has put every record of the latched
    family through [__insert_spline], and none of them matched exactly. *)
Lemma spline_scan_scanned (calib : list T) :
  forall (dm0 : M) (seen : T -> Prop) (spline : quad (option T)) (spline_dist : quad float)
         (dm' : M) (spline' : quad (option T)) (spline_dist' : quad float),
    slots_inv focal_of focal seen spline spline_dist ->
    spline_scan model_of focal_of model_int focal calib dm0 spline spline_dist
    = Scanned dm' spline' spline_dist' ->
    (if is_none model_int dm0
     then latched_model model_of model_int calib = Some dm' \/
          (latched_model model_of model_int calib = None /\ dm' = dm0)
     else dm' = dm0) /\
    slots_inv focal_of focal
      (fun r => seen r \/ in_family model_of model_int dm' calib r) spline' spline_dist' /\
    (forall r : T, in_family model_of model_int dm' calib r ->
                   exact_focal focal (focal_of r) = false).
Proof.
  induction calib as [|c calib IH];
    intros dm0 seen spline spline_dist dm' spline' spline_dist' Hinv; simpl.
  - intros [= <- <- <-]. split; [|split].
    + destruct (is_none model_int dm0); [by right|done].
    + eapply slots_inv_ext; [|exact Hinv].
      intros r. split; [by left|]. intros [Hr|(Hin & _)]; [done|].
      by apply elem_of_nil in Hin.
    + intros r (Hin & _). by apply elem_of_nil in Hin.
  - destruct (is_none model_int (model_of c)) eqn:Hc.
    { intros Hscan. destruct (IH _ _ _ _ _ _ _ Hinv Hscan) as (Hforce & Hinv' & Hex).
      split; [|split].
      - by rewrite latched_model_cons_none.
      - eapply slots_inv_ext; [|exact Hinv']. intros r. simpl.
        rewrite in_family_cons_skip; [done|by left].
      - intros r Hr. apply Hex. revert Hr. rewrite in_family_cons_skip; [done|by left]. }
    destruct (negb (is_none model_int dm0) && negb (same_model model_int dm0 (model_of c)))
      eqn:Hskip.
    { apply andb_true_iff in Hskip as [Hdm0 Hother].
      apply negb_true_iff in Hdm0, Hother.
      intros Hscan. destruct (IH _ _ _ _ _ _ _ Hinv Hscan) as (Hforce & Hinv' & Hex).
      rewrite Hdm0 in Hforce |- *. subst dm'. split; [done|]. split.
      - eapply slots_inv_ext; [|exact Hinv']. intros r. simpl.
        rewrite in_family_cons_skip; [done|by right].
      - intros r Hr. apply Hex. revert Hr. rewrite in_family_cons_skip; [done|by right]. }
    set (dm := if is_none model_int dm0 then model_of c else dm0).
    assert (is_none model_int dm = false) as Hdm.
    { subst dm. by destruct (is_none model_int dm0) eqn:E. }
    assert (same_model model_int dm (model_of c) = true) as Hsame.
    { subst dm. destruct (is_none model_int dm0) eqn:E; [apply same_model_refl|].
      simpl in Hskip. by apply negb_false_iff in Hskip. }
    destruct (to_double (focal - focal_of c) == d_zero)%flt eqn:Hexact;
      [intros; discriminate|].
    pose proof (insert_spline_slots_inv focal_of focal seen spline spline_dist c Hinv)
      as Hins.
    destruct (__insert_spline spline spline_dist (focal - focal_of c)%flt c)
      as [[k spline1] spline_dist1]. simpl in Hins.
    intros Hscan. destruct (IH _ _ _ _ _ _ _ Hins Hscan) as (Hforce & Hinv' & Hex).
    rewrite Hdm in Hforce. subst dm'. split; [|split].
    + destruct (is_none model_int dm0) eqn:E; [|done]. left.
      by rewrite latched_model_cons_some.
    + eapply slots_inv_ext; [|exact Hinv']. intros r. simpl.
      rewrite in_family_cons_take by done. tauto.
    + intros r Hr. apply (in_family_cons_take dm c calib r Hc Hsame) in Hr as [->|Hr];
        [exact Hexact|by apply Hex].
Qed.

(** A scan that stops early stops at a record of the latched family whose
    focal difference compares equal to 0. *)
Lemma spline_scan_stopped (calib : list T) :
  forall (dm0 : M) (spline : quad (option T)) (spline_dist : quad float) (c : T),
    spline_scan model_of focal_of model_int focal calib dm0 spline spline_dist
    = ExactMatch c ->
    exists m : M,
      (if is_none model_int dm0
       then latched_model model_of model_int calib = Some m else m = dm0) /\
      in_family model_of model_int m calib c /\
      exact_focal focal (focal_of c) = true.
Proof.
  induction calib as [|x calib IH]; intros dm0 spline spline_dist c; simpl; [done|].
  destruct (is_none model_int (model_of x)) eqn:Hx.
  { intros Hscan. destruct (IH _ _ _ _ Hscan) as (m & Hm & Hfam & Hex).
    exists m. split; [|split; [|done]].
    - by rewrite latched_model_cons_none.
    - apply in_family_cons_skip; [by left|done]. }
  destruct (negb (is_none model_int dm0) && negb (same_model model_int dm0 (model_of x)))
    eqn:Hskip.
  { apply andb_true_iff in Hskip as [Hdm0 Hother].
    apply negb_true_iff in Hdm0, Hother.
    intros Hscan. destruct (IH _ _ _ _ Hscan) as (m & Hm & Hfam & Hex).
    rewrite Hdm0 in Hm |- *. subst m. exists dm0. split; [done|]. split; [|done].
    apply in_family_cons_skip; [by right|done]. }
  set (dm := if is_none model_int dm0 then model_of x else dm0).
  assert (is_none model_int dm = false) as Hdm.
  { subst dm. by destruct (is_none model_int dm0) eqn:E. }
  assert (same_model model_int dm (model_of x) = true) as Hsame.
  { subst dm. destruct (is_none model_int dm0) eqn:E; [apply same_model_refl|].
    simpl in Hskip. by apply negb_false_iff in Hskip. }
  assert (if is_none model_int dm0
          then latched_model model_of model_int (x :: calib) = Some dm else dm = dm0)
    as Hforce.
  { subst dm. destruct (is_none model_int dm0) eqn:E; [|done].
    by rewrite latched_model_cons_some. }
  destruct (to_double (focal - focal_of x) == d_zero)%flt eqn:Hexact.
  - intros [= <-]. exists dm. split; [done|]. split; [|done].
    apply in_family_cons_take; [done..|by left].
  - destruct (__insert_spline spline spline_dist (focal - focal_of x)%flt x)
      as [[k spline1] spline_dist1].
    intros Hscan. destruct (IH _ _ _ _ Hscan) as (m & Hm & Hfam & Hex).
    rewrite Hdm in Hm. subst m. exists dm. split; [done|]. split; [|done].
    apply in_family_cons_take; [done..|by right].
Qed.

End ScanFacts.

Section OutcomeFacts.
Context {T : Type}.
Variable focal_of : T -> float.
Variable focal : float.

(** With every record of [fam] inserted and none matching exactly, a
    record of [fam] is within reach exactly when slot 1 or slot 2 is
    filled. *)
Lemma slots_filled_iff (fam : T -> Prop) (spline : quad (option T))
      (spline_dist : quad float) :
  slots_inv focal_of focal fam spline spline_dist ->
  (forall r : T, fam r -> exact_focal focal (focal_of r) = false) ->
  (exists r : T, fam r /\ reachable focal (focal_of r) = true)
  <-> non_null (q1 spline) || non_null (q2 spline) = true.
Proof.
  intros (H1 & H2 & _) Hex. split.
  - intros (r & Hr & Hreach). unfold reachable in Hreach.
    rewrite (Hex r Hr), orb_false_l in Hreach. revert Hreach.
    destruct (focal - focal_of r < float_of_int 0)%flt eqn:Hneg; intros Hreach.
    + destruct (q1 spline); [done|]. destruct H1 as [Hnone _].
      by rewrite (Hnone r Hr Hneg) in Hreach.
    + destruct (q2 spline); [by rewrite orb_true_r|]. destruct H2 as [Hnone _].
      by rewrite (Hnone r Hr Hneg) in Hreach.
  - intros Hfilled. destruct (q1 spline) as [s|].
    + destruct H1 as [(Hs & Hneg & Hreach & _) _]. exists s. split; [done|].
      unfold reachable. by rewrite Hneg, Hreach, orb_true_r.
    + destruct (q2 spline) as [s|]; [|done].
      destruct H2 as [(Hs & Hneg & Hreach & _) _]. exists s. split; [done|].
      unfold reachable. by rewrite Hneg, Hreach, orb_true_r.
Qed.

(** The selection the interpolators make from the slots. *)
Lemma slots_outcome (fam : T -> Prop) (spline : quad (option T))
      (spline_dist : quad float) (out : T)
      (interpolated : option T -> T -> T -> option T -> T) :
  slots_inv focal_of focal fam spline spline_dist ->
  outer_inv focal_of focal fam spline spline_dist ->
  match q1 spline, q2 spline with
  | Some s1, None => out = s1
  | None, Some s2 => out = s2
  | Some s1, Some s2 => out = interpolated (q0 spline) s1 s2 (q3 spline)
  | None, None => False
  end ->
  spline_outcome focal_of focal fam out interpolated.
Proof.
  intros (H1 & H2 & _) (H0 & _ & H3 & _) Hsel. unfold spline_outcome.
  destruct (q1 spline) as [s1|], (q2 spline) as [s2|]; try done.
  - right; right; right. exists (q0 spline), s1, s2, (q3 spline).
    by destruct H1, H2.
  - subst out. right; left. by destruct H1, H2.
  - subst out. right; right; left. by destruct H1, H2.
Qed.

End OutcomeFacts.

Section StartFacts.
Context {T M : Type}.
Variable model_of : T -> M.
Variable focal_of : T -> float.
Variable model_int : M -> Z.
Variable focal : float.

(** The scan as the interpolators start it: no model latched, empty
    slots. *)
Lemma spline_scan_from_start (calib : list T) (dm0 : M) :
  is_none model_int dm0 = true ->
  match spline_scan model_of focal_of model_int focal calib dm0
          spline_null spline_dist_init with
  | ExactMatch c =>
      exists m : M, latched_model model_of model_int calib = Some m /\
                    in_family model_of model_int m calib c /\
                    exact_focal focal (focal_of c) = true
  | Scanned dm spline spline_dist =>
      slots_inv focal_of focal (in_family model_of model_int dm calib) spline spline_dist /\
      (forall r : T, in_family model_of model_int dm calib r ->
                     exact_focal focal (focal_of r) = false) /\
      (forall m : M, latched_model model_of model_int calib = Some m -> m = dm) /\
      (non_null (q1 spline) || non_null (q2 spline) = true ->
       latched_model model_of model_int calib = Some dm)
  end.
Proof.
  intros Hnone.
  destruct (spline_scan _ _ _ _ _ _ _ _) as [c|dm spline spline_dist] eqn:Hscan.
  - apply spline_scan_stopped in Hscan as (m & Hm & Hfam & Hex).
    rewrite Hnone in Hm. by exists m.
  - apply (spline_scan_scanned _ _ _ _ _ _ (fun _ => False)) in Hscan
      as (Hforce & Hinv & Hex); [|apply slots_inv_init].
    rewrite Hnone in Hforce.
    assert (slots_inv focal_of focal (in_family model_of model_int dm calib)
              spline spline_dist) as Hinv'.
    { eapply slots_inv_ext; [|exact Hinv]. intros r. simpl. tauto. }
    split; [done|]. split; [done|]. split.
    + intros m Hm. destruct Hforce as [H|[H _]]; congruence.
    + intros Hfilled. destruct Hforce as [H|[H _]]; [done|]. exfalso.
      apply (slots_filled_iff _ _ _ _ _ Hinv' Hex) in Hfilled as (r & (Hin & Hn & _) & _).
      by rewrite (latched_model_None _ _ _ _ H Hin) in Hn.
Qed.

End StartFacts.

Section OuterScan.
Context {T M : Type}.
Variable model_of : T -> M.
Variable focal_of : T -> float.
Variable model_int : M -> Z.
Variable focal : float.

(** A scan that runs to the end leaves the outer slots in the state that
    belongs to the records of the latched family. *)
Lemma spline_scan_outer (calib : list T) :
  forall (dm0 : M) (seen : T -> Prop) (spline : quad (option T)) (spline_dist : quad float)
         (dm' : M) (spline' : quad (option T)) (spline_dist' : quad float),
    slots_inv focal_of focal seen spline spline_dist ->
    outer_inv focal_of focal seen spline spline_dist ->
    spline_scan model_of focal_of model_int focal calib dm0 spline spline_dist
    = Scanned dm' spline' spline_dist' ->
    outer_inv focal_of focal
      (fun r => seen r \/ in_family model_of model_int dm' calib r) spline' spline_dist'.
Proof.
  induction calib as [|c calib IH];
    intros dm0 seen spline spline_dist dm' spline' spline_dist' Hinv Hout Hscan.
  - injection Hscan as <- <- <-.
    eapply outer_inv_ext; [|exact Hout].
    intros r. split; [by left|]. intros [Hr|(Hin & _)]; [done|].
    by apply elem_of_nil in Hin.
  - pose proof (spline_scan_scanned _ _ _ _ _ _ _ _ _ _ _ _ Hinv Hscan) as (Hforce & _).
    revert Hscan Hforce. cbn [spline_scan].
    destruct (is_none model_int (model_of c)) eqn:Hc.
    { intros Hscan _. eapply outer_inv_ext; [|exact (IH _ _ _ _ _ _ _ Hinv Hout Hscan)].
      intros r. simpl. rewrite in_family_cons_skip; [done|by left]. }
    destruct (negb (is_none model_int dm0) && negb (same_model model_int dm0 (model_of c)))
      eqn:Hskip.
    { apply andb_true_iff in Hskip as [Hdm0 Hother].
      apply negb_true_iff in Hdm0, Hother.
      intros Hscan Hforce. rewrite Hdm0 in Hforce. subst dm'.
      eapply outer_inv_ext; [|exact (IH _ _ _ _ _ _ _ Hinv Hout Hscan)].
      intros r. simpl. rewrite in_family_cons_skip; [done|by right]. }
    set (dm := if is_none model_int dm0 then model_of c else dm0).
    assert (is_none model_int dm = false) as Hdm.
    { subst dm. by destruct (is_none model_int dm0) eqn:E. }
    assert (same_model model_int dm (model_of c) = true) as Hsame.
    { subst dm. destruct (is_none model_int dm0) eqn:E; [apply same_model_refl|].
      simpl in Hskip. by apply negb_false_iff in Hskip. }
    destruct (to_double (focal - focal_of c) == d_zero)%flt eqn:Hexact;
      [intros; discriminate|].
    pose proof (insert_spline_slots_inv focal_of focal seen spline spline_dist c Hinv)
      as Hins.
    pose proof (insert_spline_outer_inv focal_of focal seen spline spline_dist c Hinv Hout)
      as Hins'.
    destruct (__insert_spline spline spline_dist (focal - focal_of c)%flt c)
      as [[k spline1] spline_dist1]. cbn [fst snd] in Hins, Hins'.
    intros Hscan _.
    pose proof (spline_scan_scanned _ _ _ _ _ _ _ _ _ _ _ _ Hins Hscan) as (Hforce & _).
    rewrite Hdm in Hforce. subst dm'.
    eapply outer_inv_ext; [|exact (IH _ _ _ _ _ _ _ Hins Hins' Hscan)].
    intros r. simpl. rewrite in_family_cons_take by done. tauto.
Qed.

Lemma spline_scan_outer_from_start (calib : list T) (dm0 dm : M)
      (spline : quad (option T)) (spline_dist : quad float) :
  spline_scan model_of focal_of model_int focal calib dm0 spline_null spline_dist_init
  = Scanned dm spline spline_dist ->
  outer_inv focal_of focal (in_family model_of model_int dm calib) spline spline_dist.
Proof.
  intros Hscan.
  apply (spline_scan_outer _ _ (fun _ => False)) in Hscan;
    [|apply slots_inv_init|apply outer_inv_init].
  eapply outer_inv_ext; [|exact Hscan]. intros r. simpl. tauto.
Qed.

End OuterScan.


(** ** When the spline interpolators succeed and what they return *)

Ltac spline_true_iff scan_fact :=
  let c := fresh "c" in
  let dm := fresh "dm" in
  let spline := fresh "spline" in
  let spline_dist := fresh "spline_dist" in
  pose proof scan_fact as Hscan;
  match type of Hscan with
  | match ?s with _ => _ end => destruct s as [c|dm spline spline_dist]
  end;
  [ destruct Hscan as (m & Hm & Hfam & Hex); split; [intros _|done];
    exists m, c; split; [done|]; split; [done|];
    unfold reachable; by rewrite Hex
  | destruct Hscan as (Hinv & Hex & Hlat1 & Hlat2);
    pose proof (slots_filled_iff _ _ _ _ _ Hinv Hex) as Hfilled;
    split;
    [ intros Htrue;
      assert (non_null (q1 spline) || non_null (q2 spline) = true) as Hnn
        by (by destruct (q1 spline), (q2 spline));
      destruct (proj2 Hfilled Hnn) as (r & Hr & Hreach);
      exists dm, r; split; [by apply Hlat2|done]
    | intros (m & r & Hm & Hr & Hreach);
      rewrite (Hlat1 m Hm) in Hr;
      assert (non_null (q1 spline) || non_null (q2 spline) = true) as Hnn
        by (apply Hfilled; by exists r);
      by destruct (q1 spline), (q2 spline) ] ].

Ltac spline_outcome_of scan_fact outer_fact :=
  let c := fresh "c" in
  let dm := fresh "dm" in
  let spline := fresh "spline" in
  let spline_dist := fresh "spline_dist" in
  let Hrun := fresh "Hrun" in
  pose proof scan_fact as Hscan;
  match type of Hscan with
  | match ?s with _ => _ end => destruct s as [c|dm spline spline_dist] eqn:Hrun
  end;
  [ destruct Hscan as (m & Hm & Hfam & Hex); intros [= <-];
    exists m; split; [done|]; by left
  | destruct Hscan as (Hinv & Hex & Hlat1 & Hlat2); intros Hres;
    pose proof (outer_fact _ _ _ Hrun) as Hout;
    assert (non_null (q1 spline) || non_null (q2 spline) = true) as Hnn
      by (by destruct (q1 spline), (q2 spline));
    exists dm; split; [by apply Hlat2|];
    apply (slots_outcome _ _ _ _ spline_dist _ _ Hinv Hout);
    destruct (q1 spline), (q2 spline); try done;
    injection Hres as <-; try done ].

(** InterpolateDistortion returns true exactly when the list holds a
    record of the latched model family that is within reach of the
    query. *)
Theorem InterpolateDistortion_true_iff
        (pow : float -> float -> float) (l : lfLens) (focal : float)
        (res : lfLensCalibDistortion) (calib : list lfLensCalibDistortion) :
  CalibDistortion l = Some calib ->
  fst (InterpolateDistortion pow l focal res) = true <->
  exists (m : lfDistortionModel) (r : lfLensCalibDistortion),
    latched_model d_Model int_of_dist calib = Some m /\
    in_family d_Model int_of_dist m calib r /\
    reachable focal (d_Focal r) = true.
Proof.
  intros Hl. unfold InterpolateDistortion. rewrite Hl.
  spline_true_iff (spline_scan_from_start d_Model d_Focal int_of_dist focal calib
                     LF_DIST_MODEL_NONE eq_refl).
Qed.

(** A true result of InterpolateDistortion is never an extrapolation.  The
    output is the record that matches the query exactly; or the nearest
    record, when the records within reach lie on one side of the query;
    or it is computed from the nearest record of each side and from the
    records next in line on either side, where there are any: it then
    carries the latched model, the query's focal length, the
    RealFocalMeasured flag the caller passed in, the Hermite value of the
    four RealFocal fields, and in each of its five terms the Hermite
    value of the four scaled terms with the scale at the query's focal
    length taken out. *)
Theorem InterpolateDistortion_outcome
        (pow : float -> float -> float) (l : lfLens) (focal : float)
        (res out : lfLensCalibDistortion) (calib : list lfLensCalibDistortion) :
  CalibDistortion l = Some calib ->
  InterpolateDistortion pow l focal res = (true, out) ->
  exists m : lfDistortionModel,
    latched_model d_Model int_of_dist calib = Some m /\
    spline_outcome d_Focal focal (in_family d_Model int_of_dist m calib) out
      (fun s0 s1 s2 s3 =>
         {| d_Model := m;
            d_Focal := focal;
            d_RealFocal :=
              _lf_interpolate
                (slot_or s0 d_RealFocal FLT_MAX) (d_RealFocal s1) (d_RealFocal s2)
                (slot_or s3 d_RealFocal FLT_MAX) (spline_t d_Focal focal s1 s2);
            d_RealFocalMeasured := d_RealFocalMeasured res;
            d_Terms :=
              map (scaled_term pow d_Focal d_Terms s0 s1 s2 s3 focal
                     (spline_t d_Focal focal s1 s2)
                     LF_MODIFY_DISTORTION (int_of_dist m))
                  [0; 1; 2; 3; 4] |}).
Proof.
  intros Hl. unfold InterpolateDistortion. rewrite Hl.
  spline_outcome_of (spline_scan_from_start d_Model d_Focal int_of_dist focal calib
                       LF_DIST_MODEL_NONE eq_refl)
                    (spline_scan_outer_from_start d_Model d_Focal int_of_dist focal calib
                       LF_DIST_MODEL_NONE).
Qed.

(** InterpolateTCA returns true exactly when the list holds a record of
    the latched model family that is within reach of the query. *)
Theorem InterpolateTCA_true_iff
        (pow : float -> float -> float) (l : lfLens) (focal : float)
        (res : lfLensCalibTCA) (calib : list lfLensCalibTCA) :
  CalibTCA l = Some calib ->
  fst (InterpolateTCA pow l focal res) = true <->
  exists (m : lfTCAModel) (r : lfLensCalibTCA),
    latched_model t_Model int_of_tca calib = Some m /\
    in_family t_Model int_of_tca m calib r /\
    reachable focal (t_Focal r) = true.
Proof.
  intros Hl. unfold InterpolateTCA. rewrite Hl.
  spline_true_iff (spline_scan_from_start t_Model t_Focal int_of_tca focal calib
                     LF_TCA_MODEL_NONE eq_refl).
Qed.

(** A true result of InterpolateTCA is the exactly matching record, the
    nearest record of a one-sided list, or the record computed from the
    nearest record of each side and the records next in line: the latched
    model, the query's focal length, and in each of the twelve terms the
    Hermite value of the four scaled terms with the scale at the query's
    focal length taken out. *)
Theorem InterpolateTCA_outcome
        (pow : float -> float -> float) (l : lfLens) (focal : float)
        (res out : lfLensCalibTCA) (calib : list lfLensCalibTCA) :
  CalibTCA l = Some calib ->
  InterpolateTCA pow l focal res = (true, out) ->
  exists m : lfTCAModel,
    latched_model t_Model int_of_tca calib = Some m /\
    spline_outcome t_Focal focal (in_family t_Model int_of_tca m calib) out
      (fun s0 s1 s2 s3 =>
         {| t_Model := m;
            t_Focal := focal;
            t_Terms :=
              map (scaled_term pow t_Focal t_Terms s0 s1 s2 s3 focal
                     (spline_t t_Focal focal s1 s2)
                     LF_MODIFY_TCA (int_of_tca m))
                  [0; 1; 2; 3; 4; 5; 6; 7; 8; 9; 10; 11] |}).
Proof.
  intros Hl. unfold InterpolateTCA. rewrite Hl.
  spline_outcome_of (spline_scan_from_start t_Model t_Focal int_of_tca focal calib
                       LF_TCA_MODEL_NONE eq_refl)
                    (spline_scan_outer_from_start t_Model t_Focal int_of_tca focal calib
                       LF_TCA_MODEL_NONE).
Qed.

(** InterpolateCrop returns true exactly when the list holds a record of
    the latched crop mode that is within reach of the query. *)
Theorem InterpolateCrop_true_iff
        (l : lfLens) (focal : float)
        (res : lfLensCalibCrop) (calib : list lfLensCalibCrop) :
  CalibCrop l = Some calib ->
  fst (InterpolateCrop l focal res) = true <->
  exists (m : lfCropMode) (r : lfLensCalibCrop),
    latched_model c_CropMode int_of_crop calib = Some m /\
    in_family c_CropMode int_of_crop m calib r /\
    reachable focal (c_Focal r) = true.
Proof.
  intros Hl. unfold InterpolateCrop. rewrite Hl.
  spline_true_iff (spline_scan_from_start c_CropMode c_Focal int_of_crop focal calib
                     LF_NO_CROP eq_refl).
Qed.

(** A true result of InterpolateCrop is the exactly matching record, the
    nearest record of a one-sided list, or the record computed from the
    nearest record of each side and the records next in line: the latched
    crop mode, the query's focal length, and in each of the four crop
    values the Hermite value of the four records' values. *)
Theorem InterpolateCrop_outcome
        (l : lfLens) (focal : float)
        (res out : lfLensCalibCrop) (calib : list lfLensCalibCrop) :
  CalibCrop l = Some calib ->
  InterpolateCrop l focal res = (true, out) ->
  exists m : lfCropMode,
    latched_model c_CropMode int_of_crop calib = Some m /\
    spline_outcome c_Focal focal (in_family c_CropMode int_of_crop m calib) out
      (fun s0 s1 s2 s3 =>
         {| c_Focal := focal;
            c_CropMode := m;
            c_Crop :=
              map (fun i =>
                     _lf_interpolate
                       (slot_or s0 (fun c => at_ (c_Crop c) i) FLT_MAX)
                       (at_ (c_Crop s1) i) (at_ (c_Crop s2) i)
                       (slot_or s3 (fun c => at_ (c_Crop c) i) FLT_MAX)
                       (spline_t c_Focal focal s1 s2))
                  [0; 1; 2; 3] |}).
Proof.
  intros Hl. unfold InterpolateCrop. rewrite Hl.
  spline_outcome_of (spline_scan_from_start c_CropMode c_Focal int_of_crop focal calib
                       LF_NO_CROP eq_refl)
                    (spline_scan_outer_from_start c_CropMode c_Focal int_of_crop focal calib
                       LF_NO_CROP).
Qed.

Section FovFacts.
Variable focal : float.

Lemma in_fov_cons_skip (c : lfLensCalibFov) (calib : list lfLensCalibFov)
      (r : lfLensCalibFov) :
  (f_FieldOfView c == float_of_int 0)%flt = true ->
  in_fov (c :: calib) r <-> in_fov calib r.
Proof.
  intros Hskip. unfold in_fov. split.
  - intros (Hin & Hn). apply elem_of_cons in Hin as [->|Hin]; [congruence|done].
  - intros (Hin & Hn). split; [by right|done].
Qed.

Lemma in_fov_cons_take (c : lfLensCalibFov) (calib : list lfLensCalibFov)
      (r : lfLensCalibFov) :
  (f_FieldOfView c == float_of_int 0)%flt = false ->
  in_fov (c :: calib) r <-> (r = c \/ in_fov calib r).
Proof.
  intros Hn. unfold in_fov. split.
  - intros (Hin & Hn'). apply elem_of_cons in Hin as [->|Hin]; [by left|by right].
  - intros [->|(Hin & Hn')]; [split; [by left|done]|split; [by right|done]].
Qed.

Lemma fov_scan_scanned (calib : list lfLensCalibFov) :
  forall (counter : Z) (seen : lfLensCalibFov -> Prop)
         (spline : quad (option lfLensCalibFov)) (spline_dist : quad float)
         (counter' : Z) (spline' : quad (option lfLensCalibFov))
         (spline_dist' : quad float),
    slots_inv f_Focal focal seen spline spline_dist ->
    fov_scan focal calib counter spline spline_dist
    = Scanned counter' spline' spline_dist' ->
    slots_inv f_Focal focal (fun r => seen r \/ in_fov calib r) spline' spline_dist' /\
    (forall r : lfLensCalibFov, in_fov calib r -> exact_focal focal (f_Focal r) = false) /\
    counter <= counter' /\
    (counter' = counter -> forall r : lfLensCalibFov, ~ in_fov calib r).
Proof.
  induction calib as [|c calib IH];
    intros counter seen spline spline_dist counter' spline' spline_dist' Hinv;
    cbn [fov_scan].
  - intros [= <- <- <-]. split; [|split; [|split]].
    + eapply slots_inv_ext; [|exact Hinv].
      intros r. split; [by left|]. intros [Hr|(Hin & _)]; [done|].
      by apply elem_of_nil in Hin.
    + intros r (Hin & _). by apply elem_of_nil in Hin.
    + lia.
    + intros _ r (Hin & _). by apply elem_of_nil in Hin.
  - destruct (f_FieldOfView c == float_of_int 0)%flt eqn:Hc.
    { intros Hscan.
      destruct (IH _ _ _ _ _ _ _ Hinv Hscan) as (Hinv' & Hex & Hle & Hzero).
      split; [|split; [|split]].
      - eapply slots_inv_ext; [|exact Hinv']. intros r. simpl.
        by rewrite in_fov_cons_skip.
      - intros r Hr. apply Hex. revert Hr. by rewrite in_fov_cons_skip.
      - done.
      - intros Heq r. rewrite in_fov_cons_skip by done. by apply Hzero. }
    destruct (to_double (focal - f_Focal c) == d_zero)%flt eqn:Hexact;
      [intros; discriminate|].
    pose proof (insert_spline_slots_inv f_Focal focal seen spline spline_dist c Hinv)
      as Hins.
    destruct (__insert_spline spline spline_dist (focal - f_Focal c)%flt c)
      as [[k spline1] spline_dist1]. simpl in Hins.
    intros Hscan.
    destruct (IH _ _ _ _ _ _ _ Hins Hscan) as (Hinv' & Hex & Hle & Hzero).
    split; [|split; [|split]].
    + eapply slots_inv_ext; [|exact Hinv']. intros r. simpl.
      rewrite in_fov_cons_take by done. tauto.
    + intros r Hr. apply (in_fov_cons_take c calib r Hc) in Hr as [->|Hr];
        [exact Hexact|by apply Hex].
    + lia.
    + intros Heq. lia.
Qed.

Lemma fov_scan_stopped (calib : list lfLensCalibFov) :
  forall (counter : Z) (spline : quad (option lfLensCalibFov))
         (spline_dist : quad float) (c : lfLensCalibFov),
    fov_scan focal calib counter spline spline_dist = ExactMatch c ->
    in_fov calib c /\ exact_focal focal (f_Focal c) = true.
Proof.
  induction calib as [|x calib IH]; intros counter spline spline_dist c;
    cbn [fov_scan]; [done|].
  destruct (f_FieldOfView x == float_of_int 0)%flt eqn:Hx.
  { intros Hscan. destruct (IH _ _ _ _ Hscan) as (Hfam & Hex).
    split; [|done]. by apply in_fov_cons_skip. }
  destruct (to_double (focal - f_Focal x) == d_zero)%flt eqn:Hexact.
  - intros [= <-]. split; [|done]. apply in_fov_cons_take; [done|by left].
  - destruct (__insert_spline spline spline_dist (focal - f_Focal x)%flt x)
      as [[k spline1] spline_dist1].
    intros Hscan. destruct (IH _ _ _ _ Hscan) as (Hfam & Hex).
    split; [|done]. apply in_fov_cons_take; [done|by right].
Qed.

Lemma fov_scan_from_start (calib : list lfLensCalibFov) :
  match fov_scan focal calib 0 spline_null spline_dist_init with
  | ExactMatch c => in_fov calib c /\ exact_focal focal (f_Focal c) = true
  | Scanned counter spline spline_dist =>
      slots_inv f_Focal focal (in_fov calib) spline spline_dist /\
      (forall r : lfLensCalibFov, in_fov calib r -> exact_focal focal (f_Focal r) = false) /\
      (counter = 0 -> forall r : lfLensCalibFov, ~ in_fov calib r)
  end.
Proof.
  destruct (fov_scan _ _ _ _ _) as [c|counter spline spline_dist] eqn:Hscan.
  - by apply fov_scan_stopped in Hscan.
  - apply (fov_scan_scanned _ _ (fun _ => False)) in Hscan
      as (Hinv & Hex & _ & Hzero); [|apply slots_inv_init].
    split; [|done]. eapply slots_inv_ext; [|exact Hinv]. intros r. simpl. tauto.
Qed.

End FovFacts.

Section FovOuter.
Variable focal : float.

Lemma fov_scan_outer (calib : list lfLensCalibFov) :
  forall (counter : Z) (seen : lfLensCalibFov -> Prop)
         (spline : quad (option lfLensCalibFov)) (spline_dist : quad float)
         (counter' : Z) (spline' : quad (option lfLensCalibFov))
         (spline_dist' : quad float),
    slots_inv f_Focal focal seen spline spline_dist ->
    outer_inv f_Focal focal seen spline spline_dist ->
    fov_scan focal calib counter spline spline_dist
    = Scanned counter' spline' spline_dist' ->
    outer_inv f_Focal focal (fun r => seen r \/ in_fov calib r) spline' spline_dist'.
Proof.
  induction calib as [|c calib IH];
    intros counter seen spline spline_dist counter' spline' spline_dist' Hinv Hout;
    cbn [fov_scan].
  - intros [= <- <- <-]. eapply outer_inv_ext; [|exact Hout].
    intros r. split; [by left|]. intros [Hr|(Hin & _)]; [done|].
    by apply elem_of_nil in Hin.
  - destruct (f_FieldOfView c == float_of_int 0)%flt eqn:Hc.
    { intros Hscan. eapply outer_inv_ext; [|exact (IH _ _ _ _ _ _ _ Hinv Hout Hscan)].
      intros r. simpl. by rewrite in_fov_cons_skip. }
    destruct (to_double (focal - f_Focal c) == d_zero)%flt eqn:Hexact;
      [intros; discriminate|].
    pose proof (insert_spline_slots_inv f_Focal focal seen spline spline_dist c Hinv)
      as Hins.
    pose proof (insert_spline_outer_inv f_Focal focal seen spline spline_dist c Hinv Hout)
      as Hins'.
    destruct (__insert_spline spline spline_dist (focal - f_Focal c)%flt c)
      as [[k spline1] spline_dist1]. cbn [fst snd] in Hins, Hins'.
    intros Hscan. eapply outer_inv_ext; [|exact (IH _ _ _ _ _ _ _ Hins Hins' Hscan)].
    intros r. simpl. rewrite in_fov_cons_take by done. tauto.
Qed.

Lemma fov_scan_outer_from_start (calib : list lfLensCalibFov) (counter : Z)
      (spline : quad (option lfLensCalibFov)) (spline_dist : quad float) :
  fov_scan focal calib 0 spline_null spline_dist_init
  = Scanned counter spline spline_dist ->
  outer_inv f_Focal focal (in_fov calib) spline spline_dist.
Proof.
  intros Hscan.
  apply (fov_scan_outer _ _ (fun _ => False)) in Hscan;
    [|apply slots_inv_init|apply outer_inv_init].
  eapply outer_inv_ext; [|exact Hscan]. intros r. simpl. tauto.
Qed.

End FovOuter.


(** InterpolateFov returns true exactly when the list holds a record with
    a non-zero field of view that is within reach of the query. *)
Theorem InterpolateFov_true_iff
        (l : lfLens) (focal : float)
        (res : lfLensCalibFov) (calib : list lfLensCalibFov) :
  CalibFov l = Some calib ->
  fst (InterpolateFov l focal res) = true <->
  exists r : lfLensCalibFov, in_fov calib r /\ reachable focal (f_Focal r) = true.
Proof.
  intros Hl. unfold InterpolateFov. rewrite Hl.
  pose proof (fov_scan_from_start focal calib) as Hscan.
  destruct (fov_scan _ _ _ _ _) as [c|counter spline spline_dist].
  - destruct Hscan as (Hfam & Hex). split; [intros _|done].
    exists c. split; [done|]. unfold reachable. by rewrite Hex.
  - destruct Hscan as (Hinv & Hex & Hzero).
    pose proof (slots_filled_iff _ _ _ _ _ Hinv Hex) as Hfilled.
    destruct (counter =? 0) eqn:Hcounter.
    + apply Z.eqb_eq in Hcounter. split; [done|].
      intros (r & Hr & _). by destruct (Hzero Hcounter r).
    + split.
      * intros Htrue. apply Hfilled. by destruct (q1 spline), (q2 spline).
      * intros Hr. apply Hfilled in Hr. by destruct (q1 spline), (q2 spline).
Qed.

(** A true result of InterpolateFov is the exactly matching record, the
    nearest record of a one-sided list, or the record computed from the
    nearest record of each side and the records next in line: the query's
    focal length with the Hermite value of the four fields of view. *)
Theorem InterpolateFov_outcome
        (l : lfLens) (focal : float)
        (res out : lfLensCalibFov) (calib : list lfLensCalibFov) :
  CalibFov l = Some calib ->
  InterpolateFov l focal res = (true, out) ->
  spline_outcome f_Focal focal (in_fov calib) out
    (fun s0 s1 s2 s3 =>
       {| f_Focal := focal;
          f_FieldOfView :=
            _lf_interpolate
              (slot_or s0 f_FieldOfView FLT_MAX)
              (f_FieldOfView s1) (f_FieldOfView s2)
              (slot_or s3 f_FieldOfView FLT_MAX)
              (spline_t f_Focal focal s1 s2) |}).
Proof.
  intros Hl. unfold InterpolateFov. rewrite Hl.
  pose proof (fov_scan_from_start focal calib) as Hscan.
  destruct (fov_scan _ _ _ _ _) as [c|counter spline spline_dist] eqn:Hrun.
  - destruct Hscan as (Hfam & Hex). intros [= <-]. by left.
  - destruct Hscan as (Hinv & Hex & Hzero).
    pose proof (fov_scan_outer_from_start _ _ _ _ _ Hrun) as Hout.
    destruct (counter =? 0); [done|]. intros Hres.
    apply (slots_outcome _ _ _ _ spline_dist _ _ Hinv Hout).
    destruct (q1 spline), (q2 spline); try done; by injection Hres as <-.
Qed.

(** ** What an interpolated vignetting record carries *)

Section VignettingOutcome.
Variable pow : float -> float -> float.
Variable l : lfLens.
Variables focal aperture distance : float.

(** A scan that runs to the end holds the latched model in [vm], and has
    written it to the accumulator as soon as one record went into the
    sum. *)
Lemma vignetting_scan_model (calib : list lfLensCalibVignetting) :
  forall st st' : vig_state,
    vignetting_scan pow l focal aperture distance calib st = inr st' ->
    (v_Model (vs_res st) = vs_vm st \/
     (vig_same (vs_vm st) LF_VIGNETTING_MODEL_NONE = true /\
      vs_total_weighting st = float_of_int 0)) ->
    vs_vm st' = vig_latched (vs_vm st) calib /\
    (v_Model (vs_res st') = vs_vm st' \/ vs_total_weighting st' = float_of_int 0).
Proof.
  induction calib as [|c calib IH]; intros st st'; cbn [vignetting_scan].
  - intros [= <-] HJ. split; [done|]. destruct HJ as [H|[_ H]]; [by left|by right].
  - unfold vig_latched. cbn [fold_left]. fold (vig_latched).
    destruct (vig_same (vs_vm st) LF_VIGNETTING_MODEL_NONE) eqn:Hlatch;
      cbn [negb andb].
    + destruct (fltb _ _); [intros; discriminate|]. intros Hscan _.
      apply IH in Hscan; [|by left]. exact Hscan.
    + destruct (vig_same (vs_vm st) (v_Model c)); cbn [negb].
      * destruct (fltb _ _); [intros; discriminate|]. intros Hscan HJ.
        apply IH in Hscan; [exact Hscan|]. left. cbn [vs_res vs_vm set_v_Terms v_Model].
        by destruct HJ as [H|[H _]].
      * intros Hscan HJ. destruct HJ as [H|[H _]]; [|done].
        apply (IH _ _ Hscan). by left.
Qed.

(** A scan that stops early stops at a record of the list that lies
    within [10^-4] of the query. *)
Lemma vignetting_scan_stopped (calib : list lfLensCalibVignetting) :
  forall (st : vig_state) (c : lfLensCalibVignetting),
    vignetting_scan pow l focal aperture distance calib st = inl c ->
    c ∈ calib /\ within_exact l focal aperture distance c = true.
Proof.
  induction calib as [|x calib IH]; intros st c; cbn [vignetting_scan]; [done|].
  destruct (negb _ && negb _).
  { intros Hscan. apply IH in Hscan as [Hin Hex]. split; [by right|done]. }
  destruct (fltb _ _) eqn:Hexact.
  - intros [= <-]. split; [by left|exact Hexact].
  - intros Hscan. apply IH in Hscan as [Hin Hex]. split; [by right|done].
Qed.

End VignettingOutcome.

(** A true result of InterpolateVignetting is either a record of the list
    that lies within [10^-4] of the query, returned as it is, or the
    weighted mean of the considered records: it carries the model latched
    from the list and the query's focal length, aperture and distance,
    and each of its three terms is the weighted sum of the records'
    scaled terms over the sum of their weights, the scale at the query's
    focal length taken out again. *)
Theorem InterpolateVignetting_outcome
        (pow : float -> float -> float) (l : lfLens)
        (calib : list lfLensCalibVignetting)
        (focal aperture distance : float) (res out : lfLensCalibVignetting) :
  CalibVignetting l = Some calib ->
  InterpolateVignetting pow l focal aperture distance res = (true, out) ->
  (out ∈ calib /\ within_exact l focal aperture distance out = true) \/
  out = {| v_Model := vig_latched LF_VIGNETTING_MODEL_NONE calib;
           v_Focal := focal; v_Aperture := aperture; v_Distance := distance;
           v_Terms :=
             map (fun i => weighted_mean pow l focal aperture distance
                             (vig_latched LF_VIGNETTING_MODEL_NONE calib) i
                             (vig_considered LF_VIGNETTING_MODEL_NONE calib))
                 [0; 1; 2] |}.
Proof.
  intros Hl. unfold InterpolateVignetting. rewrite Hl.
  destruct (vignetting_scan _ _ _ _ _ _ _) as [c|st] eqn:Hscan.
  - intros [= <-]. left. by apply vignetting_scan_stopped in Hscan.
  - apply vignetting_scan_end in Hscan as (Hvm & Htw & _ & Hres).
    destruct (fgtb _ _); [done|].
    destruct (vs_total_weighting st > float_of_int 0)%flt eqn:Hpos; [|done].
    destruct (vs_smallest st < FLT_MAX)%flt; [|done].
    intros [= <-]. right. rewrite Hres, Hvm, Htw.
    destruct calib as [|c calib].
    { rewrite Htw in Hpos. discriminate. }
    reflexivity.
Qed.

(** ** A list with one record *)

Lemma insert_spline_single {T : Type} (focal_of : T -> float) (focal : float) (c : T) :
  exact_focal focal (focal_of c) = false ->
  reachable focal (focal_of c) = true ->
  let spline :=
    snd (fst (__insert_spline spline_null spline_dist_init (focal - focal_of c)%flt c)) in
  (q1 spline = Some c /\ q2 spline = None) \/ (q1 spline = None /\ q2 spline = Some c).
Proof.
  intros Hex Hreach. unfold reachable in Hreach.
  rewrite Hex, orb_false_l in Hreach. revert Hreach.
  unfold __insert_spline. cbn [spline_dist_init q0 q1 q2 q3].
  destruct (focal - focal_of c < float_of_int 0)%flt; intros ->; [by left|by right].
Qed.

(** On a list that holds one usable record within reach of the query,
    each spline interpolator returns true and that record. *)
Theorem Interpolate_single_record
        (pow : float -> float -> float) (l : lfLens) (focal : float) :
  (forall c res,
      CalibDistortion l = Some [c] -> d_Model c <> LF_DIST_MODEL_NONE ->
      reachable focal (d_Focal c) = true ->
      InterpolateDistortion pow l focal res = (true, c)) /\
  (forall c res,
      CalibTCA l = Some [c] -> t_Model c <> LF_TCA_MODEL_NONE ->
      reachable focal (t_Focal c) = true ->
      InterpolateTCA pow l focal res = (true, c)) /\
  (forall c res,
      CalibCrop l = Some [c] -> c_CropMode c <> LF_NO_CROP ->
      reachable focal (c_Focal c) = true ->
      InterpolateCrop l focal res = (true, c)) /\
  (forall c res,
      CalibFov l = Some [c] -> (f_FieldOfView c == float_of_int 0)%flt = false ->
      reachable focal (f_Focal c) = true ->
      InterpolateFov l focal res = (true, c)).
Proof.
  split; [|split; [|split]]; intros c res Hl Hmodel Hreach.
  - unfold InterpolateDistortion. rewrite Hl. cbn [spline_scan].
    assert (is_none int_of_dist (d_Model c) = false) as ->
        by (by destruct (d_Model c)).
    cbn [is_none int_of_dist Z.eqb negb andb].
    destruct (to_double (focal - d_Focal c) == d_zero)%flt eqn:Hex; [done|].
    pose proof (insert_spline_single d_Focal focal c Hex Hreach) as Hins.
    destruct (__insert_spline _ _ _ c) as [[k spline] spline_dist].
    cbv zeta in Hins. cbn [fst snd] in Hins.
    by destruct Hins as [[-> ->]|[-> ->]].
  - unfold InterpolateTCA. rewrite Hl. cbn [spline_scan].
    assert (is_none int_of_tca (t_Model c) = false) as ->
        by (by destruct (t_Model c)).
    cbn [is_none int_of_tca Z.eqb negb andb].
    destruct (to_double (focal - t_Focal c) == d_zero)%flt eqn:Hex; [done|].
    pose proof (insert_spline_single t_Focal focal c Hex Hreach) as Hins.
    destruct (__insert_spline _ _ _ c) as [[k spline] spline_dist].
    cbv zeta in Hins. cbn [fst snd] in Hins.
    by destruct Hins as [[-> ->]|[-> ->]].
  - unfold InterpolateCrop. rewrite Hl. cbn [spline_scan].
    assert (is_none int_of_crop (c_CropMode c) = false) as ->
        by (by destruct (c_CropMode c)).
    cbn [is_none int_of_crop Z.eqb negb andb].
    destruct (to_double (focal - c_Focal c) == d_zero)%flt eqn:Hex; [done|].
    pose proof (insert_spline_single c_Focal focal c Hex Hreach) as Hins.
    destruct (__insert_spline _ _ _ c) as [[k spline] spline_dist].
    cbv zeta in Hins. cbn [fst snd] in Hins.
    by destruct Hins as [[-> ->]|[-> ->]].
  - unfold InterpolateFov. rewrite Hl. cbn [fov_scan]. rewrite Hmodel.
    destruct (to_double (focal - f_Focal c) == d_zero)%flt eqn:Hex; [done|].
    pose proof (insert_spline_single f_Focal focal c Hex Hreach) as Hins.
    destruct (__insert_spline _ _ _ c) as [[k spline] spline_dist].
    cbv zeta in Hins. cbn [fst snd] in Hins.
    by destruct Hins as [[-> ->]|[-> ->]].
Qed.

(** ** The vignetting distance of a sample to itself *)

Lemma vignetting_dist_axes
      (l : lfLens) (x : lfLensCalibVignetting) (focal aperture distance : float) :
  __vignetting_dist l x focal aperture distance
  = fsqrt (square (focal_axis l (v_Focal x) - focal_axis l focal)
           + square (aperture_axis (v_Aperture x) - aperture_axis aperture)
           + square (distance_axis (v_Distance x) - distance_axis distance))%flt.
Proof.
  unfold __vignetting_dist, focal_axis.
  by destruct (fneb (MaxFocal l - MinFocal l)%flt (float_of_int 0)).
Qed.

(** The distance is a root: never below 0, whatever the operands. *)
Theorem vignetting_dist_not_negative
        (l : lfLens) (x : lfLensCalibVignetting) (focal aperture distance : float) :
  (__vignetting_dist l x focal aperture distance < float_of_int 0)%flt = false.
Proof.
  rewrite vignetting_dist_axes.
  generalize (square (focal_axis l (v_Focal x) - focal_axis l focal)
              + square (aperture_axis (v_Aperture x) - aperture_axis aperture)
              + square (distance_axis (v_Distance x) - distance_axis distance))%flt.
  intros a. unfold fsqrt, SFsqrt.
  destruct a as [s|[|]| |[|] m e]; try done.
  destruct (SFsqrt_core_binary prec32 emax32 (Z.pos m) e) as [[mz ez] lz].
  unfold binary_round_aux.
  destruct (shr_fexp prec32 emax32 mz ez lz) as [mrs' e'].
  destruct (shr_fexp prec32 emax32 _ e' loc_Exact) as [mrs'' e''].
  destruct (shr_m mrs''); try done.
  by destruct (e'' <=? emax32 - prec32).
Qed.

(** A sample lies at distance 0 from its own focal length, aperture and
    distance, provided its three coordinates are finite. *)
Lemma vignetting_dist_self (l : lfLens) (x : lfLensCalibVignetting) :
  is_finite (focal_axis l (v_Focal x)) = true ->
  is_finite (aperture_axis (v_Aperture x)) = true ->
  is_finite (distance_axis (v_Distance x)) = true ->
  __vignetting_dist l x (v_Focal x) (v_Aperture x) (v_Distance x) = fzero.
Proof.
  intros Hf Ha Hd. rewrite vignetting_dist_axes.
  destruct (fsub_diag _ Hf) as [sf ->].
  destruct (fsub_diag _ Ha) as [sa ->].
  destruct (fsub_diag _ Hd) as [sd ->].
  by destruct sf, sa, sd.
Qed.

(** Queried at the focal length, aperture and distance of a sample the
    scan considers, InterpolateVignetting returns true and hands out a
    record of the list as it is: one that lies within [10^-4] of the
    query, the sample itself or an earlier one. *)
Theorem InterpolateVignetting_at_sample
        (pow : float -> float -> float) (l : lfLens)
        (calib : list lfLensCalibVignetting) (x res : lfLensCalibVignetting) :
  CalibVignetting l = Some calib ->
  x ∈ vig_considered LF_VIGNETTING_MODEL_NONE calib ->
  is_finite (focal_axis l (v_Focal x)) = true ->
  is_finite (aperture_axis (v_Aperture x)) = true ->
  is_finite (distance_axis (v_Distance x)) = true ->
  exists c : lfLensCalibVignetting,
    InterpolateVignetting pow l (v_Focal x) (v_Aperture x) (v_Distance x) res = (true, c) /\
    c ∈ calib /\
    within_exact l (v_Focal x) (v_Aperture x) (v_Distance x) c = true.
Proof.
  intros Hl Hx Hf Ha Hd. unfold InterpolateVignetting. rewrite Hl.
  match goal with
  | |- context [vignetting_scan _ _ _ _ _ calib ?s] =>
      pose proof (vignetting_scan_considered pow l (v_Focal x) (v_Aperture x)
                    (v_Distance x) calib s) as H
  end.
  cbn [vs_vm] in H.
  destruct (find _ (vig_considered LF_VIGNETTING_MODEL_NONE calib)) as [c|] eqn:Hfind.
  - rewrite H. exists c. split; [done|].
    by apply vignetting_scan_stopped in H.
  - exfalso. apply list_elem_of_In in Hx.
    pose proof (find_none _ _ Hfind x Hx) as Hnot.
    unfold within_exact in Hnot.
    by rewrite (vignetting_dist_self l x Hf Ha Hd) in Hnot.
Qed.

(** ** Assignment of a lens *)

Section RebuildFacts.
Context {T : Type}.

Lemma add_all_not_null (cmpf : option (T -> T -> bool)) (xs : list T) (l : list T) :
  exists l' : list T,
    fold_left (fun a x => _lf_addobj a x cmpf) xs (Some l) = Some l' /\
    (length l <= length l')%nat.
Proof.
  revert l. induction xs as [|x xs IH]; intros l; simpl; [by exists l|].
  destruct cmpf as [cmp|].
  - destruct (first_match cmp x l 0).
    + destruct (IH (<[n := x]> l)) as (l' & -> & Hlen). exists l'.
      split; [done|]. by rewrite length_insert in Hlen.
    + destruct (IH (l ++ [x])) as (l' & -> & Hlen). exists l'.
      split; [done|]. rewrite length_app in Hlen. lia.
  - destruct (IH (l ++ [x])) as (l' & -> & Hlen). exists l'.
    split; [done|]. rewrite length_app in Hlen. lia.
Qed.

(** The rebuilt list is NULL exactly when there was no entry. *)
Lemma rebuilt_null_iff (cmpf : option (T -> T -> bool)) (xs : list T) :
  rebuilt cmpf xs = None <-> xs = [].
Proof.
  unfold rebuilt. destruct xs as [|x xs]; simpl; [done|].
  destruct (add_all_not_null cmpf xs [x]) as (l' & -> & _). done.
Qed.

(** Without a comparator every entry is appended. *)
Lemma add_all_append (xs : list T) (l : list T) :
  fold_left (fun a x => _lf_addobj a x None) xs (Some l) = Some (l ++ xs).
Proof.
  revert l. induction xs as [|x xs IH]; intros l; simpl; [by rewrite app_nil_r|].
  rewrite IH. by rewrite <- app_assoc.
Qed.

Lemma rebuilt_no_cmp (xs : list T) : entries (rebuilt None xs) = xs.
Proof.
  unfold rebuilt. destruct xs as [|x xs]; simpl; [done|]. by rewrite add_all_append.
Qed.

Variable cmp : T -> T -> bool.

Lemma keys_distinct_app_new (l : list T) (x : T) (xs : list T) :
  keys_distinct cmp (l ++ x :: xs) -> first_match cmp x l 0 = None.
Proof.
  intros Hd. destruct (first_match cmp x l 0) as [n|] eqn:Hscan; [|done].
  apply first_match_Some in Hscan as (i & old & -> & Hi & Hc & _).
  rewrite (Hd (length l) i x old) in Hc; [done| |..].
  - apply lookup_lt_Some in Hi. lia.
  - by rewrite list_lookup_middle.
  - by rewrite lookup_app_l by (by eapply lookup_lt_Some).
Qed.

Lemma add_all_distinct (xs : list T) (l : list T) :
  keys_distinct cmp (l ++ xs) ->
  fold_left (fun a x => _lf_addobj a x (Some cmp)) xs (Some l) = Some (l ++ xs).
Proof.
  revert l. induction xs as [|x xs IH]; intros l Hd; simpl; [by rewrite app_nil_r|].
  rewrite (keys_distinct_app_new l x xs Hd).
  rewrite IH; by rewrite <- app_assoc.
Qed.

(** Rebuilding a list whose keys are distinct yields the same entries. *)
Lemma rebuilt_distinct (xs : list T) :
  keys_distinct cmp xs -> entries (rebuilt (Some cmp) xs) = xs.
Proof.
  intros Hd. unfold rebuilt. destruct xs as [|x xs]; simpl; [done|].
  by rewrite (add_all_distinct xs [x]).
Qed.

Hypothesis cmp_sym : forall x y : T, cmp x y = true -> cmp y x = true.
Hypothesis cmp_trans : forall x y z : T, cmp x y = true -> cmp y z = true -> cmp x z = true.

Lemma add_all_keys_distinct (xs : list T) (a : ptr_array T) :
  keys_distinct cmp (entries a) ->
  keys_distinct cmp (entries (fold_left (fun a x => _lf_addobj a x (Some cmp)) xs a)).
Proof.
  revert a. induction xs as [|x xs IH]; intros a Hd; simpl; [done|].
  apply IH. by apply _lf_addobj_keys_distinct.
Qed.

(** Whatever the entries are, the rebuilt list has distinct keys. *)
Lemma rebuilt_keys_distinct (xs : list T) :
  keys_distinct cmp (entries (rebuilt (Some cmp) xs)).
Proof. apply add_all_keys_distinct, keys_distinct_nil. Qed.

End RebuildFacts.

Lemma fold_left_keeps {A B C : Type} (get : A -> C) (f : A -> B -> A)
      (xs : list B) (a : A) :
  (forall (a : A) (x : B), get (f a x) = get a) -> get (fold_left f xs a) = get a.
Proof.
  intros Hstep. revert a. induction xs as [|x xs IH]; intros a; simpl; [done|].
  by rewrite IH.
Qed.

Lemma fold_left_through {A B C : Type} (get : A -> C) (f : A -> B -> A)
      (g : C -> B -> C) (xs : list B) (a : A) :
  (forall (a : A) (x : B), get (f a x) = g (get a) x) ->
  get (fold_left f xs a) = fold_left g xs (get a).
Proof.
  intros Hstep. revert a. induction xs as [|x xs IH]; intros a; simpl; [done|].
  by rewrite IH, Hstep.
Qed.

Section HeapFacts.
Variable dup_null : option string.
Variable h : gmap nat lfLens.
Variables this other : nat.

Lemma update_insert (x o : lfLens) (f : lfLens -> lfLens -> lfLens) :
  this <> other -> h !! other = Some o ->
  update (<[this := x]> h) this other f = Some (<[this := f x o]> h).
Proof.
  intros Hne Ho. unfold update.
  rewrite lookup_insert_eq, lookup_insert_ne, Ho by done. simpl.
  by rewrite insert_insert_eq.
Qed.

Lemma dup_field_insert (x o : lfLens) (get : lfLens -> option string)
      (set : lfLens -> option string -> lfLens) :
  this <> other -> h !! other = Some o ->
  dup_field dup_null (<[this := x]> h) this other get set
  = Some (<[this := set x (dup_name dup_null (get o))]> h).
Proof.
  intros Hne Ho. unfold dup_field.
  rewrite lookup_insert_eq, lookup_insert_ne, Ho by done. simpl.
  rewrite bool_decide_false by done. simpl.
  by rewrite insert_insert_eq.
Qed.

(** Between two objects [operator =] does what the copy constructor
    does, and leaves every other object as it is. *)
Lemma assign_distinct (t o : lfLens) :
  this <> other -> h !! this = Some t -> h !! other = Some o ->
  assign dup_null h this other = Some (<[this := lfLens_copy dup_null t o]> h).
Proof.
  intros Hne Ht Ho. unfold assign.
  rewrite <- (insert_id h this t Ht) at 1.
  repeat (first [rewrite (dup_field_insert _ o) by done
                 |rewrite (update_insert _ o) by done];
          cbn [mbind option_bind]).
  reflexivity.
Qed.

End HeapFacts.

Section SelfFacts.
Variable dup_null : option string.
Variable h : gmap nat lfLens.
Variable this : nat.

Lemma update_self (x : lfLens) (f : lfLens -> lfLens -> lfLens) :
  update (<[this := x]> h) this this f = Some (<[this := f x x]> h).
Proof.
  unfold update. rewrite lookup_insert_eq. simpl. by rewrite insert_insert_eq.
Qed.

Lemma dup_field_self (x : lfLens) (get : lfLens -> option string)
      (set : lfLens -> option string -> lfLens) :
  dup_field dup_null (<[this := x]> h) this this get set
  = if non_null (get x) then None
    else Some (<[this := set x (dup_name dup_null (get x))]> h).
Proof.
  unfold dup_field. rewrite lookup_insert_eq. simpl.
  rewrite bool_decide_true by done. simpl.
  destruct (non_null (get x)); [done|]. by rewrite insert_insert_eq.
Qed.

(** A lens assigned to itself: with a name, [lf_mlstr_dup] reads a block
    that has been released; without names, every list is set to NULL
    before it is read, and so stays NULL. *)
Lemma assign_self (t : lfLens) :
  h !! this = Some t ->
  assign dup_null h this this
  = if non_null (Maker t) || non_null (Model t) then None
    else Some (<[this := self_assigned dup_null t]> h).
Proof.
  intros Ht. unfold assign.
  rewrite <- (insert_id h this t Ht) at 1.
  rewrite dup_field_self.
  destruct t as [maker model minf maxf mina maxa mounts cx cy crop aspect type
                   cd ct cv cc cf score].
  destruct maker as [maker|]; [done|]. cbn [non_null Maker orb mbind option_bind].
  rewrite dup_field_self. cbn [Model set_Maker].
  destruct model as [model|]; [done|]. cbn [non_null mbind option_bind].
  repeat (rewrite update_self; cbn [mbind option_bind]).
  reflexivity.
Qed.

End SelfFacts.

Ltac copy_field F g :=
  unfold lfLens_copy; cbv zeta;
  repeat first
    [ rewrite (fold_left_keeps F) by done
    | rewrite (fold_left_through F _ g) by done
    | progress cbn [F set_Maker set_Model set_ranges set_Mounts set_geometry
                      set_CalibDistortion set_CalibTCA set_CalibVignetting
                      set_CalibCrop set_CalibFov] ];
  try done.

Section CopyFacts.
Variable dup_null : option string.
Variables this other : lfLens.

Lemma lfLens_copy_Mounts :
  Mounts (lfLens_copy dup_null this other) = rebuilt None (entries (Mounts other)).
Proof. copy_field Mounts (fun (a : ptr_array string) x => _lf_addobj a x None). Qed.

Lemma lfLens_copy_CalibDistortion :
  CalibDistortion (lfLens_copy dup_null this other)
  = rebuilt (Some cmp_distortion) (entries (CalibDistortion other)).
Proof.
  copy_field CalibDistortion
    (fun (a : ptr_array lfLensCalibDistortion) x => _lf_addobj a x (Some cmp_distortion)).
Qed.

Lemma lfLens_copy_CalibTCA :
  CalibTCA (lfLens_copy dup_null this other)
  = rebuilt (Some cmp_tca) (entries (CalibTCA other)).
Proof.
  copy_field CalibTCA (fun (a : ptr_array lfLensCalibTCA) x => _lf_addobj a x (Some cmp_tca)).
Qed.

Lemma lfLens_copy_CalibVignetting :
  CalibVignetting (lfLens_copy dup_null this other)
  = rebuilt (Some cmp_vignetting) (entries (CalibVignetting other)).
Proof.
  copy_field CalibVignetting
    (fun (a : ptr_array lfLensCalibVignetting) x => _lf_addobj a x (Some cmp_vignetting)).
Qed.

Lemma lfLens_copy_CalibCrop :
  CalibCrop (lfLens_copy dup_null this other)
  = rebuilt (Some cmp_lenscrop) (entries (CalibCrop other)).
Proof.
  copy_field CalibCrop
    (fun (a : ptr_array lfLensCalibCrop) x => _lf_addobj a x (Some cmp_lenscrop)).
Qed.

Lemma lfLens_copy_CalibFov :
  CalibFov (lfLens_copy dup_null this other)
  = rebuilt (Some cmp_lensfov) (entries (CalibFov other)).
Proof.
  copy_field CalibFov
    (fun (a : ptr_array lfLensCalibFov) x => _lf_addobj a x (Some cmp_lensfov)).
Qed.

Lemma lfLens_copy_Score : Score (lfLens_copy dup_null this other) = Score this.
Proof. copy_field Score (fun (a : Z) (x : unit) => a). Qed.

End CopyFacts.

(** Assignment between two lens objects.  [operator =] leaves every
    object but its target as it was.  In the target the mount list is
    reproduced entry for entry, in order, whatever it holds; and so is
    each calibration list of the source whose keys are pairwise
    distinct. *)
Theorem assign_copies_lists
        (dup_null : option string) (h : gmap nat lfLens) (this other : nat)
        (t o : lfLens) :
  this <> other -> h !! this = Some t -> h !! other = Some o ->
  exists t' : lfLens,
    assign dup_null h this other = Some (<[this := t']> h) /\
    entries (Mounts t') = entries (Mounts o) /\
    (keys_distinct cmp_distortion (entries (CalibDistortion o)) ->
     entries (CalibDistortion t') = entries (CalibDistortion o)) /\
    (keys_distinct cmp_tca (entries (CalibTCA o)) ->
     entries (CalibTCA t') = entries (CalibTCA o)) /\
    (keys_distinct cmp_vignetting (entries (CalibVignetting o)) ->
     entries (CalibVignetting t') = entries (CalibVignetting o)) /\
    (keys_distinct cmp_lenscrop (entries (CalibCrop o)) ->
     entries (CalibCrop t') = entries (CalibCrop o)) /\
    (keys_distinct cmp_lensfov (entries (CalibFov o)) ->
     entries (CalibFov t') = entries (CalibFov o)).
Proof.
  intros Hne Ht Ho. exists (lfLens_copy dup_null t o).
  split; [by apply assign_distinct|].
  rewrite lfLens_copy_Mounts, lfLens_copy_CalibDistortion, lfLens_copy_CalibTCA,
    lfLens_copy_CalibVignetting, lfLens_copy_CalibCrop, lfLens_copy_CalibFov.
  split; [apply rebuilt_no_cmp|].
  repeat split; apply rebuilt_distinct.
Qed.

(** What assignment normalizes.  Between two lens objects, whatever the
    source holds, the target ends with calibration lists of pairwise
    distinct keys; a list of the target is NULL exactly when the source
    has no entry in it, so that an allocated empty list becomes NULL; and
    [Score] keeps the value it had in the target.  A lens assigned to
    itself is another matter, [operator =] having no test for it: with a
    Maker or a Model the call reads a released block and has no defined
    result; without them it ends with every list NULL, whatever the lists
    held. *)
Theorem assign_normalizes
        (dup_null : option string) (h : gmap nat lfLens) (this other : nat)
        (t o : lfLens) :
  h !! this = Some t -> h !! other = Some o ->
  (this <> other ->
   exists t' : lfLens,
     assign dup_null h this other = Some (<[this := t']> h) /\
     lens_keys_distinct t' /\
     (Mounts t' = None <-> entries (Mounts o) = []) /\
     (CalibDistortion t' = None <-> entries (CalibDistortion o) = []) /\
     (CalibTCA t' = None <-> entries (CalibTCA o) = []) /\
     (CalibVignetting t' = None <-> entries (CalibVignetting o) = []) /\
     (CalibCrop t' = None <-> entries (CalibCrop o) = []) /\
     (CalibFov t' = None <-> entries (CalibFov o) = []) /\
     Score t' = Score t) /\
  (this = other ->
   non_null (Maker t) || non_null (Model t) = true ->
   assign dup_null h this other = None) /\
  (this = other ->
   non_null (Maker t) || non_null (Model t) = false ->
   exists t' : lfLens,
     assign dup_null h this other = Some (<[this := t']> h) /\
     Mounts t' = None /\ CalibDistortion t' = None /\ CalibTCA t' = None /\
     CalibVignetting t' = None /\ CalibCrop t' = None /\ CalibFov t' = None /\
     Maker t' = dup_null /\ Model t' = dup_null).
Proof.
  intros Ht Ho. split; [|split].
  - intros Hne. exists (lfLens_copy dup_null t o).
    split; [by apply assign_distinct|].
    unfold lens_keys_distinct.
    rewrite lfLens_copy_Mounts, lfLens_copy_CalibDistortion, lfLens_copy_CalibTCA,
      lfLens_copy_CalibVignetting, lfLens_copy_CalibCrop, lfLens_copy_CalibFov,
      lfLens_copy_Score.
    rewrite !rebuilt_null_iff.
    split; [|repeat (split; [done|]); done].
    repeat split; apply rebuilt_keys_distinct;
      unfold cmp_distortion, cmp_tca, cmp_lenscrop, cmp_lensfov;
      eauto using feqb_sym, feqb_trans, cmp_vignetting_sym, cmp_vignetting_trans.
  - intros <- Hnamed. by rewrite (assign_self _ _ _ t Ht), Hnamed.
  - intros <- Hbare. rewrite (assign_self _ _ _ t Ht), Hbare.
    exists (self_assigned dup_null t). by repeat split.
Qed.

(** ** Insertion followed by removal *)

(** Appending a record whose key is new and then removing the last index
    gives back the entries the list had; the array stays allocated. *)
Lemma delobj_addobj_fresh {T : Type} (cmp : T -> T -> bool)
        (var : ptr_array T) (val : T) :
  (forall x : T, x ∈ entries var -> cmp val x = false) ->
  _lf_delobj (_lf_addobj var val (Some cmp)) (Z.of_nat (length (entries var)))
  = (true, Some (entries var)).
Proof.
  intros Hnew. unfold _lf_addobj, _lf_delobj. destruct var as [l|]; simpl; [|done].
  destruct (first_match cmp val l 0) as [n|] eqn:Hscan.
  { apply first_match_Some in Hscan as (i & old & _ & Hi & Hc & _).
    rewrite Hnew in Hc; [done|]. by eapply list_elem_of_lookup_2. }
  rewrite length_app. simpl.
  destruct (Z.of_nat (length l) <? 0) eqn:Hneg; [apply Z.ltb_lt in Hneg; lia|].
  destruct (Z.of_nat (length l + 1) <=? Z.of_nat (length l)) eqn:Hle;
    [apply Z.leb_le in Hle; lia|].
  simpl. rewrite Nat2Z.id. f_equal. f_equal.
  rewrite delete_middle. apply app_nil_r.
Qed.

(** Adding a record whose key is new to a calibration list and removing
    the last index gives back the entries the list had; the array stays
    allocated where it was NULL. *)
Theorem RemoveCalib_undoes_AddCalib
        (l : lfLens) (dc : lfLensCalibDistortion) (tcac : lfLensCalibTCA)
        (vc : lfLensCalibVignetting) (lcc : lfLensCalibCrop) (lcf : lfLensCalibFov) :
  ((forall x, x ∈ entries (CalibDistortion l) -> cmp_distortion dc x = false) ->
   RemoveCalibDistortion (AddCalibDistortion l dc)
     (Z.of_nat (length (entries (CalibDistortion l))))
   = (true, set_CalibDistortion l (Some (entries (CalibDistortion l))))) /\
  ((forall x, x ∈ entries (CalibTCA l) -> cmp_tca tcac x = false) ->
   RemoveCalibTCA (AddCalibTCA l tcac) (Z.of_nat (length (entries (CalibTCA l))))
   = (true, set_CalibTCA l (Some (entries (CalibTCA l))))) /\
  ((forall x, x ∈ entries (CalibVignetting l) -> cmp_vignetting vc x = false) ->
   RemoveCalibVignetting (AddCalibVignetting l vc)
     (Z.of_nat (length (entries (CalibVignetting l))))
   = (true, set_CalibVignetting l (Some (entries (CalibVignetting l))))) /\
  ((forall x, x ∈ entries (CalibCrop l) -> cmp_lenscrop lcc x = false) ->
   RemoveCalibCrop (AddCalibCrop l lcc) (Z.of_nat (length (entries (CalibCrop l))))
   = (true, set_CalibCrop l (Some (entries (CalibCrop l))))) /\
  ((forall x, x ∈ entries (CalibFov l) -> cmp_lensfov lcf x = false) ->
   RemoveCalibFov (AddCalibFov l lcf) (Z.of_nat (length (entries (CalibFov l))))
   = (true, set_CalibFov l (Some (entries (CalibFov l))))).
Proof.
  unfold RemoveCalibDistortion, AddCalibDistortion, RemoveCalibTCA, AddCalibTCA,
    RemoveCalibVignetting, AddCalibVignetting, RemoveCalibCrop, AddCalibCrop,
    RemoveCalibFov, AddCalibFov.
  repeat split; intros Hnew; simpl; by rewrite delobj_addobj_fresh.
Qed.

(** ** Ordering of lenses *)

Lemma binary_round_aux_opp (prec emax : Z) (s : bool) (m e : Z) (l : location) :
  binary_round_aux prec emax (negb s) m e l
  = SFopp (binary_round_aux prec emax s m e l).
Proof.
  unfold binary_round_aux.
  destruct (shr_fexp prec emax m e l) as [mrs' e'].
  destruct (shr_fexp prec emax _ e' loc_Exact) as [mrs'' e''].
  destruct (shr_m mrs''); [done| |done].
  by destruct (e'' <=? emax - prec).
Qed.

Lemma binary_round_opp (prec emax : Z) (s : bool) (m : positive) (e : Z) :
  binary_round prec emax (negb s) m e = SFopp (binary_round prec emax s m e).
Proof.
  unfold binary_round. destruct (shl_align _ _ _) as [mz ez].
  apply binary_round_aux_opp.
Qed.

Lemma binary_normalize_opp (prec emax : Z) (m e : Z) :
  m <> 0 ->
  binary_normalize prec emax (- m) e false = SFopp (binary_normalize prec emax m e false).
Proof.
  destruct m as [|m|m]; [done|intros _..]; simpl.
  - apply (binary_round_opp prec emax false).
  - apply (binary_round_opp prec emax true).
Qed.

Lemma SFopp_involutive (x : spec_float) : SFopp (SFopp x) = x.
Proof. destruct x; simpl; by rewrite ?negb_involutive. Qed.

(** Swapping the operands of a subtraction negates the difference, up to
    the sign of a zero. *)
Lemma fsub_swap (x y : float) :
  (y - x)%flt = SFopp (x - y)%flt \/
  exists s s' : bool, (x - y)%flt = S754_zero s /\ (y - x)%flt = S754_zero s'.
Proof.
  unfold fsub, SFsub.
  destruct x as [sx|sx| |sx mx ex], y as [sy|sy| |sy my ey]; simpl;
    try (by left); try (destruct sx, sy; simpl; eauto; fail).
  rewrite (Z.min_comm ey ex).
  set (a := cond_Zopp sx (Z.pos (shl_align mx ex (ex `min` ey)).1)).
  set (b := cond_Zopp sy (Z.pos (shl_align my ey (ex `min` ey)).1)).
  destruct (decide (a - b = 0)) as [Heq|Hne].
  - right. exists false, false. rewrite Heq.
    replace (b - a) with 0 by lia. done.
  - left. replace (b - a) with (- (a - b)) by lia.
    by apply binary_normalize_opp.
Qed.

Lemma fmul_opp_l (x c : float) :
  c <> S754_nan -> (SFopp x * c)%flt = SFopp (x * c)%flt.
Proof.
  unfold fmul, SFmul.
  destruct x as [sx|sx| |sx mx ex], c as [sc|sc| |sc mc ec]; simpl; try done;
    intros _; try (by destruct sx, sc).
  rewrite <- binary_round_aux_opp. by destruct sx, sc.
Qed.

Lemma int_of_float_zero (s : bool) (c : float) :
  int_of_float (S754_zero s * float_of_int 100)%flt = Some 0.
Proof. by destruct s. Qed.

Lemma int_of_float_opp (x : float) (v : Z) :
  int_of_float x = Some v -> v <> INT_MIN -> int_of_float (SFopp x) = Some (- v).
Proof.
  destruct x as [s|s| |s m e]; simpl; try done.
  - by intros [= <-].
  - destruct (_ && _) eqn:Hrange; [|done]. intros [= <-] Hmin.
    apply andb_true_iff in Hrange as [Hlo Hhi].
    apply Z.leb_le in Hlo, Hhi.
    assert (cond_Zopp (negb s) (Z.shiftl (Z.pos m) e)
            = - cond_Zopp s (Z.shiftl (Z.pos m) e)) as ->
        by (destruct s; simpl; lia).
    unfold INT_MIN, INT_MAX in *.
    rewrite (proj2 (Z.leb_le _ _)), (proj2 (Z.leb_le _ _)) by lia. done.
Qed.

(** One stage of the comparison, with the lenses swapped. *)
Lemma compare_stage_swap (x y : float) (v : Z) :
  int_of_float ((x - y) * float_of_int 100)%flt = Some v -> v <> INT_MIN ->
  int_of_float ((y - x) * float_of_int 100)%flt = Some (- v).
Proof.
  intros Hv Hmin. destruct (fsub_swap x y) as [->|(s & s' & Hxy & ->)].
  - rewrite fmul_opp_l by done. by apply int_of_float_opp.
  - rewrite Hxy in Hv. destruct s, s'; simpl in *; by injection Hv as <-.
Qed.

(** Swapping the two lenses negates the result of the comparison, as
    long as the result is not INT_MIN, whose negation is no [int]. *)
Theorem _lf_lens_parameters_compare_swap (i1 i2 : lfLens) (c : Z) :
  _lf_lens_parameters_compare i1 i2 = Some c -> c <> INT_MIN ->
  _lf_lens_parameters_compare i2 i1 = Some (- c).
Proof.
  unfold _lf_lens_parameters_compare.
  destruct (int_of_float ((MinFocal i1 - MinFocal i2) * float_of_int 100)%flt)
    as [c1|] eqn:H1; [|done]. cbn [mbind option_bind].
  destruct (c1 =? 0) eqn:Hz1; cbn [negb].
  - apply Z.eqb_eq in Hz1. subst c1.
    rewrite (compare_stage_swap _ _ 0 H1) by done. cbn [mbind option_bind Z.opp Z.eqb negb].
    destruct (int_of_float ((MaxFocal i1 - MaxFocal i2) * float_of_int 100)%flt)
      as [c2|] eqn:H2; [|done]. cbn [mbind option_bind].
    destruct (c2 =? 0) eqn:Hz2; cbn [negb].
    + apply Z.eqb_eq in Hz2. subst c2.
      rewrite (compare_stage_swap _ _ 0 H2) by done.
      cbn [mbind option_bind Z.opp Z.eqb negb].
      intros H3 Hmin. by apply compare_stage_swap.
    + intros [= <-] Hmin. rewrite (compare_stage_swap _ _ c2 H2 Hmin).
      cbn [mbind option_bind]. apply Z.eqb_neq in Hz2.
      by rewrite (proj2 (Z.eqb_neq (- c2) 0)) by lia.
  - intros [= <-] Hmin. rewrite (compare_stage_swap _ _ c1 H1 Hmin).
    cbn [mbind option_bind]. apply Z.eqb_neq in Hz1.
    by rewrite (proj2 (Z.eqb_neq (- c1) 0)) by lia.
Qed.

(** ** Multi-language strings *)

Module MLstrFacts.
Import MLstr.
Local Open Scope nat_scope.

Lemma nul_free_cons (c : ascii) (s : list ascii) :
  nul_free (c :: s) <-> is_nul c = false /\ nul_free s.
Proof.
  unfold nul_free. simpl. destruct (is_nul c).
  - split; [intros H|intros [H _]]; discriminate.
  - split; [intros [= H]; by split|intros [_ H]; by rewrite H].
Qed.

Lemma nul_free_nil : nul_free [].
Proof. done. Qed.

Lemma is_nul_NUL : is_nul NUL = true.
Proof. done. Qed.

Lemma strlen_nul_free (s r : list ascii) :
  nul_free s -> strlen (s ++ NUL :: r) = Some (length s).
Proof.
  induction s as [|c s IH]; simpl; [done|].
  intros [Hc Hs]%nul_free_cons. rewrite Hc, (IH Hs). done.
Qed.

Lemma c_str_nul_free (s r : list ascii) :
  nul_free s -> c_str (s ++ NUL :: r) = Some s.
Proof.
  intros Hs. unfold c_str. rewrite (strlen_nul_free s r Hs). simpl.
  by rewrite take_app_length.
Qed.

Lemma head_nul_free (s r : list ascii) :
  nul_free s -> s <> [] -> exists c : ascii, head (s ++ r) = Some c /\ is_nul c = false.
Proof.
  destruct s as [|c s]; [done|]. intros [Hc _]%nul_free_cons _. by exists c.
Qed.

Lemma drop_past (s r : list ascii) : drop (S (length s)) (s ++ NUL :: r) = r.
Proof.
  change (s ++ NUL :: r) with (s ++ [NUL] ++ r). rewrite app_assoc.
  replace (S (length s)) with (length (s ++ [NUL])) by (rewrite length_app; simpl; lia).
  apply drop_app_length.
Qed.

Lemma pack_pairs_cons (p : list ascii * list ascii) (trs : list (list ascii * list ascii)) :
  pack_pairs (p :: trs) = fst p ++ NUL :: snd p ++ NUL :: pack_pairs trs.
Proof.
  unfold pack_pairs. simpl. rewrite <- app_assoc. simpl. by rewrite <- app_assoc.
Qed.

Lemma pack_pairs_cons_app (p : list ascii * list ascii)
      (trs : list (list ascii * list ascii)) (r : list ascii) :
  pack_pairs (p :: trs) ++ r = fst p ++ NUL :: snd p ++ NUL :: (pack_pairs trs ++ r).
Proof.
  rewrite pack_pairs_cons. rewrite <- app_assoc. simpl. by rewrite <- app_assoc.
Qed.

Lemma pack_pairs_app (trs trs' : list (list ascii * list ascii)) :
  pack_pairs (trs ++ trs') = pack_pairs trs ++ pack_pairs trs'.
Proof. unfold pack_pairs. apply flat_map_app. Qed.

Lemma length_pack_pairs (trs : list (list ascii * list ascii)) :
  length trs <= length (pack_pairs trs).
Proof.
  induction trs as [|p trs IH]; [done|]. rewrite pack_pairs_cons.
  rewrite length_app. simpl. rewrite length_app. simpl. lia.
Qed.

Lemma pack_unfold (d : list ascii) (trs : list (list ascii * list ascii)) :
  pack d trs = d ++ NUL :: (pack_pairs trs ++ [NUL]).
Proof. done. Qed.

Lemma length_pack (d : list ascii) (trs : list (list ascii * list ascii)) :
  length (pack d trs) = length d + 1 + length (pack_pairs trs) + 1.
Proof. rewrite pack_unfold, length_app. simpl. rewrite length_app. simpl. lia. Qed.

Lemma strlen_pack (d : list ascii) (trs : list (list ascii * list ascii)) :
  nul_free d -> strlen (pack d trs) = Some (length d).
Proof. intros Hd. rewrite pack_unfold. by apply strlen_nul_free. Qed.

Lemma drop_pack (d : list ascii) (trs : list (list ascii * list ascii)) :
  drop (S (length d)) (pack d trs) = pack_pairs trs ++ [NUL].
Proof. rewrite pack_unfold. apply drop_past. Qed.

(** The loop of [lf_mlstr_get] over the pairs of a block. *)
Lemma mlstr_get_loop_pack (trs : list (list ascii * list ascii)) :
  forall (fuel : nat) (def : list ascii),
    well_formed trs -> length trs < fuel ->
    exists p : list ascii,
      mlstr_get_loop fuel _lf_get_lang (pack_pairs trs ++ [NUL]) def = Some p /\
      c_str p = match find (fun p => bool_decide (fst p = _lf_get_lang)) trs with
                | Some pr => Some (snd pr)
                | None => c_str def
                end.
Proof.
  induction trs as [|[l t] trs IH]; intros fuel def Hwf Hfuel.
  - destruct fuel as [|fuel]; [simpl in Hfuel; lia|]. by exists def.
  - destruct fuel as [|fuel]; [simpl in Hfuel; lia|].
    apply Forall_cons in Hwf as [(Hl & Hl' & Ht & Ht') Hwf]. simpl in Hl, Hl', Ht, Ht'.
    rewrite pack_pairs_cons_app. cbn [fst snd mlstr_get_loop find].
    destruct (head_nul_free l (NUL :: t ++ NUL :: pack_pairs trs ++ [NUL]) Hl Hl')
      as (c & -> & Hc).
    cbn [mbind option_bind]. rewrite Hc.
    rewrite (strlen_nul_free l _ Hl). cbn [mbind option_bind].
    rewrite drop_past, take_app_length.
    destruct (bool_decide (l = _lf_get_lang)) eqn:Hlang.
    + exists (t ++ NUL :: pack_pairs trs ++ [NUL]). split; [done|].
      by apply c_str_nul_free.
    + change (list_ascii_of_string "en") with _lf_get_lang. rewrite Hlang.
      destruct (head_nul_free t (NUL :: pack_pairs trs ++ [NUL]) Ht Ht')
        as (c' & -> & Hc').
      cbn [mbind option_bind]. rewrite Hc'.
      rewrite (strlen_nul_free t _ Ht). cbn [mbind option_bind].
      rewrite drop_past. apply IH; [done|]. simpl in Hfuel. lia.
Qed.

Lemma length_pack_pairs2 (trs : list (list ascii * list ascii)) :
  2 * length trs <= length (pack_pairs trs).
Proof.
  induction trs as [|p trs IH]; [done|]. rewrite pack_pairs_cons.
  rewrite length_app. simpl. rewrite length_app. simpl. lia.
Qed.

Lemma lookup_at_nul_free (pre s r : list ascii) :
  nul_free s -> s <> [] ->
  exists c : ascii, (pre ++ s ++ r) !! length pre = Some c /\ is_nul c = false.
Proof.
  destruct s as [|c s]; [done|]. intros [Hc _]%nul_free_cons _. exists c.
  split; [|done]. by apply list_lookup_middle.
Qed.

(** The length loops over the pairs of a block: they stop at the closing
    NUL. *)
Lemma mlstr_end_pack (trs : list (list ascii * list ascii)) :
  forall (fuel : nat) (pre : list ascii),
    well_formed trs -> 2 * length trs < fuel ->
    mlstr_end fuel (pre ++ pack_pairs trs ++ [NUL]) (length pre)
    = Some (length pre + length (pack_pairs trs)).
Proof.
  induction trs as [|[l t] trs IH]; intros fuel pre Hwf Hfuel.
  - destruct fuel as [|fuel]; [simpl in Hfuel; lia|].
    cbn [mlstr_end pack_pairs flat_map app length].
    rewrite list_lookup_middle by done. cbn [mbind option_bind].
    rewrite is_nul_NUL. f_equal. lia.
  - destruct fuel as [|[|fuel]]; [simpl in Hfuel; lia..|].
    apply Forall_cons in Hwf as [(Hl & Hl' & Ht & Ht') Hwf]. simpl in Hl, Hl', Ht, Ht'.
    rewrite pack_pairs_cons_app. cbn [fst snd].
    cbn [mlstr_end].
    destruct (lookup_at_nul_free pre l (NUL :: t ++ NUL :: pack_pairs trs ++ [NUL]) Hl Hl')
      as (c & Hc & Hcn).
    cbn [app] in Hc. rewrite Hc. cbn [mbind option_bind]. rewrite Hcn.
    rewrite drop_app_length, (strlen_nul_free l _ Hl).
    cbn [mbind option_bind].
    replace (pre ++ l ++ NUL :: t ++ NUL :: pack_pairs trs ++ [NUL])
      with ((pre ++ l ++ [NUL]) ++ t ++ NUL :: pack_pairs trs ++ [NUL])
      by (by rewrite <- !app_assoc).
    replace (length pre + (1 + length l)) with (length (pre ++ l ++ [NUL]))
      by (rewrite !length_app; simpl; lia).
    destruct (lookup_at_nul_free (pre ++ l ++ [NUL]) t
                (NUL :: pack_pairs trs ++ [NUL]) Ht Ht') as (c' & Hc' & Hcn').
    rewrite Hc'. cbn [mbind option_bind]. rewrite Hcn'.
    rewrite drop_app_length, (strlen_nul_free t _ Ht). cbn [mbind option_bind].
    replace ((pre ++ l ++ [NUL]) ++ t ++ NUL :: pack_pairs trs ++ [NUL])
      with ((pre ++ l ++ [NUL] ++ t ++ [NUL]) ++ pack_pairs trs ++ [NUL])
      by (by rewrite <- !app_assoc).
    replace (length (pre ++ l ++ [NUL]) + (1 + length t))
      with (length (pre ++ l ++ [NUL] ++ t ++ [NUL]))
      by (rewrite !length_app; simpl; lia).
    rewrite IH; [|done|simpl in Hfuel; lia].
    f_equal. rewrite pack_pairs_cons. cbn [fst snd].
    rewrite !length_app. simpl. rewrite !length_app. simpl. lia.
Qed.

Lemma mlstr_len_pack (d : list ascii) (trs : list (list ascii * list ascii)) :
  nul_free d -> well_formed trs ->
  mlstr_len (Some (pack d trs)) = Some (length d + 1 + length (pack_pairs trs)).
Proof.
  intros Hd Hwf. unfold mlstr_len. rewrite (strlen_pack d trs Hd).
  cbn [mbind option_bind].
  replace (pack d trs) with ((d ++ [NUL]) ++ pack_pairs trs ++ [NUL])
    by (unfold pack; by rewrite <- !app_assoc).
  replace (length d + 1) with (length (d ++ [NUL])) by (rewrite length_app; simpl; lia).
  rewrite mlstr_end_pack; [done|done|].
  rewrite !length_app. simpl. pose proof (length_pack_pairs2 trs). lia.
Qed.

(** The two copies and the closing NUL that end [lf_mlstr_add]. *)
Lemma split_block (s : list ascii) (a l t : nat) :
  length s = a + l + t + 1 ->
  exists (A R1 R2 : list ascii) (y : ascii),
    s = A ++ R1 ++ R2 ++ [y] /\ length A = a /\ length R1 = l /\ length R2 = t.
Proof.
  intros Hlen.
  assert (exists y, drop (a + l + t) s = [y]) as [y Hy].
  { pose proof (length_drop s (a + l + t)) as Hd.
    destruct (drop (a + l + t) s) as [|y [|? ?]]; simpl in Hd; try lia. by exists y. }
  exists (take a s), (take l (drop a s)), (take t (drop (a + l) s)), y.
  split; [|rewrite !length_take, !length_drop; lia].
  rewrite <- Hy.
  rewrite <- (take_drop a s) at 1. f_equal.
  rewrite <- (take_drop l (drop a s)) at 1. f_equal.
  rewrite drop_drop.
  rewrite <- (take_drop t (drop (a + l) s)) at 1. f_equal.
  by rewrite drop_drop.
Qed.

Lemma memcpy_from_ok (s : list ascii) (k : nat) (data : list ascii) :
  k + length data <= length s ->
  memcpy_from s k data = Some (take k s ++ data ++ drop (k + length data) s).
Proof. intros H. unfold memcpy_from. by rewrite bool_decide_true. Qed.

Lemma store_ok (s : list ascii) (i : nat) (c : ascii) :
  i < length s -> store s i c = Some (<[i := c]> s).
Proof. intros H. unfold store. by rewrite bool_decide_true. Qed.

Lemma append_pair (s A L T : list ascii) (a : nat) :
  a = length A -> length s = a + length L + length T + 1 -> take a s = A ->
  memcpy_from s a L ≫= (fun s1 =>
    memcpy_from s1 (a + length L) T ≫= (fun s2 =>
      store s2 (a + length L + length T) NUL ≫= (fun s3 => Some (Some s3))))
  = Some (Some (A ++ L ++ T ++ [NUL])).
Proof.
  intros -> Hlen Htake.
  destruct (split_block s (length A) (length L) (length T) Hlen)
    as (A' & R1 & R2 & y & -> & HA & H1 & H2).
  rewrite take_app_length' in Htake by done. subst A'.
  rewrite memcpy_from_ok by lia.
  cbn [mbind option_bind].
  rewrite take_app_length.
  rewrite drop_app, drop_ge, app_nil_l by lia.
  replace (length A + length L - length A) with (length R1) by lia.
  rewrite drop_app_length.
  rewrite memcpy_from_ok by (rewrite !length_app; simpl; lia).
  cbn [mbind option_bind].
  rewrite (app_assoc A L), take_app_length' by (rewrite length_app; lia).
  rewrite drop_app, drop_ge, app_nil_l by (rewrite length_app; lia).
  replace (length A + length L + length T - length (A ++ L)) with (length R2)
    by (rewrite length_app; lia).
  rewrite drop_app_length.
  rewrite store_ok by (rewrite !length_app; simpl; lia).
  cbn [mbind option_bind]. do 2 f_equal.
  rewrite (app_assoc (A ++ L) T).
  replace (length A + length L + length T) with (length ((A ++ L) ++ T) + 0)
    by (rewrite !length_app; lia).
  rewrite insert_app_r. simpl. by rewrite <- !app_assoc.
Qed.

Lemma set_default (s T X : list ascii) :
  length s = length X + length T + 1 ->
  take (length X) (drop (length T) s) = X ->
  memcpy_from s 0 T ≫= (fun s1 =>
    store s1 (length X + length T) NUL ≫= (fun s2 => Some (Some s2)))
  = Some (Some (T ++ X ++ [NUL])).
Proof.
  intros Hlen HX.
  destruct (split_block s 0 (length T) (length X)) as (A & R1 & R2 & y & -> & HA & H1 & H2);
    [lia|].
  destruct A; [|done]. cbn [app] in *.
  rewrite drop_app_length', take_app_length' in HX by done. subst R2.
  rewrite memcpy_from_ok by (simpl; lia). cbn [mbind option_bind].
  rewrite take_0. cbn [app].
  rewrite drop_app_length' by (simpl; lia).
  rewrite store_ok by (rewrite !length_app; simpl; lia).
  cbn [mbind option_bind]. do 2 f_equal.
  rewrite (app_assoc T X).
  replace (length X + length T) with (length (T ++ X) + 0) by (rewrite !length_app; lia).
  rewrite insert_app_r. simpl. by rewrite <- !app_assoc.
Qed.

Lemma length_pack_pairs_pos (trs : list (list ascii * list ascii)) :
  trs <> [] -> 2 <= length (pack_pairs trs).
Proof.
  intros H. pose proof (length_pack_pairs2 trs). destruct trs; [done|]. simpl in *. lia.
Qed.

(** The loop of [lf_mlstr_dup] over the pairs of a block. *)
Lemma mlstr_end_dup_pack (trs : list (list ascii * list ascii)) :
  forall (fuel : nat) (pre : list ascii),
    well_formed trs -> 2 * length trs < fuel ->
    mlstr_end_dup fuel (pre ++ pack_pairs trs ++ [NUL]) (length pre)
    = Some (length pre + length (pack_pairs trs)).
Proof.
  induction trs as [|[l t] trs IH]; intros fuel pre Hwf Hfuel.
  - destruct fuel as [|fuel]; [simpl in Hfuel; lia|].
    cbn [mlstr_end_dup pack_pairs flat_map app length].
    rewrite list_lookup_middle by done. cbn [mbind option_bind].
    rewrite is_nul_NUL. f_equal. lia.
  - destruct fuel as [|[|fuel]]; [simpl in Hfuel; lia..|].
    apply Forall_cons in Hwf as [(Hl & Hl' & Ht & Ht') Hwf]. simpl in Hl, Hl', Ht, Ht'.
    rewrite pack_pairs_cons_app. cbn [fst snd].
    destruct l as [|c l]; [done|]. destruct t as [|c' t]; [done|].
    apply nul_free_cons in Hl as [Hc Hl]. apply nul_free_cons in Ht as [Hc' Ht].
    cbn [mlstr_end_dup app].
    rewrite list_lookup_middle by done. cbn [mbind option_bind]. rewrite Hc.
    replace (pre ++ c :: l ++ NUL :: c' :: t ++ NUL :: pack_pairs trs ++ [NUL])
      with ((pre ++ [c]) ++ l ++ NUL :: c' :: t ++ NUL :: pack_pairs trs ++ [NUL])
      by (by rewrite <- !app_assoc).
    rewrite drop_app_length' by (rewrite length_app; simpl; lia).
    rewrite (strlen_nul_free l _ Hl). cbn [mbind option_bind].
    replace ((pre ++ [c]) ++ l ++ NUL :: c' :: t ++ NUL :: pack_pairs trs ++ [NUL])
      with ((pre ++ c :: l ++ [NUL]) ++ c' :: t ++ NUL :: pack_pairs trs ++ [NUL])
      by (rewrite <- !app_assoc; simpl; by rewrite <- !app_assoc).
    replace (length pre + (2 + length l)) with (length (pre ++ c :: l ++ [NUL]))
      by (rewrite !length_app; simpl; rewrite length_app; simpl; lia).
    rewrite list_lookup_middle by done. cbn [mbind option_bind]. rewrite Hc'.
    replace ((pre ++ c :: l ++ [NUL]) ++ c' :: t ++ NUL :: pack_pairs trs ++ [NUL])
      with (((pre ++ c :: l ++ [NUL]) ++ [c']) ++ t ++ NUL :: pack_pairs trs ++ [NUL])
      by (by rewrite <- !app_assoc).
    rewrite drop_app_length' by (rewrite !length_app; simpl; lia).
    rewrite (strlen_nul_free t _ Ht). cbn [mbind option_bind].
    replace (((pre ++ c :: l ++ [NUL]) ++ [c']) ++ t ++ NUL :: pack_pairs trs ++ [NUL])
      with ((pre ++ c :: l ++ NUL :: c' :: t ++ [NUL]) ++ pack_pairs trs ++ [NUL])
      by (rewrite <- !app_assoc; simpl; rewrite <- !app_assoc; simpl;
          by rewrite <- !app_assoc).
    replace (length (pre ++ c :: l ++ [NUL]) + (2 + length t))
      with (length (pre ++ c :: l ++ NUL :: c' :: t ++ [NUL]))
      by (rewrite !length_app; simpl; rewrite !length_app; simpl;
          rewrite !length_app; simpl; lia).
    rewrite IH; [|done|simpl in Hfuel; lia].
    f_equal. rewrite pack_pairs_cons. cbn [fst snd].
    rewrite !length_app. simpl. rewrite !length_app. simpl. rewrite !length_app. simpl. lia.
Qed.

Lemma get_pack_nil (d : list ascii) :
  nul_free d ->
  lf_mlstr_get (Some (pack d [])) = Some (Some (pack d [])) /\
  c_str (pack d []) = Some d.
Proof.
  intros Hd. split; [|rewrite pack_unfold; by apply c_str_nul_free].
  unfold lf_mlstr_get. rewrite (strlen_pack d [] Hd). cbn [mbind option_bind].
  rewrite drop_pack, length_pack. by rewrite Nat.add_1_r.
Qed.

Lemma add_null_default (t : list ascii) :
  nul_free t -> lf_mlstr_add None None (Some t) = Some (Some (pack t [])).
Proof.
  intros Ht. unfold lf_mlstr_add. cbn [mlstr_len mbind option_bind].
  rewrite Ht. unfold memcpy_within.
  rewrite bool_decide_true by done. cbn [mbind option_bind].
  rewrite (set_default _ (t ++ [NUL]) []);
    [|unfold realloc; by rewrite length_resize|done].
  unfold pack. by rewrite <- app_assoc.
Qed.

End MLstrFacts.

(** [lf_mlstr_get] on a block that holds the default string [d] and the
    translations [trs] returns a pointer to the first translation tagged
    [en], and to the default string when there is none. *)
Theorem lf_mlstr_get_pack (d : list ascii) (trs : list (list ascii * list ascii)) :
  MLstr.nul_free d -> MLstr.well_formed trs ->
  exists p : list ascii,
    MLstr.lf_mlstr_get (Some (MLstr.pack d trs)) = Some (Some p) /\
    MLstr.c_str p = Some (MLstr.translation MLstr._lf_get_lang d trs).
Proof.
  intros Hd Hwf. unfold MLstr.lf_mlstr_get.
  rewrite (MLstrFacts.strlen_pack d trs Hd). cbn [mbind option_bind].
  rewrite MLstrFacts.drop_pack.
  destruct (MLstrFacts.mlstr_get_loop_pack trs (length (MLstr.pack d trs))
              (MLstr.pack d trs) Hwf) as (p & -> & Hp).
  { rewrite MLstrFacts.length_pack. pose proof (MLstrFacts.length_pack_pairs trs). lia. }
  exists p. split; [done|]. rewrite Hp. unfold MLstr.translation.
  destruct (find _ trs); [done|]. rewrite MLstrFacts.pack_unfold.
  by apply MLstrFacts.c_str_nul_free.
Qed.

(** [lf_mlstr_add] with a language tag, on a block that holds [d] and
    [trs], yields the block that holds [d] and [trs] followed by the new
    pair. *)
Theorem lf_mlstr_add_translation
        (d : list ascii) (trs : list (list ascii * list ascii)) (l t : list ascii) :
  MLstr.nul_free d -> MLstr.well_formed trs -> MLstr.nul_free l -> MLstr.nul_free t ->
  MLstr.lf_mlstr_add (Some (MLstr.pack d trs)) (Some l) (Some t)
  = Some (Some (MLstr.pack d (trs ++ [(l, t)]))).
Proof.
  intros Hd Hwf Hl Ht. unfold MLstr.lf_mlstr_add.
  rewrite (MLstrFacts.mlstr_len_pack d trs Hd Hwf). cbn [mbind option_bind].
  rewrite Hl, Ht.
  rewrite (MLstrFacts.append_pair _ (d ++ [MLstr.NUL] ++ MLstr.pack_pairs trs)).
  - do 2 f_equal. unfold MLstr.pack. rewrite MLstrFacts.pack_pairs_app.
    unfold MLstr.pack_pairs at 3. simpl. rewrite app_nil_r.
    repeat progress (rewrite <- ?app_assoc; cbn [app]). done.
  - rewrite !length_app. simpl. lia.
  - unfold MLstr.realloc. by rewrite length_resize.
  - unfold MLstr.realloc. rewrite take_resize. simpl.
    rewrite Nat.min_l by lia. rewrite resize_le
      by (rewrite MLstrFacts.length_pack; lia).
    unfold MLstr.pack.
    replace (d ++ [MLstr.NUL] ++ MLstr.pack_pairs trs ++ [MLstr.NUL])
      with ((d ++ [MLstr.NUL] ++ MLstr.pack_pairs trs) ++ [MLstr.NUL])
      by (by rewrite <- !app_assoc).
    apply take_app_length'. rewrite !length_app. simpl. lia.
Qed.

(** [lf_mlstr_add] without a language tag replaces the default string and
    keeps the translations, as long as the block holds no translation or
    the new default, with the translations, fits in front of the end of
    the old default.  In every other case the first [memcpy], which moves
    the translations before the block is resized, copies between
    overlapping regions or writes past the end of the block. *)
Theorem lf_mlstr_add_default
        (d : list ascii) (trs : list (list ascii * list ascii)) (t : list ascii) :
  MLstr.nul_free d -> MLstr.well_formed trs -> MLstr.nul_free t ->
  (trs = [] \/ (length t + length (MLstr.pack_pairs trs) <= length d)%nat ->
   MLstr.lf_mlstr_add (Some (MLstr.pack d trs)) None (Some t)
   = Some (Some (MLstr.pack t trs))) /\
  (~ (trs = [] \/ (length t + length (MLstr.pack_pairs trs) <= length d)%nat) ->
   MLstr.lf_mlstr_add (Some (MLstr.pack d trs)) None (Some t) = None).
Proof.
  intros Hd Hwf Ht. unfold MLstr.lf_mlstr_add.
  rewrite (MLstrFacts.mlstr_len_pack d trs Hd Hwf). cbn [mbind option_bind].
  rewrite (MLstrFacts.strlen_pack d trs Hd). cbn [mbind option_bind].
  change (default [] (Some (MLstr.pack d trs))) with (MLstr.pack d trs).
  rewrite Ht.
  replace (length d + 1 + length (MLstr.pack_pairs trs) - (length d + 1))%nat
    with (length (MLstr.pack_pairs trs)) by lia.
  assert (MLstr.pack t trs = (t ++ [MLstr.NUL]) ++ MLstr.pack_pairs trs ++ [MLstr.NUL])
    as -> by (unfold MLstr.pack; by rewrite <- app_assoc).
  assert (length (t ++ [MLstr.NUL]) = length t + 1)%nat as HT
      by (rewrite length_app; simpl; lia).
  remember (t ++ [MLstr.NUL]) as T eqn:ET. clear ET.
  pose proof (MLstrFacts.length_pack d trs) as Hlen.
  remember (MLstr.pack_pairs trs) as X eqn:EX.
  unfold MLstr.memcpy_within.
  destruct (bool_decide (length X = 0%nat)) eqn:Hzero.
  - apply bool_decide_eq_true in Hzero.
    assert (trs = []) as Hnil.
    { destruct trs; [done|].
      pose proof (MLstrFacts.length_pack_pairs_pos (p :: trs) ltac:(done)). subst X. lia. }
    split; [intros _|intros H; destruct H; by left].
    cbn [mbind option_bind].
    destruct X; [|done].
    rewrite (MLstrFacts.set_default _ T []); [done| |done].
    unfold MLstr.realloc. by rewrite length_resize.
  - apply bool_decide_eq_false in Hzero.
    assert (trs <> []) as Hne by (intros ->; subst X; by apply Hzero).
    pose proof (MLstrFacts.length_pack_pairs_pos trs Hne) as Hpos.
    rewrite <- EX in Hpos.
    split.
    + intros [->|Hfit]; [done|].
      rewrite bool_decide_true by lia. cbn [mbind option_bind].
      rewrite (MLstrFacts.set_default _ T X).
      * done.
      * unfold MLstr.realloc. rewrite length_resize. lia.
      * unfold MLstr.realloc.
        match goal with
        | |- context [default [] (Some ?x)] => change (default [] (Some x)) with x
        end.
        assert (drop (length d + 1) (MLstr.pack d trs) = X ++ [MLstr.NUL]) as ->.
        { replace (length d + 1)%nat with (S (length d)) by lia.
          rewrite MLstrFacts.drop_pack. by subst X. }
        rewrite take_app_length.
        rewrite resize_le by (rewrite !length_app, !length_take, !length_drop; lia).
        rewrite take_drop_commute, take_take, Nat.min_l by lia.
        rewrite (app_assoc _ X), take_app_length'
          by (rewrite length_app, length_take; lia).
        rewrite drop_app_length' by (rewrite length_take; lia). done.
    + intros Hcond. rewrite bool_decide_false; [done|].
      intros (Hdst & Hsrc & [Hleft|Hright]); apply Hcond; right; lia.
Qed.

(** On the NULL string [lf_mlstr_add] without a language tag creates the
    block that holds [t] as its default string.  With a language tag it
    creates a block whose default string is the tag: [lf_mlstr_get] then
    returns the tag, not the translation, whether or not the tag is the
    current language. *)
Theorem lf_mlstr_add_to_null (l t : list ascii) :
  MLstr.nul_free l -> MLstr.nul_free t ->
  t <> MLstr._lf_get_lang ->
  MLstr.lf_mlstr_add None None (Some t) = Some (Some (MLstr.pack t [])) /\
  exists (b p : list ascii),
    MLstr.lf_mlstr_add None (Some l) (Some t) = Some (Some b) /\
    MLstr.lf_mlstr_get (Some b) = Some (Some p) /\
    MLstr.c_str p = Some l.
Proof.
  intros Hl Ht Hten. split; [by apply MLstrFacts.add_null_default|].
  - exists (l ++ MLstr.NUL :: t ++ [MLstr.NUL; MLstr.NUL]).
    assert (MLstr.lf_mlstr_add None (Some l) (Some t)
            = Some (Some (l ++ MLstr.NUL :: t ++ [MLstr.NUL; MLstr.NUL]))) as Hadd.
    { unfold MLstr.lf_mlstr_add. cbn [MLstr.mlstr_len mbind option_bind].
      rewrite Hl, Ht.
      rewrite (MLstrFacts.append_pair _ []);
        [|done|unfold MLstr.realloc; by rewrite length_resize|done].
      repeat progress (rewrite <- ?app_assoc; cbn [app]). done. }
    unfold MLstr.lf_mlstr_get.
    rewrite (MLstrFacts.strlen_nul_free l _ Hl). cbn [mbind option_bind].
    rewrite MLstrFacts.drop_past.
    assert (exists fuel, length (l ++ MLstr.NUL :: t ++ [MLstr.NUL; MLstr.NUL]) = S (S fuel))
      as [fuel ->].
    { exists (length l + length t + 1)%nat. rewrite length_app. simpl.
      rewrite length_app. simpl. lia. }
    exists (l ++ MLstr.NUL :: t ++ [MLstr.NUL; MLstr.NUL]).
    split; [done|]. split; [|by apply MLstrFacts.c_str_nul_free].
    destruct t as [|c t].
    + done.
    + pose proof Ht as Hct. apply MLstrFacts.nul_free_cons in Ht as [Hc Ht].
      cbn [MLstr.mlstr_get_loop app head mbind option_bind]. rewrite Hc.
      change (c :: t ++ [MLstr.NUL; MLstr.NUL])
        with ((c :: t) ++ MLstr.NUL :: [MLstr.NUL]).
      rewrite (MLstrFacts.strlen_nul_free (c :: t) [MLstr.NUL] Hct).
      cbn [mbind option_bind]. rewrite MLstrFacts.drop_past, take_app_length.
      rewrite bool_decide_false by done.
      change (list_ascii_of_string "en") with MLstr._lf_get_lang.
      rewrite bool_decide_false by done.
      cbn [head mbind option_bind]. by rewrite MLstrFacts.is_nul_NUL.
Qed.

(** [lf_mlstr_dup] on a block that holds [d] and [trs] returns a block
    with the same bytes. *)
Theorem lf_mlstr_dup_pack (malloc_0 : option (list ascii))
        (d : list ascii) (trs : list (list ascii * list ascii)) :
  MLstr.nul_free d -> MLstr.well_formed trs ->
  MLstr.lf_mlstr_dup malloc_0 (Some (MLstr.pack d trs))
  = Some (Some (MLstr.pack d trs)).
Proof.
  intros Hd Hwf. unfold MLstr.lf_mlstr_dup.
  rewrite (MLstrFacts.strlen_pack d trs Hd). cbn [mbind option_bind].
  replace (MLstr.pack d trs)
    with ((d ++ [MLstr.NUL]) ++ MLstr.pack_pairs trs ++ [MLstr.NUL]) at 2
    by (unfold MLstr.pack; by rewrite <- !app_assoc).
  replace (length d + 1)%nat with (length (d ++ [MLstr.NUL]))
    by (rewrite length_app; simpl; lia).
  rewrite MLstrFacts.mlstr_end_dup_pack; [|done|].
  - cbn [mbind option_bind].
    pose proof (MLstrFacts.length_pack d trs) as Hlen.
    rewrite length_app in *. cbn [length] in *.
    rewrite bool_decide_true by lia. do 2 f_equal. apply take_ge. lia.
  - pose proof (MLstrFacts.length_pack d trs) as Hlen.
    pose proof (MLstrFacts.length_pack_pairs2 trs). lia.
Qed.

(** ** Naming a mount *)

(** A fresh mount fails Check, and a SetName without a value leaves it as
    it is.  After a SetName with a value and no language tag the mount
    passes Check and [lf_mlstr_get] reads that value back from its
    name. *)
Theorem lfMount_SetName_Check (val : list ascii) :
  MLstr.nul_free val ->
  lfMount_Check lfMount_new = false /\
  lfMount_SetName lfMount_new None None = Some lfMount_new /\
  exists (m : lfMount) (p : list ascii),
    lfMount_SetName lfMount_new (Some val) None = Some m /\
    lfMount_Check m = true /\
    MLstr.lf_mlstr_get (Name m) = Some (Some p) /\
    MLstr.c_str p = Some val.
Proof.
  intros Hval. split; [done|]. split; [done|].
  destruct (MLstrFacts.get_pack_nil val Hval) as [Hget Hp].
  exists {| Name := Some (MLstr.pack val []); Compat := None |}, (MLstr.pack val []).
  unfold lfMount_SetName. cbn [Name Compat lfMount_new].
  by rewrite (MLstrFacts.add_null_default val Hval).
Qed.

(** ** The properties on sample data *)

Lemma GuessParameters_fills_only_empty_witness :
  groups_fit Fixture.regexec_24_70 Fixture.name_24_70 = true /\
  exists l' : lfLens,
    GuessParameters Fixture.regexec_24_70 Fixture.atof_whole
      (Fixture.lens_named Fixture.name_24_70 None) = Some l' /\
    MinFocal l' = Sample.f 24 /\ MaxFocal l' = Sample.f 70 /\
    MinAperture l' = Sample.f 4 /\
    l' = set_ranges (Fixture.lens_named Fixture.name_24_70 None)
           (MinFocal l') (MaxFocal l') (MinAperture l') (MaxAperture l').
Proof.
  split; [reflexivity|].
  eexists. split; [reflexivity|]. do 3 (split; [reflexivity|]).
  apply (proj2 (GuessParameters_fills_only_empty Fixture.regexec_24_70
                  Fixture.atof_whole (Fixture.lens_named Fixture.name_24_70 None))
           _ eq_refl).
Defined.

Lemma Check_stable_witness :
  Check Fixture.regexec_24_70 Fixture.atof_whole
    (set_ranges (Fixture.lens_named Fixture.name_24_70 None)
       (Sample.f 24) (Sample.f 70) (Sample.f 4) fzero)
  = Some (true,
          set_ranges (Fixture.lens_named Fixture.name_24_70 None)
            (Sample.f 24) (Sample.f 70) (Sample.f 4) fzero).
Proof.
  apply (Check_stable Fixture.regexec_24_70 Fixture.atof_whole
           (Fixture.lens_named Fixture.name_24_70 None)).
  reflexivity.
Defined.

Lemma InterpolateDistortion_true_iff_witness :
  exists (m : lfDistortionModel) (r : lfLensCalibDistortion),
    latched_model d_Model int_of_dist [Sample.poly5_24; Sample.poly5_70] = Some m /\
    in_family d_Model int_of_dist m [Sample.poly5_24; Sample.poly5_70] r /\
    reachable (Sample.f 47) (d_Focal r) = true.
Proof.
  apply (proj1 (InterpolateDistortion_true_iff pow_ref Sample.lens_poly5 (Sample.f 47)
                  Sample.dist_res [Sample.poly5_24; Sample.poly5_70] eq_refl)).
  reflexivity.
Defined.

Lemma InterpolateDistortion_outcome_witness :
  exists m : lfDistortionModel,
    latched_model d_Model int_of_dist [Sample.poly5_24; Sample.poly5_70] = Some m /\
    spline_outcome d_Focal (Sample.f 47)
      (in_family d_Model int_of_dist m [Sample.poly5_24; Sample.poly5_70])
      Sample.poly5_47
      (fun s0 s1 s2 s3 =>
         {| d_Model := m;
            d_Focal := Sample.f 47;
            d_RealFocal :=
              _lf_interpolate
                (slot_or s0 d_RealFocal FLT_MAX) (d_RealFocal s1) (d_RealFocal s2)
                (slot_or s3 d_RealFocal FLT_MAX) (spline_t d_Focal (Sample.f 47) s1 s2);
            d_RealFocalMeasured := d_RealFocalMeasured Sample.dist_res;
            d_Terms :=
              map (scaled_term pow_ref d_Focal d_Terms s0 s1 s2 s3 (Sample.f 47)
                     (spline_t d_Focal (Sample.f 47) s1 s2)
                     LF_MODIFY_DISTORTION (int_of_dist m))
                  [0; 1; 2; 3; 4] |}).
Proof.
  apply (InterpolateDistortion_outcome pow_ref Sample.lens_poly5 (Sample.f 47)
           Sample.dist_res Sample.poly5_47 [Sample.poly5_24; Sample.poly5_70] eq_refl).
  vm_compute. reflexivity.
Defined.

Lemma InterpolateTCA_true_iff_witness :
  exists (m : lfTCAModel) (r : lfLensCalibTCA),
    latched_model t_Model int_of_tca (entries (CalibTCA Fixture.lens_zoom)) = Some m /\
    in_family t_Model int_of_tca m (entries (CalibTCA Fixture.lens_zoom)) r /\
    reachable (Sample.f 47) (t_Focal r) = true.
Proof.
  apply (proj1 (InterpolateTCA_true_iff pow_ref Fixture.lens_zoom (Sample.f 47)
                  Fixture.tca_res (entries (CalibTCA Fixture.lens_zoom)) eq_refl)).
  reflexivity.
Defined.

Lemma InterpolateTCA_outcome_witness :
  exists m : lfTCAModel,
    latched_model t_Model int_of_tca (entries (CalibTCA Fixture.lens_zoom)) = Some m /\
    spline_outcome t_Focal (Sample.f 47)
      (in_family t_Model int_of_tca m (entries (CalibTCA Fixture.lens_zoom)))
      Fixture.tca_47
      (fun s0 s1 s2 s3 =>
         {| t_Model := m;
            t_Focal := Sample.f 47;
            t_Terms :=
              map (scaled_term pow_ref t_Focal t_Terms s0 s1 s2 s3 (Sample.f 47)
                     (spline_t t_Focal (Sample.f 47) s1 s2)
                     LF_MODIFY_TCA (int_of_tca m))
                  [0; 1; 2; 3; 4; 5; 6; 7; 8; 9; 10; 11] |}).
Proof.
  apply (InterpolateTCA_outcome pow_ref Fixture.lens_zoom (Sample.f 47) Fixture.tca_res
           Fixture.tca_47 (entries (CalibTCA Fixture.lens_zoom)) eq_refl).
  vm_compute. reflexivity.
Defined.

Lemma InterpolateCrop_true_iff_witness :
  exists (m : lfCropMode) (r : lfLensCalibCrop),
    latched_model c_CropMode int_of_crop (entries (CalibCrop Fixture.lens_zoom)) = Some m /\
    in_family c_CropMode int_of_crop m (entries (CalibCrop Fixture.lens_zoom)) r /\
    reachable (Sample.f 47) (c_Focal r) = true.
Proof.
  apply (proj1 (InterpolateCrop_true_iff Fixture.lens_zoom (Sample.f 47)
                  Fixture.crop_res (entries (CalibCrop Fixture.lens_zoom)) eq_refl)).
  reflexivity.
Defined.

Lemma InterpolateCrop_outcome_witness :
  exists m : lfCropMode,
    latched_model c_CropMode int_of_crop (entries (CalibCrop Fixture.lens_zoom)) = Some m /\
    spline_outcome c_Focal (Sample.f 47)
      (in_family c_CropMode int_of_crop m (entries (CalibCrop Fixture.lens_zoom)))
      Fixture.crop_47
      (fun s0 s1 s2 s3 =>
         {| c_Focal := Sample.f 47;
            c_CropMode := m;
            c_Crop :=
              map (fun i =>
                     _lf_interpolate
                       (slot_or s0 (fun c => at_ (c_Crop c) i) FLT_MAX)
                       (at_ (c_Crop s1) i) (at_ (c_Crop s2) i)
                       (slot_or s3 (fun c => at_ (c_Crop c) i) FLT_MAX)
                       (spline_t c_Focal (Sample.f 47) s1 s2))
                  [0; 1; 2; 3] |}).
Proof.
  apply (InterpolateCrop_outcome Fixture.lens_zoom (Sample.f 47) Fixture.crop_res
           Fixture.crop_47 (entries (CalibCrop Fixture.lens_zoom)) eq_refl).
  vm_compute. reflexivity.
Defined.

Lemma InterpolateFov_true_iff_witness :
  exists r : lfLensCalibFov,
    in_fov (entries (CalibFov Fixture.lens_zoom)) r /\
    reachable (Sample.f 47) (f_Focal r) = true.
Proof.
  apply (proj1 (InterpolateFov_true_iff Fixture.lens_zoom (Sample.f 47)
                  Fixture.fov_res (entries (CalibFov Fixture.lens_zoom)) eq_refl)).
  reflexivity.
Defined.

Lemma InterpolateFov_outcome_witness :
  spline_outcome f_Focal (Sample.f 47) (in_fov Fixture.fov_four) Fixture.fov_four_47
    (fun s0 s1 s2 s3 =>
       {| f_Focal := Sample.f 47;
          f_FieldOfView :=
            _lf_interpolate
              (slot_or s0 f_FieldOfView FLT_MAX)
              (f_FieldOfView s1) (f_FieldOfView s2)
              (slot_or s3 f_FieldOfView FLT_MAX)
              (spline_t f_Focal (Sample.f 47) s1 s2) |}).
Proof.
  apply (InterpolateFov_outcome Fixture.lens_fov_four (Sample.f 47) Fixture.fov_res
           Fixture.fov_four_47 Fixture.fov_four eq_refl).
  vm_compute. reflexivity.
Defined.

(** The single POLY5 record at 24 mm answers a query at 47 mm. *)
Lemma Interpolate_single_record_witness :
  InterpolateDistortion pow_ref Fixture.lens_single (Sample.f 47) Sample.dist_res
  = (true, Sample.poly5_24).
Proof.
  apply (proj1 (Interpolate_single_record pow_ref Fixture.lens_single (Sample.f 47)));
    [reflexivity|discriminate|reflexivity].
Defined.

(** The four slots in that run: the samples at 70 mm and at 35 mm are the
    nearest on either side of 47 mm, those at 100 mm and at 24 mm stand
    next in line, and the four fields of view enter the Hermite step in
    that order. *)
Example InterpolateFov_four_slots :
  InterpolateFov Fixture.lens_fov_four (Sample.f 47) Fixture.fov_res
  = (true,
     {| f_Focal := Sample.f 47;
        f_FieldOfView :=
          _lf_interpolate (Sample.f 24) (Sample.f 34) (Sample.f 63) (Sample.f 84)
            (spline_t f_Focal (Sample.f 47) (Fixture.fov 70 34) (Fixture.fov 35 63)) |}).
Proof. vm_compute. reflexivity. Qed.

Lemma InterpolateVignetting_outcome_witness :
  snd (InterpolateVignetting pow_ref (Sample.lens_vig [Sample.pa_24; Sample.pa_50])
         (Sample.f 37) Sample.f2_8 (Sample.f 1) Sample.vig_res)
  = {| v_Model := LF_VIGNETTING_MODEL_PA; v_Focal := Sample.f 37;
       v_Aperture := Sample.f2_8; v_Distance := Sample.f 1;
       v_Terms :=
         map (fun i => weighted_mean pow_ref
                         (Sample.lens_vig [Sample.pa_24; Sample.pa_50])
                         (Sample.f 37) Sample.f2_8 (Sample.f 1)
                         LF_VIGNETTING_MODEL_PA i [Sample.pa_24; Sample.pa_50])
             [0; 1; 2] |} /\
  (float_lit (-31) 100
   < weighted_mean pow_ref (Sample.lens_vig [Sample.pa_24; Sample.pa_50])
       (Sample.f 37) Sample.f2_8 (Sample.f 1)
       LF_VIGNETTING_MODEL_PA 0 [Sample.pa_24; Sample.pa_50])%flt = true /\
  (weighted_mean pow_ref (Sample.lens_vig [Sample.pa_24; Sample.pa_50])
     (Sample.f 37) Sample.f2_8 (Sample.f 1)
     LF_VIGNETTING_MODEL_PA 0 [Sample.pa_24; Sample.pa_50]
   < float_lit (-29) 100)%flt = true.
Proof.
  split; [|split; reflexivity].
  destruct (InterpolateVignetting_outcome pow_ref
              (Sample.lens_vig [Sample.pa_24; Sample.pa_50])
              [Sample.pa_24; Sample.pa_50]
              (Sample.f 37) Sample.f2_8 (Sample.f 1) Sample.vig_res
              (snd (InterpolateVignetting pow_ref
                      (Sample.lens_vig [Sample.pa_24; Sample.pa_50])
                      (Sample.f 37) Sample.f2_8 (Sample.f 1) Sample.vig_res))
              eq_refl) as [[Hin _]|Hout].
  - vm_compute. reflexivity.
  - exfalso. apply elem_of_cons in Hin as [Hin|Hin].
    + apply (f_equal v_Focal) in Hin. vm_compute in Hin. discriminate Hin.
    + apply list_elem_of_singleton in Hin.
      apply (f_equal v_Focal) in Hin. vm_compute in Hin. discriminate Hin.
  - exact Hout.
Defined.

Lemma InterpolateVignetting_at_sample_witness :
  exists c : lfLensCalibVignetting,
    InterpolateVignetting pow_ref (Sample.lens_vig [Sample.pa_24; Sample.pa_50])
      (Sample.f 50) Sample.f2_8 (Sample.f 1) Sample.vig_res = (true, c) /\
    c ∈ [Sample.pa_24; Sample.pa_50] /\
    within_exact (Sample.lens_vig [Sample.pa_24; Sample.pa_50])
      (Sample.f 50) Sample.f2_8 (Sample.f 1) c = true.
Proof.
  apply (InterpolateVignetting_at_sample pow_ref
           (Sample.lens_vig [Sample.pa_24; Sample.pa_50])
           [Sample.pa_24; Sample.pa_50] Sample.pa_50 Sample.vig_res eq_refl).
  - apply elem_of_cons. right. apply elem_of_cons. by left.
  - reflexivity.
  - reflexivity.
  - reflexivity.
Defined.

Lemma assign_copies_lists_witness :
  exists t' : lfLens,
    assign None Fixture.two_lenses 0 1 = Some (<[0%nat := t']> Fixture.two_lenses) /\
    entries (Mounts t') = ["M42"%string] /\
    entries (CalibDistortion t') = [Sample.poly5_24; Sample.poly5_70].
Proof.
  destruct (assign_copies_lists None Fixture.two_lenses 0 1 lfLens_new Sample.lens_poly5)
    as (t' & Hassign & Hmounts & Hdist & _); [done|reflexivity|reflexivity|].
  exists t'. split; [exact Hassign|]. split; [exact Hmounts|].
  apply Hdist. exact (proj1 lens_poly5_keys_distinct).
Defined.

Lemma assign_normalizes_witness :
  (exists t' : lfLens,
     assign None Fixture.two_lenses 0 1 = Some (<[0%nat := t']> Fixture.two_lenses) /\
     Score t' = 0) /\
  assign None Fixture.two_lenses 1 1 = None /\
  exists t' : lfLens,
    assign None Fixture.two_lenses 0 0 = Some (<[0%nat := t']> Fixture.two_lenses) /\
    Mounts t' = None.
Proof.
  pose proof (assign_normalizes None Fixture.two_lenses 0 1 lfLens_new Sample.lens_poly5
                eq_refl eq_refl) as (Hother & _).
  pose proof (assign_normalizes None Fixture.two_lenses 1 1 Sample.lens_poly5 Sample.lens_poly5
                eq_refl eq_refl) as (_ & Hnamed & _).
  pose proof (assign_normalizes None Fixture.two_lenses 0 0 lfLens_new lfLens_new
                eq_refl eq_refl) as (_ & _ & Hbare).
  split; [|split].
  - destruct Hother as (t' & Hassign & _ & _ & _ & _ & _ & _ & _ & Hscore); [done|].
    exists t'. by split.
  - by apply Hnamed.
  - destruct Hbare as (t' & Hassign & Hmounts & _); [done|done|].
    exists t'. by split.
Defined.


(** A record at 35 mm is appended to the two POLY5 records, and removing
    index 2 restores them. *)
Lemma RemoveCalib_undoes_AddCalib_witness :
  RemoveCalibDistortion
    (AddCalibDistortion Sample.lens_poly5 (Sample.dist LF_DIST_MODEL_POLY5 35 fzero)) 2
  = (true, Sample.lens_poly5).
Proof.
  apply (proj1 (RemoveCalib_undoes_AddCalib Sample.lens_poly5
                  (Sample.dist LF_DIST_MODEL_POLY5 35 fzero)
                  Fixture.tca_res Sample.pa_24 Fixture.crop_res Fixture.fov_res)).
  intros x Hx. apply elem_of_cons in Hx as [->|Hx]; [reflexivity|].
  apply elem_of_cons in Hx as [->|Hx]; [reflexivity|].
  by apply elem_of_nil in Hx.
Defined.

Lemma well_formed_name_en :
  MLstr.well_formed
    [(Fixture.ascii_of "de", Fixture.ascii_of "Normal");
     (Fixture.ascii_of "en", Fixture.ascii_of "Regular")].
Proof. repeat constructor; done. Defined.

Lemma well_formed_name_de :
  MLstr.well_formed [(Fixture.ascii_of "de", Fixture.ascii_of "Normal")].
Proof. repeat constructor; done. Defined.

Lemma lf_mlstr_get_pack_witness :
  exists p : list ascii,
    MLstr.lf_mlstr_get (Some Fixture.name_en) = Some (Some p) /\
    MLstr.c_str p = Some (Fixture.ascii_of "Regular").
Proof.
  apply (lf_mlstr_get_pack (Fixture.ascii_of "Standard") _ eq_refl well_formed_name_en).
Defined.

Lemma lf_mlstr_add_translation_witness :
  MLstr.lf_mlstr_add (Some Fixture.name_de)
    (Some (Fixture.ascii_of "en")) (Some (Fixture.ascii_of "Regular"))
  = Some (Some Fixture.name_en).
Proof.
  apply (lf_mlstr_add_translation (Fixture.ascii_of "Standard") _
           (Fixture.ascii_of "en") (Fixture.ascii_of "Regular")
           eq_refl well_formed_name_de eq_refl eq_refl).
Defined.

(** Without translations the default string is replaced; with the German
    translation in place a longer default string makes the first [memcpy]
    write past the end of the block. *)
Lemma lf_mlstr_add_default_witness :
  MLstr.lf_mlstr_add (Some (MLstr.pack (Fixture.ascii_of "Standard") [])) None
    (Some (Fixture.ascii_of "Std"))
  = Some (Some (MLstr.pack (Fixture.ascii_of "Std") [])) /\
  MLstr.lf_mlstr_add (Some Fixture.name_de) None
    (Some (Fixture.ascii_of "Standard zoom"))
  = None.
Proof.
  split.
  - apply (proj1 (lf_mlstr_add_default (Fixture.ascii_of "Standard") []
                    (Fixture.ascii_of "Std") eq_refl (Forall_nil_2 _) eq_refl)).
    by left.
  - apply (proj2 (lf_mlstr_add_default (Fixture.ascii_of "Standard") _
                    (Fixture.ascii_of "Standard zoom")
                    eq_refl well_formed_name_de eq_refl)).
    intros [H|H]; [discriminate|]. vm_compute in H. lia.
Defined.

Lemma lf_mlstr_add_to_null_witness :
  exists (b p : list ascii),
    MLstr.lf_mlstr_add None (Some (Fixture.ascii_of "en")) (Some (Fixture.ascii_of "Canon"))
    = Some (Some b) /\
    MLstr.lf_mlstr_get (Some b) = Some (Some p) /\
    MLstr.c_str p = Some (Fixture.ascii_of "en").
Proof.
  apply (lf_mlstr_add_to_null (Fixture.ascii_of "en") (Fixture.ascii_of "Canon")
           eq_refl eq_refl).
  discriminate.
Defined.

Lemma lf_mlstr_dup_pack_witness :
  MLstr.lf_mlstr_dup None (Some Fixture.name_en) = Some (Some Fixture.name_en).
Proof.
  apply (lf_mlstr_dup_pack None (Fixture.ascii_of "Standard") _
           eq_refl well_formed_name_en).
Defined.

(** A lens that starts at 24 mm sorts before one that starts at 24.5 mm
    by 50, and after it by 50 the other way round. *)
Lemma _lf_lens_parameters_compare_swap_witness :
  _lf_lens_parameters_compare Fixture.lens_24 Fixture.lens_24_5 = Some (-50) /\
  _lf_lens_parameters_compare Fixture.lens_24_5 Fixture.lens_24 = Some 50.
Proof.
  split; [reflexivity|].
  apply (_lf_lens_parameters_compare_swap Fixture.lens_24 Fixture.lens_24_5 (-50));
    [reflexivity|discriminate].
Defined.

Lemma lfMount_SetName_Check_witness :
  exists (m : lfMount) (p : list ascii),
    lfMount_SetName lfMount_new (Some (Fixture.ascii_of "M42")) None = Some m /\
    lfMount_Check m = true /\
    MLstr.lf_mlstr_get (Name m) = Some (Some p) /\
    MLstr.c_str p = Some (Fixture.ascii_of "M42").
Proof.
  exact (proj2 (proj2 (lfMount_SetName_Check (Fixture.ascii_of "M42") eq_refl))).
Defined.
